(** * A REST resource server over an in-memory list of concerts

    Shallow embedding of [main.py] (a Flask application) and the
    properties of its handlers and view helpers.

    - Python dictionaries are finite maps from strings ([gmap string _]).
    - Python lists are Rocq lists; list indices are [nat].
    - Python [int] is [Z].
    - A Python exception is an explicit result [Raise e]; a handler that
      does not catch it leaves through [Raise e] with whatever it already
      wrote to the globals.
    - The two globals [concerts] and [concerts_key] form the [state].
    - What the interpreter and its libraries provide ([datetime], [float],
      [int()] on text) is an interface, the class [PyLib].

    The handlers are functions of the list of records. The read path
    ([limit_offset], [reduce_fields], [encode_date] and the GET handlers),
    where the same list and dict objects reach several places and one of
    them is assigned into, is also given on a heap of objects with
    references ([Module Heap]), and shown to return what the functions
    return. *)

From stdpp Require Import gmap strings list fin_maps pretty sorting.
From Stdlib Require Import ZArith Lia Ascii.

Local Open Scope string_scope.
Local Open Scope Z_scope.

(** ** Exceptions and results *)

Inductive exn : Type :=
| KeyError
| ValueError
| TypeError
| AttributeError
| AssertionError
| OverflowError
| IndexError
| BadRequest.

#[export] Instance exn_eq_dec : EqDecision exn.
Proof. solve_decision. Defined.

Inductive res (A : Type) : Type :=
| Ok (a : A)
| Raise (e : exn).
Arguments Ok {A} a.
Arguments Raise {A} e.

#[export] Instance res_ret : MRet res := λ A a, Ok a.
#[export] Instance res_bind : MBind res := λ A B k m,
  match m with
  | Ok a => k a
  | Raise e => Raise e
  end.

(** [mapM] for [res]: left to right, stops at the first exception. *)
Fixpoint res_map {A B} (f : A → res B) (l : list A) : res (list B) :=
  match l with
  | [] => Ok []
  | x :: l' =>
      y ← f x; ys ← res_map f l'; Ok (y :: ys)
  end.

(** [foldM] for [res]. *)
Fixpoint res_fold {A B} (f : B → A → res B) (l : list A) (b : B) : res B :=
  match l with
  | [] => Ok b
  | x :: l' => b' ← f b x; res_fold f l' b'
  end.

(** ** Code that updates a state and may raise

    What the code wrote to the state before it raises stays written. *)

Definition ST (S A : Type) : Type := S → res A * S.

#[export] Instance ST_ret {S} : MRet (ST S) := λ A a s, (Ok a, s).
#[export] Instance ST_bind {S} : MBind (ST S) := λ A B k m s,
  match m s with
  | (Ok a, s') => k a s'
  | (Raise e, s') => (Raise e, s')
  end.

Definition lift {S A} (r : res A) : ST S A := λ s, (r, s).

(** [try: m  except e: h] *)
Definition try_except {S A} (m : ST S A) (e : exn) (h : ST S A) : ST S A :=
  λ s, match m s with
       | (Raise e', s') => if decide (e' = e) then h s' else (Raise e', s')
       | r => r
       end.

(** [for x in l: f x] *)
Fixpoint for_each {S A} (l : list A) (f : A → ST S unit) : ST S unit :=
  match l with
  | [] => mret ()
  | x :: l' => f x;; for_each l' f
  end.

(** [[f x for x in l]] *)
Fixpoint map_each {S A B} (f : A → ST S B) (l : list A) : ST S (list B) :=
  match l with
  | [] => mret []
  | x :: l' => y ← f x; ys ← map_each f l'; mret (y :: ys)
  end.

(** From a state with [P], [m] ends with a result and a state with [Q]. *)
Definition hoare {S A} (P : S → Prop) (m : ST S A) (Q : res A → S → Prop)
  : Prop :=
  ∀ s, P s → Q (m s).1 (m s).2.

(** A step that keeps [I] whatever it returns. *)
Definition keeps {S A} (I : S → Prop) (m : ST S A) : Prop :=
  hoare I m (λ _, I).

(** Postcondition [R] for a returned value, [E] after an exception. *)
Definition post {S A} (R : A → S → Prop) (E : S → Prop) : res A → S → Prop :=
  λ r s, match r with Ok a => R a s | Raise _ => E s end.

(** ** What Python provides *)

Class PyLib : Type := {
  (** [datetime.datetime] objects *)
  datetime : Type;
  (** [float] objects *)
  pyfloat : Type;
  (** [datetime.fromisoformat] on a [str]; [None] is [ValueError] *)
  fromisoformat : string → option datetime;
  (** [datetime.isoformat] *)
  isoformat : datetime → string;
  (** [int(s)] on a [str]; [None] is [ValueError] *)
  int_of_str : string → option Z;
  (** [int(x)] on a [float]: truncation, [ValueError] on nan,
      [OverflowError] on an infinity *)
  int_of_float : pyfloat → res Z;
  (** [x == k] for a [float] and an [int] *)
  float_eq_int : pyfloat → Z → bool
}.

(** *** An interpretation of the interface

    A small stand-in for the interpreter, to run the model on concrete
    calls: a [datetime] is kept as its text, which [fromisoformat] accepts
    when it has the shape [YYYY-MM-DDTHH:MM:SS+HH:MM]; [int()] reads an
    optional minus sign and decimal digits; there are no floats. *)

Definition is_digit (c : ascii) : bool :=
  (48 <=? nat_of_ascii c)%nat && (nat_of_ascii c <=? 57)%nat.

(** In a pattern, [d] stands for a digit and [s] for a sign. *)
Fixpoint has_shape (pattern s : string) : bool :=
  match pattern, s with
  | EmptyString, EmptyString => true
  | String p pattern', String c s' =>
      (if Ascii.eqb p "d" then is_digit c
       else if Ascii.eqb p "s" then Ascii.eqb c "+" || Ascii.eqb c "-"
       else Ascii.eqb p c)
      && has_shape pattern' s'
  | _, _ => false
  end.

Fixpoint decimal (s : string) (acc : Z) : option Z :=
  match s with
  | EmptyString => Some acc
  | String c s' =>
      if is_digit c
      then decimal s' (10 * acc + (Z.of_nat (nat_of_ascii c) - 48))
      else None
  end.

Definition sample_int_of_str (s : string) : option Z :=
  match s with
  | EmptyString => None
  | String c s' =>
      if Ascii.eqb c "-"
      then (if bool_decide (s' = "") then None else Z.opp <$> decimal s' 0)
      else decimal s 0
  end.

Definition sample_py : PyLib := {|
  datetime := string;
  pyfloat := Empty_set;
  fromisoformat := λ s,
    if has_shape "dddd-dd-ddTdd:dd:ddsdd:dd" s then Some s else None;
  isoformat := λ d, d;
  int_of_str := sample_int_of_str;
  int_of_float := λ x, match x with end;
  float_eq_int := λ x _, match x with end
|}.

Section Embedding.
Context {py : PyLib}.

(** ** Values *)

(** What [request.json] can hold. *)
#[warnings="-register-all"]
Inductive json : Type :=
| JNull
| JBool (b : bool)
| JInt (n : Z)
| JFloat (x : pyfloat)
| JStr (s : string)
| JArr (l : list json)
| JObj (m : gmap string json).

(** What a record of the store can hold under a key: an object that came
    out of a JSON body (among them [int] and [str]), or a [datetime]. *)
Inductive value : Type :=
| VJson (j : json)
| VDate (d : datetime).

Definition VInt (n : Z) : value := VJson (JInt n).
Definition VStr (s : string) : value := VJson (JStr s).

(** A record is a [dict] with [str] keys. *)
Local Abbreviation record := (gmap string value).

(** ** Built-in operations the program uses *)

(** [v == k] where [k] is an [int]. [bool] is a subclass of [int]; every
    other type compares unequal to an [int]. *)
Definition eq_int (v : value) (k : Z) : bool :=
  match v with
  | VJson (JInt n) => bool_decide (n = k)
  | VJson (JBool b) => bool_decide (Z.b2z b = k)
  | VJson (JFloat x) => float_eq_int x k
  | _ => false
  end.

(** [int(j)] *)
Definition py_int (j : json) : res Z :=
  match j with
  | JInt n => Ok n
  | JBool b => Ok (Z.b2z b)
  | JFloat x => int_of_float x
  | JStr s =>
      match int_of_str s with
      | Some n => Ok n
      | None => Raise ValueError
      end
  | JNull | JArr _ | JObj _ => Raise TypeError
  end.

(** [j[key]] with a [str] key *)
Definition getitem (j : json) (key : string) : res json :=
  match j with
  | JObj m =>
      match m !! key with
      | Some v => Ok v
      | None => Raise KeyError
      end
  | _ => Raise TypeError
  end.

(** [p in s] for two [str]: [p] occurs in [s] *)
Fixpoint occurs_in (p s : string) : bool :=
  String.prefix p s ||
  match s with
  | EmptyString => false
  | String _ s' => occurs_in p s'
  end.

Definition is_str (key : string) (j : json) : bool :=
  match j with
  | JStr s => bool_decide (s = key)
  | _ => false
  end.

(** [key in j] with a [str] key *)
Definition contains (j : json) (key : string) : res bool :=
  match j with
  | JObj m => Ok (bool_decide (is_Some (m !! key)))
  | JArr l => Ok (existsb (is_str key) l)
  | JStr s => Ok (occurs_in key s)
  | _ => Raise TypeError
  end.

(** [datetime.fromisoformat(j)] *)
Definition datetime_fromisoformat (j : json) : res datetime :=
  match j with
  | JStr s =>
      match fromisoformat s with
      | Some d => Ok d
      | None => Raise ValueError
      end
  | _ => Raise TypeError
  end.

(** [v.isoformat()] *)
Definition call_isoformat (v : value) : res value :=
  match v with
  | VDate d => Ok (VStr (isoformat d))
  | VJson _ => Raise AttributeError
  end.

(** [r[key]] on a record *)
Definition record_getitem (r : record) (key : string) : res value :=
  match r !! key with
  | Some v => Ok v
  | None => Raise KeyError
  end.

(** [l[index]] on a list *)
Definition list_getitem {A} (l : list A) (index : nat) : res A :=
  match l !! index with
  | Some x => Ok x
  | None => Raise IndexError
  end.

(** [s.split(',')] *)
Fixpoint split_comma (s : string) : list string :=
  match s with
  | EmptyString => [""]
  | String c s' =>
      if Ascii.eqb c ","%char then "" :: split_comma s'
      else match split_comma s' with
           | w :: ws => String c w :: ws
           | [] => [String c ""]
           end
  end.

(** A slice bound brought into [0, len], as [l[i:j]] does. *)
Definition slice_bound (len i : Z) : Z :=
  if bool_decide (i < 0) then Z.max (i + len) 0 else Z.min i len.

(** [l[start:stop]] *)
Definition py_slice {A} (l : list A) (start stop : Z) : list A :=
  let len := Z.of_nat (length l) in
  let lo := slice_bound len start in
  let hi := slice_bound len stop in
  take (Z.to_nat (hi - lo)) (drop (Z.to_nat lo) l).

(** Truth value of what [content_index] returns: [None] and [0] are false. *)
Definition truthy (index : option nat) : bool :=
  match index with
  | Some (S _) => true
  | _ => false
  end.

(** ** View helpers *)

(** [limit_offset]: if limit or offset is not 0, a subset of the list, else
    the whole list. *)
Definition limit_offset {A} (content_list : list A) (limit offset : Z) : list A :=
  if bool_decide (limit ≠ 0) || bool_decide (offset ≠ 0)
  then py_slice content_list offset (offset + limit)
  else content_list.

(** [{k: v for k, v in c.items() if k in fields}] *)
Definition keep_fields (fields : list string) (c : record) : record :=
  filter (λ kv, kv.1 ∈ fields) c.

(** [reduce_fields]: the list of records with only the selected fields;
    [fields] is [request.args.get('fields')], [None] or a [str]. *)
Definition reduce_fields (content_list : list record) (fields : option string)
  : list record :=
  match fields with
  | Some s =>
      if bool_decide (s = "") then content_list
      else keep_fields (split_comma s) <$> content_list
  | None => content_list
  end.

(** One turn of the inner loop of [encode_date]:
    [r[field] = r[field].isoformat()]. *)
Definition encode_field (r : record) (field : string) : res record :=
  v ← record_getitem r field;
  s ← call_isoformat v;
  Ok (<[field := s]> r).

(** [encode_date]: for each record, the datetime fields as ISO text. The
    copy and the assignments into it are the functions [res_map] and
    [res_fold] here: this is the function of a list whose records are dict
    objects of their own, as the lists are that the handlers pass.
    [Heap.encode_date] has the copy and the assignments as the code does,
    also for a list that holds one dict object twice. *)
Definition encode_date (content_list : list record) (fields : string)
  : res (list record) :=
  if bool_decide (fields = "") then Raise AssertionError
  else
    let fields := split_comma fields in
    match content_list with
    | r0 :: _ =>
        if forallb (λ field, bool_decide (is_Some (r0 !! field))) fields
        then res_map (λ r, res_fold encode_field fields r) content_list
        else Ok content_list
    | [] => Ok content_list
    end.

(** The loop of [content_index] from position [index] on. *)
Fixpoint content_index_from (content_list : list record) (field : string)
    (value : Z) (index : nat) : res (option nat) :=
  match content_list with
  | [] => Ok None
  | r :: rest =>
      v ← record_getitem r field;
      if eq_int v value then Ok (Some index)
      else content_index_from rest field value (S index)
  end.

(** [content_index]: the first index of a record where
    [record[field] == value]; every call passes an [int] as [value]. *)
Definition content_index (content_list : list record) (field : string)
    (value : Z) : res (option nat) :=
  match content_list with
  | r0 :: _ =>
      if bool_decide (is_Some (r0 !! field))
      then content_index_from content_list field value 0
      else Ok None
  | [] => Ok None
  end.

(** The record the specification describes for [encode_date]: a copy of
    [r] in which each field named in [fields] that holds a [datetime] is
    rendered by [isoformat]. *)
Definition render (fields : list string) (r : record) : record :=
  map_imap (λ k v,
    Some (if bool_decide (k ∈ fields)
          then match v with VDate d => VStr (isoformat d) | _ => v end
          else v)) r.

(** [i] is the first position of [l] whose record has [k] under [field]:
    the records before it have the field with another value. *)
Definition first_match (l : list record) (field : string) (k : Z) (i : nat) : Prop :=
  (∃ r v, l !! i = Some r ∧ r !! field = Some v ∧ eq_int v k = true)
  ∧ ∀ j, (j < i)%nat →
      ∃ r v, l !! j = Some r ∧ r !! field = Some v ∧ eq_int v k = false.

(** ** The store and the handler monad *)

(** The module's two globals. *)
Record state : Type := State {
  concerts : list record;
  concerts_key : Z
}.

(** A handler reads and writes the globals and may raise. *)
Local Abbreviation M := (ST state).

Definition read_concerts : M (list record) := λ s, (Ok (concerts s), s).
Definition read_key : M Z := λ s, (Ok (concerts_key s), s).
Definition write_key (k : Z) : M unit := λ s, (Ok (), State (concerts s) k).

(** [concerts.append(c)] *)
Definition append (c : record) : M unit :=
  λ s, (Ok (), State (concerts s ++ [c]) (concerts_key s)).

(** [concerts[index] = c] *)
Definition setitem (index : nat) (c : record) : M unit :=
  λ s, match concerts s !! index with
       | Some _ => (Ok (), State (<[index := c]> (concerts s)) (concerts_key s))
       | None => (Raise IndexError, s)
       end.

(** [concerts[index][key] = v]: the record at [index] is updated in place. *)
Definition setitem_field (index : nat) (key : string) (v : value) : M unit :=
  λ s, match concerts s !! index with
       | Some r =>
           (Ok (), State (<[index := <[key := v]> r]> (concerts s)) (concerts_key s))
       | None => (Raise IndexError, s)
       end.

(** [del concerts[index]] *)
Definition delitem (index : nat) : M unit :=
  λ s, match concerts s !! index with
       | Some _ => (Ok (), State (delete index (concerts s)) (concerts_key s))
       | None => (Raise IndexError, s)
       end.

(** The id of [r] is an [int] below [key]. *)
Definition below (key : Z) (r : record) : Prop :=
  ∃ n, r !! "id" = Some (VInt n) ∧ n < key.

(** Every record has an [int] id below the counter, and the counter is
    at least [k0]. *)
Definition bounded (k0 : Z) (s : state) : Prop :=
  Forall (below (concerts_key s)) (concerts s) ∧ k0 ≤ concerts_key s.

(** What the records of the store have under [id], in order. *)
Definition ids (s : state) : list (option value) :=
  (λ r, r !! "id") <$> concerts s.

(** ** Requests and responses *)

Record request : Type := Request {
  (** [request.is_json]: the content type is [application/json] *)
  is_json : bool;
  (** [request.json]; [None] when the body does not parse, and reading
      the attribute raises [BadRequest] *)
  json_body : option json;
  (** [request.args], the query string *)
  args : gmap string string
}.

Inductive body : Type :=
| Empty
| Json_error (msg : string)
| Json_record (r : record)
| Json_list (l : list record).

Record response : Type := Response {
  status : Z;
  content : body;
  (** the [location] header *)
  location : option string
}.

(** [jsonify({'error': msg}), code] *)
Definition error (msg : string) (code : Z) : response :=
  Response code (Json_error msg) None.

(** [request.json[key]] *)
Definition request_json (rq : request) (key : string) : res json :=
  match json_body rq with
  | Some j => getitem j key
  | None => Raise BadRequest
  end.

(** [key in request.json] *)
Definition in_request_json (rq : request) (key : string) : res bool :=
  match json_body rq with
  | Some j => contains j key
  | None => Raise BadRequest
  end.

(** [int(request.args.get(name) or 0)] *)
Definition int_arg (rq : request) (name : string) : res Z :=
  match args rq !! name with
  | Some s =>
      if bool_decide (s = "") then Ok 0
      else match int_of_str s with
           | Some n => Ok n
           | None => Raise ValueError
           end
  | None => Ok 0
  end.

(** [{'id': identity, 'artist': artist, 'venue': venue, 'date': dt}] *)
Definition concert (identity : Z) (artist venue : json) (dt : datetime) : record :=
  <["id" := VInt identity]>
    (<["artist" := VJson artist]>
       (<["venue" := VJson venue]>
          (<["date" := VDate dt]> ∅))).

(** [jsonify({'error': 'Resource not found'}), 404] *)
Definition not_found : response := error "Resource not found" 404.

(** The first [try] block of [post_concerts] and of [put_concerts_id]. *)
Definition read_artist_venue_date (rq : request) : res (json * json * datetime) :=
  artist ← request_json rq "artist";
  venue ← request_json rq "venue";
  date ← request_json rq "date";
  dt ← datetime_fromisoformat date;
  Ok (artist, venue, dt).

(** [concerts_key = concerts_key if identity < concerts_key else identity+1] *)
Definition advance_key (identity : Z) : M unit :=
  key ← read_key;
  write_key (if bool_decide (identity < key) then key else identity + 1).

(** ** Handlers

    The handlers are given for the requests they are written for. The
    f-string of the [location] header is [pretty], and [deepcopy] and
    [jsonify] return: Python refuses to write an [int] of more than 4300
    digits, and the copy and the encoder of a value nested deeper than the
    recursion limit allows raise. The properties that depend on this are
    stated for [printable] ids and for records that are [plain]. *)

(** Body of the second [try] block of [post_concerts]. [inl] is the
    [return] inside the block, [inr] the identity it ends with. *)
Definition post_read_id (rq : request) : M (response + Z) :=
  j ← lift (request_json rq "id");
  identity ← lift (py_int j);
  cs ← read_concerts;
  index ← lift (content_index cs "id" identity);
  if truthy index then mret (inl (error "Resource already exists" 400))
  else advance_key identity;; mret (inr identity).

(** Its [except KeyError] block. *)
Definition post_new_id : M (response + Z) :=
  key ← read_key;
  write_key (key + 1);;
  mret (inr key).

Definition post_concerts (rq : request) : M response :=
  if is_json rq then
    match read_artist_venue_date rq with
    | Ok (artist, venue, dt) =>
        r ← try_except (post_read_id rq) KeyError post_new_id;
        match r with
        | inl resp => mret resp
        | inr i =>
            let identity := i in
            append (concert identity artist venue dt);;
            mret (Response 201 Empty (Some ("/concerts/" +:+ pretty identity)))
        end
    | Raise KeyError => mret (error "Missing field(s)" 400)
    | Raise ValueError => mret (error "Wrong datetime format" 400)
    | Raise e => lift (Raise e)
    end
  else mret (error "Incorrect Content-Type" 400).

Definition post_concerts_id (identity : Z) : M response :=
  cs ← read_concerts;
  index ← lift (content_index cs "id" identity);
  if truthy index then mret (error "Resource already exists" 409)
  else mret (error "Resource not found" 404).

Definition get_concerts (rq : request) : M response :=
  limit ← lift (int_arg rq "limit");
  offset ← lift (int_arg rq "offset");
  let fields := args rq !! "fields" in
  cs ← read_concerts;
  let concerts_temp := limit_offset cs limit offset in
  let concerts_temp := reduce_fields concerts_temp fields in
  concerts_temp ← lift (encode_date concerts_temp "date");
  mret (Response 200 (Json_list concerts_temp) None).

Definition get_concerts_id (identity : Z) (rq : request) : M response :=
  let fields := args rq !! "fields" in
  cs ← read_concerts;
  index ← lift (content_index cs "id" identity);
  match index with
  | Some (S _ as index) =>
      c ← lift (list_getitem cs index);
      let concert_temp := [c] in
      let concert_temp := reduce_fields concert_temp fields in
      concert_temp ← lift (encode_date concert_temp "date");
      c0 ← lift (list_getitem concert_temp 0);
      mret (Response 200 (Json_record c0) None)
  | _ => mret (error "Resource not found" 404)
  end.

Definition put_concerts : M response :=
  mret (error "Method Not Allowed" 405).

Definition put_concerts_id (identity : Z) (rq : request) : M response :=
  if is_json rq then
    match read_artist_venue_date rq with
    | Ok (artist, venue, dt) =>
        let c := concert identity artist venue dt in
        cs ← read_concerts;
        index ← lift (content_index cs "id" identity);
        match index with
        | Some (S _ as index) =>
            setitem index c;;
            mret (Response 204 Empty None)
        | _ =>
            advance_key identity;;
            append c;;
            mret (Response 201 Empty None)
        end
    | Raise KeyError => mret (error "Missing field(s)" 400)
    | Raise e => lift (Raise e)
    end
  else mret (error "Incorrect Content-Type or no JSON payload" 400).

Definition patch_concerts : M response :=
  mret (error "Method Not Allowed" 405).

(** One turn of [for key in ['artist', 'venue']] in [patch_concerts_id]. *)
Definition patch_key (index : nat) (rq : request) (key : string) : M unit :=
  present ← lift (in_request_json rq key);
  if present : bool then
    v ← lift (request_json rq key);
    setitem_field index key (VJson v)
  else mret ().

(** [if 'date' in request.json: ...] in [patch_concerts_id]. *)
Definition patch_date (index : nat) (rq : request) : M unit :=
  present ← lift (in_request_json rq "date");
  if present : bool then
    date ← lift (request_json rq "date");
    dt ← lift (datetime_fromisoformat date);
    setitem_field index "date" (VDate dt)
  else mret ().

Definition patch_concerts_id (identity : Z) (rq : request) : M response :=
  if is_json rq then
    cs ← read_concerts;
    index ← lift (content_index cs "id" identity);
    match index with
    | Some (S _ as index) =>
        for_each ["artist"; "venue"] (patch_key index rq);;
        patch_date index rq;;
        mret (Response 204 Empty None)
    | _ => mret (error "Resource not found" 404)
    end
  else mret (error "Incorrect Content-Type" 400).

Definition del_concerts : M response :=
  mret (error "Method Not Allowed" 405).

Definition del_concerts_id (identity : Z) : M response :=
  cs ← read_concerts;
  index ← lift (content_index cs "id" identity);
  match index with
  | Some (S _ as index) =>
      c ← lift (list_getitem cs index);
      let concert_temp := [c] in
      concert_temp ← lift (encode_date concert_temp "date");
      delitem index;;
      c0 ← lift (list_getitem concert_temp 0);
      mret (Response 200 (Json_record c0) None)
  | _ => mret (error "Resource not found" 404)
  end.

(** ** Routing and the server *)

Inductive verb : Type := POST | GET | PUT | PATCH | DELETE.

(** [/concerts] and [/concerts/<int:identity>] *)
Inductive route : Type :=
| Concerts
| Concerts_id (identity : Z).

(** The view function of a call. [Concerts_id identity] is a path whose
    id the rule passes on ([path_id]); the properties of a call on such a
    path are stated for these ids. *)
Definition handle (v : verb) (rt : route) (rq : request) : M response :=
  match v, rt with
  | POST, Concerts => post_concerts rq
  | POST, Concerts_id i => post_concerts_id i
  | GET, Concerts => get_concerts rq
  | GET, Concerts_id i => get_concerts_id i rq
  | PUT, Concerts => put_concerts
  | PUT, Concerts_id i => put_concerts_id i rq
  | PATCH, Concerts => patch_concerts
  | PATCH, Concerts_id i => patch_concerts_id i rq
  | DELETE, Concerts => del_concerts
  | DELETE, Concerts_id i => del_concerts_id i
  end.

(** One HTTP call: verb, route, and what the handler reads from [request]. *)
Definition call : Type := verb * route * request.

Definition step (s : state) (c : call) : res response * state :=
  let '(v, rt, rq) := c in handle v rt rq s.

(** The server handles the calls one after the other; a handler that
    raises ends its own call only. *)
Fixpoint serve (s : state) (calls : list call) : list (res response) * state :=
  match calls with
  | [] => ([], s)
  | c :: calls' =>
      let '(r, s') := step s c in
      let '(rs, s'') := serve s' calls' in
      (r :: rs, s'')
  end.

(** The globals as the module sets them when it is loaded; [None] when
    [datetime.fromisoformat] rejects one of the two literals. *)
Definition initial : option state :=
  d1 ← fromisoformat "2017-07-20T20:00:00-02:00";
  d2 ← fromisoformat "2022-09-26T15:00:00-02:00";
  Some (State
    [concert 1 (JStr "Pink Floyd") (JStr "Werchter") d1;
     concert 2 (JStr "Kraftwerk") (JStr "Domaine National de St Cloud") d2]
    3).

(** The states the server can be in. *)
Definition reachable (s : state) : Prop :=
  ∃ s0 calls, initial = Some s0 ∧ s = (serve s0 calls).2.

(** A POST on [/concerts] whose JSON body is an object without [id]. *)
Definition without_id (c : call) : bool :=
  match c with
  | (POST, Concerts, rq) =>
      is_json rq &&
      match json_body rq with
      | Some (JObj m) => bool_decide (m !! "id" = None)
      | _ => false
      end
  | _ => false
  end.

(** The [location] header of a 201 answer. *)
Definition created (r : res response) : option string :=
  match r with
  | Ok resp => if bool_decide (status resp = 201) then location resp else None
  | Raise _ => None
  end.

(** The [location] headers the server returned for the ids it generated:
    those of the 201 answers to the POSTs without id, in order. *)
Definition generated (calls : list call) (rs : list (res response)) : list string :=
  omap (λ cr, if without_id cr.1 then created cr.2 else None) (zip calls rs).

(** [f'/concerts/{i}'] *)
Definition location_of (i : Z) : string := "/concerts/" +:+ pretty i.

(** An [int] that [str()], an f-string and the JSON encoder accept: Python
    refuses to write an [int] of more than 4300 digits. *)
Definition printable (n : Z) : Prop := - 10 ^ 4300 < n < 10 ^ 4300.

(** The ids that the rule [/concerts/<int:identity>] passes to a view
    function: the converter matches digits only, so no negative number, and
    [int()] reads no more than 4300 of them. For a path with another id the
    router answers, and no view function runs. *)
Definition path_id (k : Z) : Prop := 0 ≤ k ∧ printable k.

(** A JSON value without nesting, with an [int] that is [printable]:
    [deepcopy] and the JSON encoder take it whatever the recursion limit
    is. *)
Definition scalar (j : json) : Prop :=
  match j with
  | JNull | JBool _ | JFloat _ | JStr _ => True
  | JInt n => printable n
  | JArr _ | JObj _ => False
  end.


(** The id the client supplies: the path parameter of a PUT, or
    [int(request.json['id'])] of a POST on [/concerts]. *)
Definition client_id (c : call) : option Z :=
  match c with
  | (PUT, Concerts_id i, _) => Some i
  | (POST, Concerts, rq) =>
      match request_json rq "id" with
      | Ok j => match py_int j with Ok n => Some n | Raise _ => None end
      | Raise _ => None
      end
  | _ => None
  end.

(** The first id is 1, and an id found at two positions is 1. *)
Definition only_first_repeats (l : list (option value)) : Prop :=
  l !! 0%nat = Some (Some (VInt 1))
  ∧ ∀ i j v, i ≠ j → l !! i = Some v → l !! j = Some v → v = Some (VInt 1).

(** How a call changes the list of ids: not at all, by removing a
    position after the first, or by adding an id at the end that was not
    there unless it is the first. *)
Definition ids_step (l l' : list (option value)) : Prop :=
  l' = l
  ∨ (∃ n, l' = delete (S n) l)
  ∨ (∃ k, l' = (l ++ [Some (VInt k)])%list
          ∧ (Some (VInt k) ∈ l → l !! 0%nat = Some (Some (VInt k)))).

End Embedding.


(** ** The read path with object identity

    [limit_offset], [reduce_fields] and [encode_date] pass list and dict
    objects around: each of them may return the very list it was given, and
    [encode_date] assigns into dicts. Here lists and dicts are objects on a
    heap, a list holds references to its records, and an assignment updates
    the object that every reference to it sees. What a dict holds under a
    key is data that no code of the program updates in place, so a copy of
    a dict is a new object with the same map. *)

Module Heap.
Section Heap.
Context {py : PyLib}.

Local Abbreviation record := (gmap string value).

(** A reference to an object. *)
Definition loc : Type := positive.

Inductive object : Type :=
| Dict (d : record)
| List (l : list loc).

(** The objects, and the module's globals: [concerts] is a reference to
    the list of the store, [concerts_key] an [int]. *)
Record world : Type := World {
  heap : gmap loc object;
  concerts : loc;
  concerts_key : Z
}.

Local Abbreviation H := (ST world).

(** A new object. *)
Definition alloc (o : object) : H loc :=
  λ w, let c := fresh (dom (heap w)) in
       (Ok c, World (<[c := o]> (heap w)) (concerts w) (concerts_key w)).

Definition read_dict (c : loc) : H record :=
  λ w, match heap w !! c with
       | Some (Dict d) => (Ok d, w)
       | _ => (Raise TypeError, w)
       end.

Definition read_list (c : loc) : H (list loc) :=
  λ w, match heap w !! c with
       | Some (List l) => (Ok l, w)
       | _ => (Raise TypeError, w)
       end.

(** [d[key] = v] on the dict object at [c] *)
Definition dict_setitem (c : loc) (key : string) (v : value) : H unit :=
  λ w, match heap w !! c with
       | Some (Dict d) =>
           (Ok (), World (<[c := Dict (<[key := v]> d)]> (heap w))
                         (concerts w) (concerts_key w))
       | _ => (Raise TypeError, w)
       end.

(** The records a list object holds, read through its references. *)
Definition read_records (content_list : loc) : H (list record) :=
  l ← read_list content_list;
  map_each read_dict l.

(** [deepcopy] of the items of a list of records. [memo] maps the objects
    copied so far to their copies: an object met twice is copied once. *)
Fixpoint deepcopy_items (items : list loc) (memo : gmap loc loc)
  : H (list loc) :=
  match items with
  | [] => mret []
  | c :: rest =>
      match memo !! c with
      | Some c' =>
          cs ← deepcopy_items rest memo;
          mret (c' :: cs)
      | None =>
          d ← read_dict c;
          c' ← alloc (Dict d);
          cs ← deepcopy_items rest (<[c := c']> memo);
          mret (c' :: cs)
      end
  end.

(** [deepcopy(content_list)] *)
Definition deepcopy (content_list : loc) : H loc :=
  l ← read_list content_list;
  cs ← deepcopy_items l ∅;
  alloc (List cs).

Definition limit_offset (content_list : loc) (limit offset : Z) : H loc :=
  if bool_decide (limit ≠ 0) || bool_decide (offset ≠ 0)
  then
    l ← read_list content_list;
    alloc (List (py_slice l offset (offset + limit)))
  else mret content_list.

Definition reduce_fields (content_list : loc) (fields : option string) : H loc :=
  match fields with
  | Some s =>
      if bool_decide (s = "") then mret content_list
      else
        l ← read_list content_list;
        cs ← map_each (λ c, d ← read_dict c;
                            alloc (Dict (keep_fields (split_comma s) d))) l;
        alloc (List cs)
  | None => mret content_list
  end.

(** [content_list[index][field] = content_list[index][field].isoformat()] *)
Definition encode_item (content_list : loc) (index : nat) (field : string)
  : H unit :=
  l ← read_list content_list;
  c ← lift (list_getitem l index);
  d ← read_dict c;
  v ← lift (record_getitem d field);
  s ← lift (call_isoformat v);
  l ← read_list content_list;
  c ← lift (list_getitem l index);
  dict_setitem c field s.

(** [content_list and all(field in content_list[0] for field in fields)] *)
Definition first_has_all (content_list : loc) (fields : list string) : H bool :=
  l ← read_list content_list;
  match l with
  | c0 :: _ =>
      d0 ← read_dict c0;
      mret (forallb (λ field, bool_decide (is_Some (d0 !! field))) fields)
  | [] => mret false
  end.

Definition encode_date (content_list : loc) (fields : string) : H loc :=
  if bool_decide (fields = "") then lift (Raise AssertionError)
  else
    let fields := split_comma fields in
    convert ← first_has_all content_list fields;
    if convert : bool then
      content_list ← deepcopy content_list;
      l ← read_list content_list;
      for_each (seq 0 (length l)) (λ index,
        for_each fields (encode_item content_list index));;
      mret content_list
    else mret content_list.

(** [content_index] only reads: it is the function of the records. *)
Definition content_index (content_list : loc) (field : string) (value : Z)
  : H (option nat) :=
  rs ← read_records content_list;
  lift (content_index rs field value).

Definition get_concerts (rq : request) : H response :=
  limit ← lift (int_arg rq "limit");
  offset ← lift (int_arg rq "offset");
  let fields := args rq !! "fields" in
  concerts_temp ← (λ w, limit_offset (concerts w) limit offset w);
  concerts_temp ← reduce_fields concerts_temp fields;
  concerts_temp ← encode_date concerts_temp "date";
  rs ← read_records concerts_temp;
  mret (Response 200 (Json_list rs) None).

Definition get_concerts_id (identity : Z) (rq : request) : H response :=
  let fields := args rq !! "fields" in
  index ← (λ w, content_index (concerts w) "id" identity w);
  match index with
  | Some (S _ as index) =>
      l ← (λ w, read_list (concerts w) w);
      c ← lift (list_getitem l index);
      concert_temp ← alloc (List [c]);
      concert_temp ← reduce_fields concert_temp fields;
      concert_temp ← encode_date concert_temp "date";
      rs ← read_records concert_temp;
      c0 ← lift (list_getitem rs 0);
      mret (Response 200 (Json_record c0) None)
  | _ => mret (error "Resource not found" 404)
  end.

(** A GET call: the route and the request. *)
Definition get (c : route * request) : H response :=
  match c.1 with
  | Concerts => get_concerts c.2
  | Concerts_id i => get_concerts_id i c.2
  end.

(** The world after a sequence of GET calls. *)
Fixpoint serve_gets (w : world) (calls : list (route * request)) : world :=
  match calls with
  | [] => w
  | c :: calls' => serve_gets (get c w).2 calls'
  end.

(** The records of the store as [concerts] shows them. *)
Definition stored (w : world) : res (list record) :=
  (read_records (concerts w) w).1.

(** [w'] has every object of [w] unchanged, and the same globals. *)
Definition extends (w w' : world) : Prop :=
  heap w ⊆ heap w'
  ∧ concerts w' = concerts w
  ∧ concerts_key w' = concerts_key w.

(** The list object at [cl] holds only objects made after [w0]. *)
Definition copied (w0 : world) (cl : loc) (w : world) : Prop :=
  extends w0 w
  ∧ ∃ l, heap w !! cl = Some (List l) ∧ Forall (λ c, c ∉ dom (heap w0)) l.

End Heap.
End Heap.

(** ** Lists of records and list objects *)

Section Representation.
Context {py : PyLib}.
Local Abbreviation record := (gmap string value).

(** Each reference of [l] is to a dict that is the record next to it. *)
Definition dicts_at (w : Heap.world) (l : list Heap.loc) (rs : list record) : Prop :=
  Forall2 (λ c r, Heap.heap w !! c = Some (Heap.Dict r)) l rs.

(** The list object at [cl] holds the records [rs], each in an object of
    its own. *)
Definition holds (w : Heap.world) (cl : Heap.loc) (rs : list record) : Prop :=
  ∃ l, Heap.heap w !! cl = Some (Heap.List l) ∧ NoDup l ∧ dicts_at w l rs.

(** What a loop returns when the function that does the same returns [r]. *)
Definition void {A} (r : res A) : res unit :=
  match r with
  | Ok _ => Ok ()
  | Raise e => Raise e
  end.

(** The dict at [c] set to [d]. *)
Definition with_dict (w : Heap.world) (c : Heap.loc) (d : record) : Heap.world :=
  Heap.World (<[c := Heap.Dict d]> (Heap.heap w)) (Heap.concerts w)
    (Heap.concerts_key w).

End Representation.

(** ** What the store holds and what a GET shows *)

Section Views.
Context {py : PyLib}.
Local Abbreviation record := (gmap string value).

(** [r] is a record as the handlers build them: the four keys [id],
    [artist], [venue] and [date], an [int] under [id] and a [datetime]
    under [date]. *)
Definition is_concert (r : record) : Prop :=
  ∃ n artist venue dt, r = concert n artist venue dt.

(** What holds of the store between two calls. *)
Definition consistent (s : state) : Prop :=
  bounded 3 s ∧ only_first_repeats (ids s) ∧ Forall is_concert (concerts s).

(** [key] is among the fields a request selects; every key is when the
    request names none. *)
Definition selected (fields : option string) (key : string) : bool :=
  match fields with
  | Some s => bool_decide (s = "") || bool_decide (key ∈ split_comma s)
  | None => true
  end.

(** A record that a handler can copy and encode: it is as the handlers
    build them, its id is [printable], its artist and venue are [scalar]. *)
Definition plain (r : record) : Prop :=
  ∃ n artist venue dt,
    r = concert n artist venue dt
    ∧ printable n ∧ scalar artist ∧ scalar venue.

(** What [reduce_fields] keeps of one record. *)
Definition project (fields : option string) (r : record) : record :=
  match fields with
  | Some s => if bool_decide (s = "") then r else keep_fields (split_comma s) r
  | None => r
  end.

(** What a GET shows of a stored record: the selected fields, the date as
    ISO text. *)
Definition view (fields : option string) (r : record) : record :=
  render ["date"] (project fields r).

(** What the status of an answer tells about the change of the store. *)
Definition accounts (s : state) (resp : response) (s' : state) : Prop :=
  status resp ∈ [200; 201; 204; 400; 404; 405; 409]
  ∧ (status resp = 201 →
       ∃ n artist venue dt,
         concerts s' = (concerts s ++ [concert n artist venue dt])%list
         ∧ concerts_key s' = Z.max (concerts_key s) (n + 1))
  ∧ (status resp = 204 →
       length (concerts s') = length (concerts s)
       ∧ concerts s' !! 0%nat = concerts s !! 0%nat
       ∧ concerts_key s' = concerts_key s)
  ∧ (status resp = 200 →
       s' = s
       ∨ ∃ n r, concerts s !! S n = Some r
                ∧ s' = State (delete (S n) (concerts s)) (concerts_key s))
  ∧ (400 ≤ status resp → s' = s).

(** [s'] has as many records as [s], with the same ids, the same first
    record and the same counter. *)
Definition same_frame (s s' : state) : Prop :=
  concerts_key s' = concerts_key s
  ∧ length (concerts s') = length (concerts s)
  ∧ concerts s' !! 0%nat = concerts s !! 0%nat
  ∧ ids s' = ids s.


End Views.

(** ** Copies on the heap *)

Section Copy.
Context {py : PyLib}.

(** The list object at [cl] was made after [w0], and so were the objects
    it holds. *)
Definition fresh_copy (w0 : Heap.world) (cl : Heap.loc) (w : Heap.world) : Prop :=
  Heap.copied w0 cl w ∧ cl ∉ dom (Heap.heap w0).

End Copy.

(** ** Sample data

    The store as the module loads it under [sample_py], and a few calls. *)

Module Sample.

#[local] Existing Instance sample_py.

Definition first : gmap string value :=
  concert 1 (JStr "Pink Floyd") (JStr "Werchter") "2017-07-20T20:00:00-02:00".

Definition second : gmap string value :=
  concert 2 (JStr "Kraftwerk") (JStr "Domaine National de St Cloud")
    "2022-09-26T15:00:00-02:00".

Definition store : state := State [first; second] 3.

(** [{"artist": "Genesis", "venue": "Forest National", "date": date}] *)
Definition genesis (date : string) : gmap string json :=
  <["artist" := JStr "Genesis"]>
    (<["venue" := JStr "Forest National"]>
       (<["date" := JStr date]> ∅)).

Definition good_date : string := "2024-05-01T20:30:00+02:00".

(** A JSON body without an id and with a date that parses. *)
Definition complete : request := Request true (Some (JObj (genesis good_date))) ∅.

(** The same body with [id]. *)
Definition complete_with_id (i : Z) : request :=
  Request true (Some (JObj (<["id" := JInt i]> (genesis good_date)))) ∅.

(** A body whose date does not parse. *)
Definition bad_date : request :=
  Request true (Some (JObj (genesis "tomorrow"))) ∅.

(** A request without a body. *)
Definition no_body : request := Request false None ∅.

(** The store on the heap: the list at 1, its records at 2 and 3. *)
Definition world : Heap.world :=
  Heap.World
    (<[1%positive := Heap.List [2%positive; 3%positive]]>
       (<[2%positive := Heap.Dict first]>
          (<[3%positive := Heap.Dict second]> ∅)))
    1%positive 3.



(** Two POSTs without an id and, between them, a PUT on a new id. *)
Definition three_calls : list call :=
  [(POST, Concerts, complete); (PUT, Concerts_id 7, complete);
   (POST, Concerts, complete)].

End Sample.

(** * Properties *)

Section Properties.
Context {py : PyLib}.
Local Abbreviation record := (gmap string value).
Local Abbreviation M := (ST state).

(** *** Slices *)

Lemma py_slice_same {A} (l : list A) (i : Z) : py_slice l i i = [].
Proof. unfold py_slice. by rewrite Z.sub_diag. Qed.

Lemma py_slice_take_drop {A} (l : list A) (offset limit : Z) :
  0 ≤ offset → 0 ≤ limit →
  py_slice l offset (offset + limit)
  = take (Z.to_nat limit) (drop (Z.to_nat offset) l).
Proof.
  intros Ho Hl. unfold py_slice, slice_bound.
  rewrite !bool_decide_eq_false_2 by lia.
  set (len := Z.of_nat (length l)).
  destruct (decide (len ≤ offset)) as [Hge|Hlt].
  - rewrite (Z.min_r offset) by lia.
    rewrite !drop_ge by lia. by rewrite !take_nil.
  - rewrite (Z.min_l offset) by lia.
    destruct (decide (offset + limit ≤ len)) as [Hin|Hout].
    + rewrite Z.min_l by lia. f_equal. lia.
    + rewrite Z.min_r by lia.
      rewrite !take_ge; [done | |]; rewrite length_drop; lia.
Qed.

(** C8: [limit_offset] returns the slice [list[offset : offset+limit]]
    when [limit] or [offset] is not 0, for all integers (the slice alone
    clamps the bounds), and the list itself when both are 0. With [limit]
    0 and [offset] not 0 the slice is empty. For bounds that are not
    negative the slice is [limit] elements after the first [offset]. *)
Theorem limit_offset_is_slice {A} (l : list A) (limit offset : Z) :
  (limit ≠ 0 ∨ offset ≠ 0 →
     limit_offset l limit offset = py_slice l offset (offset + limit))
  ∧ (limit = 0 → offset = 0 → limit_offset l limit offset = l)
  ∧ (limit = 0 → offset ≠ 0 → limit_offset l limit offset = [])
  ∧ (0 ≤ offset → 0 ≤ limit → (limit ≠ 0 ∨ offset ≠ 0) →
       limit_offset l limit offset
       = take (Z.to_nat limit) (drop (Z.to_nat offset) l)).
Proof.
  assert (Hs : limit ≠ 0 ∨ offset ≠ 0 →
     limit_offset l limit offset = py_slice l offset (offset + limit)).
  { intros Hnz. unfold limit_offset.
    destruct (decide (limit = 0)) as [->|Hl].
    - destruct Hnz as [?|Ho]; [done|].
      by rewrite (bool_decide_eq_true_2 (offset ≠ 0)), orb_true_r.
    - by rewrite (bool_decide_eq_true_2 (limit ≠ 0)). }
  split_and!.
  - done.
  - intros -> ->. done.
  - intros -> Ho. rewrite Hs by auto. rewrite Z.add_0_r. apply py_slice_same.
  - intros Ho Hl Hnz. rewrite Hs by done. by apply py_slice_take_drop.
Qed.

(** *** Results *)

Lemma res_map_Ok {A B} (f : A → res B) (l : list A) (l' : list B) :
  res_map f l = Ok l' ↔ Forall2 (λ x y, f x = Ok y) l l'.
Proof.
  revert l'. induction l as [|x l IH]; intros l'; simpl.
  - split; [intros [= <-]; constructor | by inversion 1].
  - destruct (f x) as [y|e] eqn:Hx; simpl.
    + destruct (res_map f l) as [ys|e] eqn:Hl; simpl.
      * split.
        -- intros [= <-]. constructor; [done | by apply IH].
        -- inversion 1 as [|? y' ? ys' Hy Hys]; subst.
           apply IH in Hys. congruence.
      * split; [done|]. inversion 1 as [|? y' ? ys' Hy Hys]; subst.
        apply IH in Hys. congruence.
    + split; [done|]. inversion 1; congruence.
Qed.


(** *** [encode_date] *)

Lemma lookup_render (fields : list string) (r : record) (k : string) :
  render fields r !! k
  = (λ v, if bool_decide (k ∈ fields)
          then match v with VDate d => VStr (isoformat d) | _ => v end
          else v) <$> r !! k.
Proof. unfold render. rewrite map_lookup_imap. by destruct (r !! k). Qed.

Lemma encode_field_Ok (r r' : record) (field : string) :
  encode_field r field = Ok r'
  ↔ ∃ d, r !! field = Some (VDate d) ∧ r' = <[field := VStr (isoformat d)]> r.
Proof.
  unfold encode_field, record_getitem.
  destruct (r !! field) as [[j|d]|]; simpl.
  - split; [done | by intros (? & [=] & _)].
  - split; [intros [= <-]; eauto | by intros (? & [= <-] & ->)].
  - split; [done | by intros (? & [=] & _)].
Qed.


Lemma encode_fields_Ok (fields : list string) (r r' : record) :
  res_fold encode_field fields r = Ok r'
  ↔ NoDup fields
    ∧ Forall (λ field, ∃ d, r !! field = Some (VDate d)) fields
    ∧ r' = render fields r.
Proof.
  revert r. induction fields as [|f fields IH]; intros r; simpl.
  - split.
    + intros [= <-]. split_and!; [constructor | constructor |].
      apply map_eq; intros k. rewrite lookup_render.
      rewrite bool_decide_eq_false_2 by apply not_elem_of_nil. by destruct (r !! k).
    + intros (_ & _ & ->). f_equal.
      apply map_eq; intros k. rewrite lookup_render.
      rewrite bool_decide_eq_false_2 by apply not_elem_of_nil. by destruct (r !! k).
  - assert (Hr : ∀ d, r !! f = Some (VDate d) → f ∉ fields →
              render fields (<[f := VStr (isoformat d)]> r) = render (f :: fields) r).
    { intros d Hd Hnin. apply map_eq; intros k. rewrite !lookup_render.
      destruct (decide (k = f)) as [->|Hne].
      - rewrite lookup_insert_eq, Hd; simpl.
        rewrite bool_decide_eq_false_2 by done.
        by rewrite bool_decide_eq_true_2 by (by left).
      - rewrite lookup_insert_ne by done.
        destruct (r !! k); simpl; [|done].
        by rewrite (bool_decide_ext (k ∈ f :: fields) (k ∈ fields))
          by (rewrite elem_of_cons; split; [by intros [?|?] | by right]). }
    destruct (encode_field r f) as [r1|e] eqn:Hf; simpl.
    + apply encode_field_Ok in Hf as (d & Hd & ->).
      rewrite IH. split.
      * intros (Hnd & Hall & ->).
        assert (f ∉ fields) as Hnin.
        { intros Hin. rewrite Forall_forall in Hall.
          destruct (Hall f Hin) as (d' & Hd').
          by rewrite lookup_insert_eq in Hd'. }
        split_and!.
        -- by constructor.
        -- constructor; [eauto|].
           rewrite Forall_forall in Hall |- *. intros f' Hin.
           destruct (Hall f' Hin) as (d' & Hd').
           rewrite lookup_insert_ne in Hd' by (by intros ->). eauto.
        -- by apply Hr.
      * intros (Hnd & Hall & ->).
        apply NoDup_cons in Hnd as [Hnin Hnd].
        apply Forall_cons in Hall as [_ Hall].
        split_and!; [done | | by rewrite Hr].
        rewrite Forall_forall in Hall |- *. intros f' Hin.
        destruct (Hall f' Hin) as (d' & Hd').
        exists d'. rewrite lookup_insert_ne by (by intros ->). done.
    + split; [done|]. intros (_ & Hall & _).
      apply Forall_cons in Hall as [(d & Hd) _].
      unfold encode_field, record_getitem in Hf. by rewrite Hd in Hf.
Qed.



Lemma encode_date_cons (r0 : record) (rest : list record) (fields : string) :
  fields ≠ "" →
  encode_date (r0 :: rest) fields
  = if forallb (λ field, bool_decide (is_Some (r0 !! field))) (split_comma fields)
    then res_map (λ r, res_fold encode_field (split_comma fields) r) (r0 :: rest)
    else Ok (r0 :: rest).
Proof. intros Hne. unfold encode_date. by rewrite bool_decide_eq_false_2. Qed.



(** *** Lookup *)

Lemma content_index_from_Some (l : list record) (field : string) (k : Z)
    (n i : nat) :
  content_index_from l field k n = Ok (Some i) →
  ∃ j, i = (n + j)%nat ∧ first_match l field k j.
Proof.
  revert n. induction l as [|r l IH]; intros n; simpl; [done|].
  unfold record_getitem. destruct (r !! field) as [v|] eqn:Hv; simpl; [|done].
  destruct (eq_int v k) eqn:He.
  - intros [= <-]. exists 0%nat. split; [lia|]. split.
    + exists r, v. done.
    + intros j ?. lia.
  - intros Hi. apply IH in Hi as (j & -> & (r' & v' & ? & ? & ?) & Hbefore).
    exists (S j). split; [lia|]. split.
    + exists r', v'. done.
    + intros [|j'] ?.
      * exists r, v. done.
      * apply Hbefore. lia.
Qed.

Lemma content_index_Some (l : list record) (field : string) (k : Z) (i : nat) :
  content_index l field k = Ok (Some i) → first_match l field k i.
Proof.
  unfold content_index. destruct l as [|r0 l]; [done|].
  case_bool_decide; [|done].
  intros Hi. by apply content_index_from_Some in Hi as (j & -> & ?).
Qed.

Lemma first_match_tail (r : record) (l : list record) (field : string) (k : Z)
    (j : nat) :
  first_match (r :: l) field k (S j) → first_match l field k j.
Proof.
  intros [Hat Hbefore]. split; [done|].
  intros j' Hj'. apply (Hbefore (S j')). lia.
Qed.

Lemma content_index_from_first (l : list record) (field : string) (k : Z)
    (n j : nat) :
  first_match l field k j → content_index_from l field k n = Ok (Some (n + j)%nat).
Proof.
  revert n j. induction l as [|r l IH]; intros n j Hfirst.
  { by destruct Hfirst as [(? & ? & ? & _) _]. }
  simpl. unfold record_getitem. destruct j as [|j].
  - destruct Hfirst as [(r' & v & [= <-] & Hv & He) _].
    rewrite Hv. simpl. rewrite He. do 2 f_equal. lia.
  - destruct (proj2 Hfirst 0%nat) as (r' & v & [= <-] & Hv & He); [lia|].
    rewrite Hv. simpl. rewrite He.
    rewrite (IH (S n) j) by (by eapply first_match_tail). do 2 f_equal. lia.
Qed.

Lemma content_index_first (l : list record) (field : string) (k : Z) (i : nat) :
  content_index l field k = Ok (Some i) ↔ first_match l field k i.
Proof.
  split; [apply content_index_Some|].
  intros Hfirst. unfold content_index. destruct l as [|r0 l].
  { by destruct Hfirst as [(? & ? & ? & _) _]. }
  assert (is_Some (r0 !! field)) as Hhas.
  { destruct i as [|i].
    - destruct Hfirst as [(r' & v & [= <-] & Hv & _) _]. eauto.
    - destruct (proj2 Hfirst 0%nat) as (r' & v & [= <-] & Hv & _); [lia|]. eauto. }
  rewrite bool_decide_eq_true_2 by done.
  by apply (content_index_from_first _ _ _ 0%nat).
Qed.

Lemma content_index_head (r0 : record) (rest : list record) (field : string)
    (k : Z) (v : value) :
  r0 !! field = Some v → eq_int v k = true →
  content_index (r0 :: rest) field k = Ok (Some 0%nat).
Proof.
  intros Hv He. unfold content_index.
  rewrite bool_decide_eq_true_2 by eauto.
  simpl. unfold record_getitem. rewrite Hv. simpl. by rewrite He.
Qed.

(** *** Running a handler *)

Ltac run :=
  unfold mbind, ST_bind, mret, ST_ret, lift, read_concerts, read_key, write_key,
    append, advance_key; simpl.

(** *** Handlers when the lookup returns 0 *)

Section Index_zero.
Variables (s : state) (k : Z).
Hypothesis Hzero : content_index (concerts s) "id" k = Ok (Some 0%nat).

Lemma get_concerts_id_zero (rq : request) :
  get_concerts_id k rq s = (Ok not_found, s).
Proof. unfold get_concerts_id. run. by rewrite Hzero. Qed.

Lemma del_concerts_id_zero : del_concerts_id k s = (Ok not_found, s).
Proof. unfold del_concerts_id. run. by rewrite Hzero. Qed.

Lemma post_concerts_id_zero : post_concerts_id k s = (Ok not_found, s).
Proof. unfold post_concerts_id. run. by rewrite Hzero. Qed.

Lemma patch_concerts_id_zero (rq : request) :
  is_json rq = true → patch_concerts_id k rq s = (Ok not_found, s).
Proof. intros Hj. unfold patch_concerts_id. rewrite Hj. run. by rewrite Hzero. Qed.

Lemma put_concerts_id_zero (rq : request) (artist venue : json) (dt : datetime) :
  is_json rq = true →
  read_artist_venue_date rq = Ok (artist, venue, dt) →
  put_concerts_id k rq s
  = (Ok (Response 201 Empty None),
     State (concerts s ++ [concert k artist venue dt])
           (if bool_decide (k < concerts_key s) then concerts_key s else k + 1)).
Proof.
  intros Hj Hr. unfold put_concerts_id. rewrite Hj, Hr. run. by rewrite Hzero.
Qed.

Lemma post_concerts_zero (rq : request) (artist venue j : json) (dt : datetime) :
  is_json rq = true →
  read_artist_venue_date rq = Ok (artist, venue, dt) →
  request_json rq "id" = Ok j →
  py_int j = Ok k →
  post_concerts rq s
  = (Ok (Response 201 Empty (Some ("/concerts/" +:+ pretty k))),
     State (concerts s ++ [concert k artist venue dt])
           (if bool_decide (k < concerts_key s) then concerts_key s else k + 1)).
Proof.
  intros Hj Hr Hid Hk. unfold post_concerts. rewrite Hj, Hr.
  unfold try_except, post_read_id. run. rewrite Hid, Hk. simpl.
  by rewrite Hzero.
Qed.

End Index_zero.

(** C1: [content_index] returns the position of the first record whose
    id matches, and the handlers read a returned 0 as "not found". When
    the lookup returns 0 for an id: GET, DELETE, PATCH and POST on
    [/concerts/{id}] answer 404 and change nothing, PUT on [/concerts/{id}]
    answers 201 and appends a record, and POST on [/concerts] with that id
    answers 201 and appends a record. *)
Theorem index_zero_is_not_found (s : state) (k : Z) :
  (∀ i, content_index (concerts s) "id" k = Ok (Some i)
        ↔ first_match (concerts s) "id" k i)
  ∧ (content_index (concerts s) "id" k = Ok (Some 0%nat) →
     (∀ rq, get_concerts_id k rq s = (Ok not_found, s))
     ∧ del_concerts_id k s = (Ok not_found, s)
     ∧ post_concerts_id k s = (Ok not_found, s)
     ∧ (∀ rq, is_json rq = true →
          patch_concerts_id k rq s = (Ok not_found, s))
     ∧ (∀ rq artist venue dt,
          is_json rq = true →
          read_artist_venue_date rq = Ok (artist, venue, dt) →
          put_concerts_id k rq s
          = (Ok (Response 201 Empty None),
             State (concerts s ++ [concert k artist venue dt])
               (if bool_decide (k < concerts_key s)
                then concerts_key s else k + 1)))
     ∧ (∀ rq artist venue j dt,
          is_json rq = true →
          read_artist_venue_date rq = Ok (artist, venue, dt) →
          request_json rq "id" = Ok j →
          py_int j = Ok k →
          post_concerts rq s
          = (Ok (Response 201 Empty (Some ("/concerts/" +:+ pretty k))),
             State (concerts s ++ [concert k artist venue dt])
               (if bool_decide (k < concerts_key s)
                then concerts_key s else k + 1)))).
Proof.
  split; [intros i; apply content_index_first|].
  intros Hzero. split_and!.
  - intros rq. by apply get_concerts_id_zero.
  - by apply del_concerts_id_zero.
  - by apply post_concerts_id_zero.
  - intros rq. by apply patch_concerts_id_zero.
  - intros rq artist venue dt. by apply put_concerts_id_zero.
  - intros rq artist venue j dt. by apply post_concerts_zero.
Qed.

(** *** The first record of the initial store *)

Lemma initial_index_one (s0 : state) :
  initial = Some s0 → content_index (concerts s0) "id" 1 = Ok (Some 0%nat).
Proof.
  unfold initial. intros Hi.
  destruct (fromisoformat "2017-07-20T20:00:00-02:00") as [d1|]; [|done].
  destruct (fromisoformat "2022-09-26T15:00:00-02:00") as [d2|]; [|done].
  injection Hi as <-.
  by apply content_index_head with (v := VInt 1).
Qed.

Lemma initial_ids (s0 : state) :
  initial = Some s0 → ids s0 = [Some (VInt 1); Some (VInt 2)].
Proof.
  unfold initial. intros Hi.
  destruct (fromisoformat "2017-07-20T20:00:00-02:00") as [d1|]; [|done].
  destruct (fromisoformat "2022-09-26T15:00:00-02:00") as [d2|]; [|done].
  by injection Hi as <-.
Qed.

(** C2 fails on the code: ids do not stay pairwise distinct. From the
    initial store, a PUT on [/concerts/1] with a complete body leads to a
    reachable state with the ids 1, 2, 1. *)
Theorem put_first_id_twice (s0 : state) (rq : request) (artist venue : json)
    (dt : datetime) :
  initial = Some s0 →
  is_json rq = true →
  read_artist_venue_date rq = Ok (artist, venue, dt) →
  let s := (serve s0 [(PUT, Concerts_id 1, rq)]).2 in
  reachable s
  ∧ ids s = [Some (VInt 1); Some (VInt 2); Some (VInt 1)]
  ∧ ¬ NoDup (ids s).
Proof.
  intros Hi Hj Hr s.
  assert (Hids : ids s = [Some (VInt 1); Some (VInt 2); Some (VInt 1)]).
  { unfold s. simpl.
    rewrite (put_concerts_id_zero s0 1 (initial_index_one s0 Hi) rq artist venue dt)
      by done.
    simpl. unfold ids. simpl. rewrite fmap_app.
    fold (ids s0). by rewrite (initial_ids s0 Hi). }
  split_and!.
  - by exists s0, [(PUT, Concerts_id 1, rq)].
  - done.
  - rewrite Hids. intros Hnd. apply NoDup_cons in Hnd as [Hnin _].
    apply Hnin. right. left.
Qed.

(** C3 fails on the code when the record with the id is the first one:
    a POST on [/concerts] that carries this id is answered with 201, not
    with 400, and a record is appended. *)
Theorem post_first_id_accepted (s : state) (k : Z) (rq : request)
    (artist venue j : json) (dt : datetime) :
  content_index (concerts s) "id" k = Ok (Some 0%nat) →
  is_json rq = true →
  read_artist_venue_date rq = Ok (artist, venue, dt) →
  request_json rq "id" = Ok j →
  py_int j = Ok k →
  (post_concerts rq s).1
  = Ok (Response 201 Empty (Some ("/concerts/" +:+ pretty k)))
  ∧ concerts (post_concerts rq s).2
    = (concerts s ++ [concert k artist venue dt])%list.
Proof.
  intros Hzero Hj Hr Hid Hk.
  by rewrite (post_concerts_zero s k Hzero rq artist venue j dt).
Qed.

(** C4 fails on the code for a date that does not parse: [post_concerts]
    answers 400, but [put_concerts_id] lets the [ValueError] out, and
    [patch_concerts_id] lets it out after it has assigned the artist and
    the venue into the record. *)
Theorem bad_date_escapes (s : state) (k : Z) (rq : request)
    (m : gmap string json) (artist venue : json) (d : string) :
  is_json rq = true →
  json_body rq = Some (JObj m) →
  m !! "artist" = Some artist →
  m !! "venue" = Some venue →
  m !! "date" = Some (JStr d) →
  fromisoformat d = None →
  post_concerts rq s = (Ok (error "Wrong datetime format" 400), s)
  ∧ put_concerts_id k rq s = (Raise ValueError, s)
  ∧ ∀ index r,
      content_index (concerts s) "id" k = Ok (Some (S index)) →
      concerts s !! S index = Some r →
      patch_concerts_id k rq s
      = (Raise ValueError,
         State (<[S index := <["venue" := VJson venue]>
                               (<["artist" := VJson artist]> r)]> (concerts s))
               (concerts_key s)).
Proof.
  intros Hj Hbody Ha Hv Hd Hbad.
  assert (Hread : read_artist_venue_date rq = Raise ValueError).
  { unfold read_artist_venue_date, request_json. rewrite Hbody. simpl.
    rewrite Ha, Hv, Hd. simpl. by rewrite Hbad. }
  split_and!.
  - unfold post_concerts. by rewrite Hj, Hread.
  - unfold put_concerts_id. by rewrite Hj, Hread.
  - intros index r Hindex Hr. unfold patch_concerts_id. rewrite Hj. run.
    rewrite Hindex. simpl.
    unfold patch_key, patch_date, in_request_json, request_json, setitem_field.
    rewrite Hbody. run. rewrite Ha, Hv, Hd. simpl.
    rewrite Hr, Hbad. simpl.
    rewrite list_lookup_insert_eq by (by eapply lookup_lt_Some). simpl.
    by rewrite list_insert_insert_eq.
Qed.

(** C5 fails on the code when the record with the id is the first one:
    the PUT answers 201 instead of 204, leaves the first record as it was
    and appends a record. *)
Theorem put_first_id_creates (s : state) (k : Z) (rq : request)
    (artist venue : json) (dt : datetime) :
  content_index (concerts s) "id" k = Ok (Some 0%nat) →
  is_json rq = true →
  read_artist_venue_date rq = Ok (artist, venue, dt) →
  (put_concerts_id k rq s).1 = Ok (Response 201 Empty None)
  ∧ concerts (put_concerts_id k rq s).2 !! 0%nat = concerts s !! 0%nat
  ∧ length (concerts (put_concerts_id k rq s).2) = S (length (concerts s)).
Proof.
  intros Hzero Hj Hr.
  rewrite (put_concerts_id_zero s k Hzero rq artist venue dt) by done. simpl.
  split_and!; [done| |].
  - apply content_index_Some in Hzero as [(r & v & Hr0 & _) _].
    by rewrite lookup_app_l by (by eapply lookup_lt_Some).
  - rewrite length_app. simpl. lia.
Qed.

(** C6 fails on the code for the first record: in the initial store the
    record with id 1 is at position 0, DELETE on [/concerts/1] answers 404
    and removes nothing, and so does the GET. *)
Theorem delete_first_id_not_found (s0 : state) (rq : request) :
  initial = Some s0 →
  first_match (concerts s0) "id" 1 0
  ∧ step s0 (DELETE, Concerts_id 1, rq) = (Ok not_found, s0)
  ∧ step s0 (GET, Concerts_id 1, rq) = (Ok not_found, s0).
Proof.
  intros Hi. pose proof (initial_index_one s0 Hi) as Hzero. split_and!.
  - by apply content_index_Some.
  - by apply del_concerts_id_zero.
  - by apply get_concerts_id_zero.
Qed.


(** *** Pre- and postconditions of handlers *)

Lemma hoare_ret {S A} (P : S → Prop) (a : A) (Q : res A → S → Prop) :
  (∀ s, P s → Q (Ok a) s) → hoare P (mret a) Q.
Proof. intros HQ s HP. by apply HQ. Qed.

Lemma hoare_lift {S A} (P : S → Prop) (r : res A) (Q : res A → S → Prop) :
  (∀ s, P s → Q r s) → hoare P (lift r) Q.
Proof. intros HQ s HP. by apply HQ. Qed.

Lemma hoare_bind {S A B} (P : S → Prop) (m : ST S A) (k : A → ST S B)
    (R : A → S → Prop) (Q : res B → S → Prop) :
  hoare P m (λ r s, match r with Ok a => R a s | Raise e => Q (Raise e) s end) →
  (∀ a, hoare (R a) (k a) Q) →
  hoare P (m ≫= k) Q.
Proof.
  intros Hm Hk s HP. specialize (Hm s HP).
  unfold mbind, ST_bind. destruct (m s) as [[a|e] s']; simpl in *.
  - by apply Hk.
  - done.
Qed.

Lemma hoare_weaken {S A} (P P' : S → Prop) (m : ST S A)
    (Q Q' : res A → S → Prop) :
  hoare P' m Q' → (∀ s, P s → P' s) → (∀ r s, Q' r s → Q r s) → hoare P m Q.
Proof. intros Hm HP HQ s Hs. apply HQ, Hm, HP, Hs. Qed.

Lemma keeps_ret {S A} (I : S → Prop) (a : A) : keeps I (mret a).
Proof. by apply hoare_ret. Qed.

Lemma keeps_lift {S A} (I : S → Prop) (r : res A) : keeps I (lift r).
Proof. by apply hoare_lift. Qed.

Lemma keeps_bind {S A B} (I : S → Prop) (m : ST S A) (k : A → ST S B) :
  keeps I m → (∀ a, keeps I (k a)) → keeps I (m ≫= k).
Proof.
  intros Hm Hk. eapply hoare_bind with (R := λ _, I); [|done].
  intros s Hs. specialize (Hm s Hs). by destruct (m s) as [[a|e] s'].
Qed.

Lemma keeps_read_concerts (I : state → Prop) : keeps I read_concerts.
Proof. by intros s Hs. Qed.

Lemma keeps_for_each {S A} (I : S → Prop) (l : list A) (f : A → ST S unit) :
  Forall (λ x, keeps I (f x)) l → keeps I (for_each l f).
Proof.
  induction 1 as [|x l Hx _ IH]; simpl.
  - apply keeps_ret.
  - by apply keeps_bind.
Qed.

(** *** The counter bounds the ids of the store *)

Lemma below_mono (key key' : Z) (r : record) :
  key ≤ key' → below key r → below key' r.
Proof. intros Hle (n & ? & ?). exists n. split; [done | lia]. Qed.

Lemma below_concert (key n : Z) (artist venue : json) (dt : datetime) :
  n < key → below key (concert n artist venue dt).
Proof. intros Hn. exists n. split; [|done]. unfold concert. by rewrite lookup_insert_eq. Qed.

Lemma bounded_append (k0 n key' : Z) (artist venue : json) (dt : datetime)
    (s : state) :
  bounded k0 s → concerts_key s ≤ key' → n < key' →
  bounded k0 (State (concerts s ++ [concert n artist venue dt]) key').
Proof.
  intros [Hall Hk] Hle Hn. split; simpl; [|lia].
  apply Forall_app. split.
  - eapply Forall_impl; [exact Hall|]. intros r. by apply below_mono.
  - constructor; [|constructor]. by apply below_concert.
Qed.

Lemma keeps_setitem_field (k0 : Z) (index : nat) (key : string) (v : value) :
  key ≠ "id" → keeps (bounded k0) (setitem_field index key v).
Proof.
  intros Hne s [Hall Hk]. unfold setitem_field.
  destruct (concerts s !! index) as [r|] eqn:Hr; simpl; [|done].
  split; simpl; [|done].
  apply Forall_insert; [done|].
  rewrite Forall_lookup in Hall. destruct (Hall _ _ Hr) as (n & Hn & ?).
  exists n. split; [|done]. by rewrite lookup_insert_ne.
Qed.

Lemma keeps_delitem (k0 : Z) (index : nat) : keeps (bounded k0) (delitem index).
Proof.
  intros s [Hall Hk]. unfold delitem.
  destruct (concerts s !! index) as [r|] eqn:Hr; simpl; [|done].
  split; simpl; [|done].
  by apply Forall_delete.
Qed.

(** A record the lookup finds under [k] has the id [k]. *)
Lemma found_below (s : state) (k0 k : Z) (index : nat) :
  bounded k0 s →
  content_index (concerts s) "id" k = Ok (Some index) →
  k < concerts_key s.
Proof.
  intros [Hall _] Hi.
  apply content_index_Some in Hi as [(r & v & Hr & Hv & He) _].
  rewrite Forall_lookup in Hall. destruct (Hall _ _ Hr) as (n & Hn & ?).
  rewrite Hn in Hv. injection Hv as <-. simpl in He.
  apply bool_decide_eq_true_1 in He. lia.
Qed.

Lemma keeps_setitem_found (k0 k : Z) (index : nat) (artist venue : json)
    (dt : datetime) (s : state) :
  bounded k0 s →
  content_index (concerts s) "id" k = Ok (Some index) →
  bounded k0 (setitem index (concert k artist venue dt) s).2.
Proof.
  intros Hb Hi. pose proof (found_below _ _ _ _ Hb Hi) as Hk.
  destruct Hb as [Hall Hk0]. unfold setitem.
  destruct (concerts s !! index) as [r|] eqn:Hr; simpl; [|done].
  split; simpl; [|done]. apply Forall_insert; [done|]. by apply below_concert.
Qed.


Lemma keeps_post_concerts (k0 : Z) (rq : request) :
  keeps (bounded k0) (post_concerts rq).
Proof.
  intros s Hb. unfold post_concerts.
  destruct (is_json rq); [|done].
  destruct (read_artist_venue_date rq) as [[[artist venue] dt]|e]; [|by destruct e].
  unfold try_except, post_read_id, post_new_id. run.
  destruct (request_json rq "id") as [j|e]; simpl.
  - destruct (py_int j) as [n|e]; simpl.
    + destruct (content_index (concerts s) "id" n) as [index|e]; simpl.
      * destruct (truthy index); simpl; [done|].
        apply bounded_append; [done | |]; case_bool_decide; lia.
      * case_decide; simpl; [|done]. apply bounded_append; [done | lia..].
    + case_decide; simpl; [|done]. apply bounded_append; [done | lia..].
  - case_decide; simpl; [|done]. apply bounded_append; [done | lia..].
Qed.

Lemma keeps_put_concerts_id (k0 i : Z) (rq : request) :
  keeps (bounded k0) (put_concerts_id i rq).
Proof.
  intros s Hb. unfold put_concerts_id.
  destruct (is_json rq); [|done].
  destruct (read_artist_venue_date rq) as [[[artist venue] dt]|e]; [|by destruct e].
  run.
  destruct (content_index (concerts s) "id" i) as [[[|n]|]|e] eqn:Hi; simpl;
    [| | |done].
  - apply bounded_append; [done | |]; case_bool_decide; lia.
  - pose proof (keeps_setitem_found k0 i (S n) artist venue dt s Hb Hi) as Hs.
    unfold setitem in *. by destruct (concerts s !! S n).
  - apply bounded_append; [done | |]; case_bool_decide; lia.
Qed.

(** PATCH assigns to [artist], [venue] and [date] only: it keeps what
    such assignments keep. *)
Section Patch_keeps.
Variable I : state → Prop.
Hypothesis HI : ∀ index key v, key ≠ "id" → keeps I (setitem_field index key v).

Lemma keeps_patch_key (index : nat) (rq : request) (key : string) :
  key ≠ "id" → keeps I (patch_key index rq key).
Proof.
  intros Hne. unfold patch_key.
  apply keeps_bind; [apply keeps_lift|]. intros [|]; [|apply keeps_ret].
  apply keeps_bind; [apply keeps_lift|]. intros v.
  by apply HI.
Qed.

Lemma keeps_patch_date (index : nat) (rq : request) :
  keeps I (patch_date index rq).
Proof.
  unfold patch_date.
  apply keeps_bind; [apply keeps_lift|]. intros [|]; [|apply keeps_ret].
  apply keeps_bind; [apply keeps_lift|]. intros date.
  apply keeps_bind; [apply keeps_lift|]. intros dt.
  by apply HI.
Qed.

Lemma keeps_patch_concerts_id (i : Z) (rq : request) :
  keeps I (patch_concerts_id i rq).
Proof.
  unfold patch_concerts_id. destruct (is_json rq); [|apply keeps_ret].
  apply keeps_bind; [apply keeps_read_concerts|]. intros cs.
  apply keeps_bind; [apply keeps_lift|]. intros [[|n]|]; try apply keeps_ret.
  apply keeps_bind.
  - apply keeps_for_each.
    repeat (constructor; [by apply keeps_patch_key|]). constructor.
  - intros _. apply keeps_bind; [apply keeps_patch_date|]. intros _. apply keeps_ret.
Qed.

End Patch_keeps.

Lemma keeps_del_concerts_id (k0 i : Z) : keeps (bounded k0) (del_concerts_id i).
Proof.
  unfold del_concerts_id.
  apply keeps_bind; [apply keeps_read_concerts|]. intros cs.
  apply keeps_bind; [apply keeps_lift|]. intros [[|n]|]; try apply keeps_ret.
  apply keeps_bind; [apply keeps_lift|]. intros c.
  apply keeps_bind; [apply keeps_lift|]. intros concert_temp.
  apply keeps_bind; [apply keeps_delitem|]. intros _.
  apply keeps_bind; [apply keeps_lift|]. intros c0. apply keeps_ret.
Qed.

(** Handlers that assign to no global and update no object. *)
Lemma get_concerts_state (rq : request) (s : state) : (get_concerts rq s).2 = s.
Proof.
  unfold get_concerts. run.
  destruct (int_arg rq "limit"); simpl; [|done].
  destruct (int_arg rq "offset"); simpl; [|done].
  by destruct (encode_date _ _).
Qed.

Lemma get_concerts_id_state (i : Z) (rq : request) (s : state) :
  (get_concerts_id i rq s).2 = s.
Proof.
  unfold get_concerts_id. run.
  destruct (content_index _ _ _) as [[[|n]|]|e]; simpl; try done.
  destruct (list_getitem _ _); simpl; [|done].
  destruct (encode_date _ _); simpl; [|done].
  by destruct (list_getitem _ _).
Qed.

Lemma post_concerts_id_state (i : Z) (s : state) : (post_concerts_id i s).2 = s.
Proof.
  unfold post_concerts_id. run.
  destruct (content_index _ _ _) as [index|e]; simpl; [|done].
  by destruct (truthy index).
Qed.

Lemma keeps_handle (k0 : Z) (v : verb) (rt : route) (rq : request) :
  keeps (bounded k0) (handle v rt rq).
Proof.
  destruct v, rt as [|i]; simpl; try apply keeps_ret.
  - apply keeps_post_concerts.
  - intros s Hs. by rewrite post_concerts_id_state.
  - intros s Hs. by rewrite get_concerts_state.
  - intros s Hs. by rewrite get_concerts_id_state.
  - apply keeps_put_concerts_id.
  - apply keeps_patch_concerts_id. apply keeps_setitem_field.
  - apply keeps_del_concerts_id.
Qed.

Lemma bounded_step (k0 : Z) (s : state) (c : call) :
  bounded k0 s → bounded k0 (step s c).2.
Proof. destruct c as [[v rt] rq]. apply keeps_handle. Qed.

Lemma bounded_serve (k0 : Z) (s : state) (calls : list call) :
  bounded k0 s → bounded k0 (serve s calls).2.
Proof.
  revert s. induction calls as [|c calls IH]; intros s Hb; simpl; [done|].
  pose proof (bounded_step k0 s c Hb) as Hc.
  destruct (step s c) as [r s']. specialize (IH s' Hc).
  by destruct (serve s' calls).
Qed.

Lemma bounded_initial (s0 : state) : initial = Some s0 → bounded 3 s0.
Proof.
  unfold initial. intros Hi.
  destruct (fromisoformat "2017-07-20T20:00:00-02:00") as [d1|]; [|done].
  destruct (fromisoformat "2022-09-26T15:00:00-02:00") as [d2|]; [|done].
  injection Hi as <-. split; simpl; [|lia].
  repeat constructor; by apply below_concert.
Qed.


(** *** Generated ids *)

Lemma post_without_id (rq : request) (s : state) :
  without_id (POST, Concerts, rq) = true →
  (created (post_concerts rq s).1 = Some (location_of (concerts_key s))
   ∧ concerts_key (post_concerts rq s).2 = concerts_key s + 1)
  ∨ (created (post_concerts rq s).1 = None ∧ (post_concerts rq s).2 = s).
Proof.
  unfold without_id. intros [Hj Hb]%andb_true_iff.
  destruct (json_body rq) as [[| | | | | |m]|] eqn:Hbody; try done.
  apply bool_decide_eq_true_1 in Hb.
  unfold post_concerts. rewrite Hj.
  destruct (read_artist_venue_date rq) as [[[artist venue] dt]|e].
  - left. unfold try_except, post_read_id, post_new_id, request_json.
    rewrite Hbody. simpl. rewrite Hb. run. done.
  - right. by destruct e.
Qed.

Lemma generated_cons (c : call) (calls : list call) (r : res response)
    (rs : list (res response)) :
  generated (c :: calls) (r :: rs)
  = match (if without_id c then created r else None) with
    | Some x => x :: generated calls rs
    | None => generated calls rs
    end.
Proof. done. Qed.

Lemma key_mono (k0 : Z) (s : state) (c : call) :
  bounded k0 s → concerts_key s ≤ concerts_key (step s c).2.
Proof.
  intros [Hall _].
  by destruct (bounded_step (concerts_key s) s c) as [_ ?].
Qed.

Lemma generated_sorted (k0 : Z) (calls : list call) (s : state) :
  bounded k0 s →
  ∃ ids, generated calls (serve s calls).1 = location_of <$> ids
         ∧ StronglySorted Z.lt ids
         ∧ Forall (λ i, concerts_key s ≤ i < concerts_key (serve s calls).2) ids.
Proof.
  revert s. induction calls as [|c calls IH]; intros s Hb; simpl.
  { exists []. repeat constructor. }
  pose proof (bounded_step k0 s c Hb) as Hb1.
  pose proof (key_mono k0 s c Hb) as Hmono.
  assert (Hgen : without_id c = true →
    (created (step s c).1 = Some (location_of (concerts_key s))
     ∧ concerts_key (step s c).2 = concerts_key s + 1)
    ∨ (created (step s c).1 = None)).
  { destruct c as [[[] []] rq]; try done. intros Hw. simpl.
    destruct (post_without_id rq s Hw) as [?|[? _]]; auto. }
  destruct (step s c) as [r s1]. simpl in *.
  destruct (IH s1 Hb1) as (ids & Hids & Hsorted & Hrange).
  assert (Hlater : concerts_key s1 ≤ concerts_key (serve s1 calls).2).
  { apply (bounded_serve (concerts_key s1) s1 calls). by destruct Hb1. }
  destruct (serve s1 calls) as [rs s2]. simpl in *.
  rewrite generated_cons.
  destruct (without_id c) eqn:Hw.
  - destruct Hgen as [[-> Hkey]| ->]; [done| |].
    + exists (concerts_key s :: ids). rewrite Hids. split_and!; [done| |].
      * constructor; [done|]. eapply Forall_impl; [exact Hrange|]. simpl. lia.
      * constructor; [lia|]. eapply Forall_impl; [exact Hrange|]. simpl. lia.
    + exists ids. split_and!; [done..|].
      eapply Forall_impl; [exact Hrange|]. simpl. lia.
  - exists ids. split_and!; [done..|].
    eapply Forall_impl; [exact Hrange|]. simpl. lia.
Qed.

Lemma content_index_from_total (l : list record) (field : string) (k : Z) (n : nat) :
  Forall (λ r, is_Some (r !! field)) l →
  ∃ o, content_index_from l field k n = Ok o.
Proof.
  intros Hall. revert n. induction Hall as [|r l [v Hv] _ IH]; intros n; simpl.
  - eauto.
  - unfold record_getitem. rewrite Hv. simpl. destruct (eq_int v k); eauto.
Qed.

Lemma content_index_total (l : list record) (field : string) (k : Z) :
  Forall (λ r, is_Some (r !! field)) l → ∃ o, content_index l field k = Ok o.
Proof.
  intros Hall. unfold content_index. destruct l as [|r0 l]; [eauto|].
  case_bool_decide; [|eauto]. by apply content_index_from_total.
Qed.

Lemma bounded_has_id (k0 : Z) (s : state) :
  bounded k0 s → Forall (λ r, is_Some (r !! "id")) (concerts s).
Proof.
  intros [Hall _]. eapply Forall_impl; [exact Hall|].
  intros r (n & -> & _). eauto.
Qed.

Lemma client_id_advances (k0 : Z) (s s' : state) (c : call) (n : Z)
    (resp : response) :
  bounded k0 s →
  client_id c = Some n →
  step s c = (Ok resp, s') →
  status resp = 201 →
  n < concerts_key s' ∧ (concerts_key s ≤ n → concerts_key s' = n + 1).
Proof.
  intros Hb Hc Hstep H201.
  destruct (content_index_total (concerts s) "id" n (bounded_has_id _ _ Hb))
    as [index Hindex].
  destruct c as [[[] [|i]] rq]; try done; simpl in *.
  - (* POST /concerts *)
    destruct (request_json rq "id") as [j|] eqn:Hj; [|done].
    destruct (py_int j) as [n'|] eqn:Hn; [|done]. injection Hc as ->.
    revert Hstep. unfold post_concerts.
    destruct (is_json rq); [|by intros [= <- <-]].
    destruct (read_artist_venue_date rq) as [[[artist venue] dt]|e];
      [|destruct e; by intros [= <- <-]].
    unfold try_except, post_read_id. run. rewrite Hj. simpl. rewrite Hn. simpl.
    rewrite Hindex. simpl.
    destruct (truthy index); simpl; intros [= <- <-]; [done|]. simpl.
    case_bool_decide; lia.
  - (* PUT /concerts/i *)
    injection Hc as ->. revert Hstep. unfold put_concerts_id.
    destruct (is_json rq); [|by intros [= <- <-]].
    destruct (read_artist_venue_date rq) as [[[artist venue] dt]|e];
      [|destruct e; by intros [= <- <-]].
    run. rewrite Hindex. simpl.
    destruct index as [[|m]|]; simpl.
    + intros [= <- <-]. simpl. case_bool_decide; lia.
    + unfold setitem. destruct (concerts s !! S m); simpl; by intros [= <- <-].
    + intros [= <- <-]. simpl. case_bool_decide; lia.
Qed.

(** *** Error responses leave the store as it was *)

(** A handler that answers with an error status has changed nothing. *)
Lemma error_response_state (s s' : state) (c : call) (resp : response) :
  step s c = (Ok resp, s') → 400 ≤ status resp → s' = s.
Proof.
  destruct c as [[v rt] rq]. unfold step, handle.
  destruct v, rt as [|i]; try (by intros [= <- <-]).
  - (* POST /concerts *)
    unfold post_concerts. destruct (is_json rq); [|by intros [= <- <-]].
    destruct (read_artist_venue_date rq) as [[[artist venue] dt]|e];
      [|destruct e; by intros [= <- <-]].
    unfold try_except, post_read_id, post_new_id. run.
    destruct (request_json rq "id") as [j|e]; simpl.
    + destruct (py_int j) as [n|e]; simpl.
      * destruct (content_index (concerts s) "id" n) as [index|e]; simpl.
        -- destruct (truthy index); simpl; intros [= <- <-]; [done|]. simpl. lia.
        -- case_decide; simpl; intros [= <- <-]. simpl. lia.
      * case_decide; simpl; intros [= <- <-]. simpl. lia.
    + case_decide; simpl; intros [= <- <-]. simpl. lia.
  - (* POST /concerts/i *)
    intros Hs _. by rewrite <- (post_concerts_id_state i s), Hs.
  - intros Hs _. by rewrite <- (get_concerts_state rq s), Hs.
  - intros Hs _. by rewrite <- (get_concerts_id_state i rq s), Hs.
  - (* PUT /concerts/i *)
    unfold put_concerts_id. destruct (is_json rq); [|by intros [= <- <-]].
    destruct (read_artist_venue_date rq) as [[[artist venue] dt]|e];
      [|destruct e; by intros [= <- <-]].
    run. destruct (content_index (concerts s) "id" i) as [[[|n]|]|e]; simpl;
      try (intros [= <- <-]; simpl; lia).
    unfold setitem. destruct (concerts s !! S n); simpl; intros [= <- <-]; simpl; lia.
  - (* PATCH /concerts/i *)
    unfold patch_concerts_id. destruct (is_json rq); [|by intros [= <- <-]].
    run. destruct (content_index (concerts s) "id" i) as [[[|n]|]|e]; simpl;
      try (by intros [= <- <-]).
    run.
    destruct (patch_key (S n) rq "artist" s) as [[[]|] s1]; simpl; [|done].
    destruct (patch_key (S n) rq "venue" s1) as [[[]|] s2]; simpl; [|done].
    destruct (patch_date (S n) rq s2) as [[[]|] s3]; simpl; [|done].
    intros [= <- <-]. simpl. lia.
  - (* DELETE /concerts/i *)
    unfold del_concerts_id.
    run. destruct (content_index (concerts s) "id" i) as [[[|n]|]|e]; simpl;
      try (by intros [= <- <-]).
    destruct (list_getitem _ _); simpl; [|done].
    destruct (encode_date _ _); simpl; [|done].
    unfold delitem. destruct (concerts s !! S n); simpl; [|done].
    destruct (list_getitem _ _); simpl; [|done].
    intros [= <- <-]. simpl. lia.
Qed.

Lemma encode_date_length (l l' : list record) (fields : string) :
  encode_date l fields = Ok l' → length l' = length l.
Proof.
  unfold encode_date. case_bool_decide; [done|].
  destruct l as [|r0 l]; [by intros [= <-]|].
  destruct (forallb _ _); [|by intros [= <-]].
  intros Hmap%res_map_Ok. symmetry. by eapply Forall2_length.
Qed.

(** An exception that leaves a handler other than PATCH has changed
    nothing. *)
Lemma exception_state (s s' : state) (v : verb) (rt : route) (rq : request)
    (e : exn) :
  step s (v, rt, rq) = (Raise e, s') → v ≠ PATCH → s' = s.
Proof.
  unfold step, handle.
  destruct v, rt as [|i]; try (by intros [= <- <-]); try done.
  - unfold post_concerts. destruct (is_json rq); [|by intros [=]].
    destruct (read_artist_venue_date rq) as [[[artist venue] dt]|e'];
      [|destruct e'; by intros [= <- <-]].
    unfold try_except, post_read_id, post_new_id. run.
    destruct (request_json rq "id") as [j|e']; simpl.
    + destruct (py_int j) as [n|e']; simpl.
      * destruct (content_index (concerts s) "id" n) as [index|e']; simpl.
        -- by destruct (truthy index).
        -- case_decide; simpl; by intros [= <- <-].
      * case_decide; simpl; by intros [= <- <-].
    + case_decide; simpl; by intros [= <- <-].
  - intros Hs _. by rewrite <- (post_concerts_id_state i s), Hs.
  - intros Hs _. by rewrite <- (get_concerts_state rq s), Hs.
  - intros Hs _. by rewrite <- (get_concerts_id_state i rq s), Hs.
  - unfold put_concerts_id. destruct (is_json rq); [|by intros [=]].
    destruct (read_artist_venue_date rq) as [[[artist venue] dt]|e'];
      [|destruct e'; by intros [= <- <-]].
    run. destruct (content_index (concerts s) "id" i) as [[[|n]|]|e']; simpl;
      try (by intros [= <- <-]).
    unfold setitem. destruct (concerts s !! S n); simpl; by intros [= <- <-].
  - unfold del_concerts_id.
    run. destruct (content_index (concerts s) "id" i) as [[[|n]|]|e'] eqn:Hi; simpl;
      try (by intros [= <- <-]).
    destruct (list_getitem (concerts s) (S n)) as [c|] eqn:Hc; simpl;
      [|by intros [= <- <-]].
    destruct (encode_date [c] "date") as [l|] eqn:Hl; simpl; [|by intros [= <- <-]].
    unfold delitem. unfold list_getitem in Hc.
    destruct (concerts s !! S n); simpl; [|done].
    apply encode_date_length in Hl.
    destruct l as [|c0 l]; [done|]. by simpl.
Qed.

(** *** Handlers when the lookup returns a later position *)

Lemma encode_date_one (r : record) (d : datetime) :
  r !! "date" = Some (VDate d) →
  encode_date [r] "date" = Ok [<["date" := VStr (isoformat d)]> r].
Proof.
  intros Hd. unfold encode_date. simpl.
  rewrite bool_decide_eq_true_2 by eauto. simpl.
  unfold encode_field, record_getitem. by rewrite Hd.
Qed.

Lemma content_index_from_None (l : list record) (field : string) (k : Z) (n : nat) :
  content_index_from l field k n = Ok None
  ↔ Forall (λ r, ∃ v, r !! field = Some v ∧ eq_int v k = false) l.
Proof.
  revert n. induction l as [|r l IH]; intros n; simpl.
  { split; [constructor | done]. }
  unfold record_getitem. destruct (r !! field) as [v|] eqn:Hv; simpl.
  - destruct (eq_int v k) eqn:He.
    + split; [done|]. intros [(v' & Hv' & ?) _]%Forall_cons. congruence.
    + rewrite IH. split.
      * intros Hl. constructor; [eauto | done].
      * by intros [_ ?]%Forall_cons.
  - split; [done|]. intros [(v' & Hv' & _) _]%Forall_cons. congruence.
Qed.

Lemma content_index_absent (l : list record) (field : string) (k : Z) :
  Forall (λ r, ∃ v, r !! field = Some v ∧ eq_int v k = false) l →
  content_index l field k = Ok None.
Proof.
  intros Hall. unfold content_index. destruct l as [|r0 l]; [done|].
  case_bool_decide; [|done]. by apply content_index_from_None.
Qed.

Section Index_later.
Variables (s : state) (k : Z) (n : nat) (r : record).
Hypothesis Hlater : content_index (concerts s) "id" k = Ok (Some (S n)).
Hypothesis Hr : concerts s !! S n = Some r.

(** POST with the id of a later record is refused. *)
Lemma post_concerts_later (rq : request) (artist venue j : json) (dt : datetime) :
  is_json rq = true →
  read_artist_venue_date rq = Ok (artist, venue, dt) →
  request_json rq "id" = Ok j →
  py_int j = Ok k →
  post_concerts rq s = (Ok (error "Resource already exists" 400), s).
Proof.
  intros Hj Hread Hid Hk. unfold post_concerts. rewrite Hj, Hread.
  unfold try_except, post_read_id. run. rewrite Hid, Hk. simpl.
  by rewrite Hlater.
Qed.

(** PUT on the id of a later record replaces the record. *)
Lemma put_concerts_id_later (rq : request) (artist venue : json) (dt : datetime) :
  is_json rq = true →
  read_artist_venue_date rq = Ok (artist, venue, dt) →
  put_concerts_id k rq s
  = (Ok (Response 204 Empty None),
     State (<[S n := concert k artist venue dt]> (concerts s)) (concerts_key s)).
Proof.
  intros Hj Hread. unfold put_concerts_id. rewrite Hj, Hread. run.
  rewrite Hlater. simpl. unfold setitem. by rewrite Hr.
Qed.

(** DELETE on the id of a later record removes it and answers with it. *)
Lemma del_concerts_id_later (d : datetime) :
  r !! "date" = Some (VDate d) →
  del_concerts_id k s
  = (Ok (Response 200 (Json_record (<["date" := VStr (isoformat d)]> r)) None),
     State (delete (S n) (concerts s)) (concerts_key s)).
Proof.
  intros Hd. unfold del_concerts_id. run. rewrite Hlater. simpl.
  unfold list_getitem at 1. rewrite Hr. simpl.
  rewrite (encode_date_one r d Hd). simpl. unfold delitem. by rewrite Hr.
Qed.

(** GET on the id of a later record answers with it. *)
Lemma get_concerts_id_later (rq : request) (d : datetime) :
  args rq !! "fields" = None →
  r !! "date" = Some (VDate d) →
  get_concerts_id k rq s
  = (Ok (Response 200 (Json_record (<["date" := VStr (isoformat d)]> r)) None), s).
Proof.
  intros Hf Hd. unfold get_concerts_id. run. rewrite Hlater. simpl.
  unfold list_getitem at 1. rewrite Hr. simpl. rewrite Hf. simpl.
  by rewrite (encode_date_one r d Hd).
Qed.

(** After the DELETE, a GET on the id answers 404 when no other record
    has the id. *)
Lemma get_after_del_concerts_id (rq : request) :
  Forall (λ r', is_Some (r' !! "id")) (concerts s) →
  (∀ j r' v, j ≠ S n → concerts s !! j = Some r' → r' !! "id" = Some v →
             eq_int v k = false) →
  get_concerts_id k rq (State (delete (S n) (concerts s)) (concerts_key s))
  = (Ok not_found, State (delete (S n) (concerts s)) (concerts_key s)).
Proof.
  intros Hids Hother. unfold get_concerts_id. run.
  rewrite content_index_absent; [done|].
  apply Forall_lookup. intros j r' Hj.
  rewrite Forall_lookup in Hids.
  destruct (decide (j < S n)%nat).
  - rewrite list_lookup_delete_lt in Hj by done.
    destruct (Hids _ _ Hj) as [v Hv]. exists v. split; [done|].
    eapply (Hother j); [lia | done..].
  - rewrite list_lookup_delete_ge in Hj by lia.
    destruct (Hids _ _ Hj) as [v Hv]. exists v. split; [done|].
    eapply (Hother (S j)); [lia | done..].
Qed.

End Index_later.

(** *** PUT on an id that no record has *)

Lemma put_concerts_id_absent (s : state) (k : Z) (rq : request)
    (artist venue : json) (dt : datetime) :
  content_index (concerts s) "id" k = Ok None →
  is_json rq = true →
  read_artist_venue_date rq = Ok (artist, venue, dt) →
  put_concerts_id k rq s
  = (Ok (Response 201 Empty None),
     State (concerts s ++ [concert k artist venue dt])
           (if bool_decide (k < concerts_key s) then concerts_key s else k + 1)).
Proof.
  intros Hnone Hj Hread. unfold put_concerts_id. rewrite Hj, Hread. run.
  by rewrite Hnone.
Qed.

(** The GET that follows finds the new record, in a store that was not
    empty and whose records all have an id. *)
Lemma get_after_put_concerts_id_absent (s : state) (k key' : Z) (rq : request)
    (artist venue : json) (dt : datetime) :
  content_index (concerts s) "id" k = Ok None →
  concerts s ≠ [] →
  Forall (λ r, is_Some (r !! "id")) (concerts s) →
  args rq !! "fields" = None →
  (get_concerts_id k rq
     (State (concerts s ++ [concert k artist venue dt]) key')).1
  = Ok (Response 200
          (Json_record (<["date" := VStr (isoformat dt)]>
                          (concert k artist venue dt))) None).
Proof.
  intros Hnone Hne Hids Hf.
  assert (Hno : Forall (λ r, ∃ v, r !! "id" = Some v ∧ eq_int v k = false)
                  (concerts s)).
  { unfold content_index in Hnone. destruct (concerts s) as [|r0 l]; [done|].
    rewrite bool_decide_eq_true_2 in Hnone by (by apply Forall_cons in Hids as [? _]).
    by apply content_index_from_None in Hnone. }
  destruct (concerts s) as [|r0 l] eqn:Hl; [done|].
  set (c := concert k artist venue dt).
  assert (Hindex : content_index ((r0 :: l) ++ [c]) "id" k
                   = Ok (Some (length (r0 :: l)))).
  { apply content_index_first. split.
    - exists c, (VInt k). split_and!.
      + by apply list_lookup_middle.
      + unfold c, concert. apply lookup_insert_eq.
      + simpl. by apply bool_decide_eq_true_2.
    - intros j Hj. rewrite Forall_lookup in Hno.
      destruct (lookup_lt_is_Some_2 (r0 :: l) j Hj) as [r' Hr'].
      destruct (Hno _ _ Hr') as (v & Hv & He).
      exists r', v. split_and!; [|done..]. by rewrite lookup_app_l. }
  assert (Hlast : ((r0 :: l) ++ [c])%list !! length (r0 :: l) = Some c)
    by (by apply list_lookup_middle).
  assert (Hd : c !! "date" = Some (VDate dt)).
  { unfold c, concert. rewrite !lookup_insert_ne by done. apply lookup_insert_eq. }
  simpl length in *.
  by rewrite (get_concerts_id_later (State ((r0 :: l) ++ [c]) key') k (length l) c
                Hindex Hlast rq dt Hf Hd).
Qed.

(** *** Which ids can repeat *)

Lemma ids_append (l : list record) (key k : Z) (artist venue : json) (dt : datetime) :
  ids (State (l ++ [concert k artist venue dt]) key)
  = (ids (State l key) ++ [Some (VInt k)])%list.
Proof. unfold ids. simpl. by rewrite fmap_app. Qed.

Lemma found_has_id (k0 k : Z) (s : state) (index : nat) :
  bounded k0 s →
  content_index (concerts s) "id" k = Ok (Some index) →
  ids s !! index = Some (Some (VInt k)).
Proof.
  intros [Hall _] Hi.
  apply content_index_Some in Hi as [(r & v & Hr & Hv & He) _].
  rewrite Forall_lookup in Hall. destruct (Hall _ _ Hr) as (m & Hm & _).
  rewrite Hm in Hv. injection Hv as <-. simpl in He.
  apply bool_decide_eq_true_1 in He as ->.
  unfold ids. by rewrite list_lookup_fmap, Hr; simpl; rewrite Hm.
Qed.

Lemma absent_has_no_id (k0 k : Z) (s : state) :
  bounded k0 s →
  content_index (concerts s) "id" k = Ok None →
  Some (VInt k) ∉ ids s.
Proof.
  intros Hb Hnone Hin.
  apply list_elem_of_fmap in Hin as (r & Hid & Hr).
  pose proof (bounded_has_id _ _ Hb) as Hids.
  unfold content_index in Hnone. destruct (concerts s) as [|r0 l]; [by inversion Hr|].
  rewrite bool_decide_eq_true_2 in Hnone by (by apply Forall_cons in Hids as [? _]).
  apply content_index_from_None in Hnone.
  rewrite Forall_forall in Hnone. destruct (Hnone r Hr) as (v & Hv & He).
  rewrite Hv in Hid. injection Hid as <-. simpl in He.
  by apply bool_decide_eq_false_1 in He.
Qed.

Lemma new_key_has_no_id (k0 : Z) (s : state) :
  bounded k0 s → Some (VInt (concerts_key s)) ∉ ids s.
Proof.
  intros [Hall _] Hin.
  apply list_elem_of_fmap in Hin as (r & Hid & Hr).
  rewrite Forall_forall in Hall. destruct (Hall r Hr) as (m & Hm & Hlt).
  rewrite Hm in Hid. injection Hid as <-. lia.
Qed.

(** An id is added when the lookup returned 0 or nothing. *)
Lemma ids_step_append (k0 k key' : Z) (s : state) (index : option nat)
    (artist venue : json) (dt : datetime) :
  bounded k0 s →
  content_index (concerts s) "id" k = Ok index →
  truthy index = false →
  ids_step (ids s) (ids (State (concerts s ++ [concert k artist venue dt]) key')).
Proof.
  intros Hb Hi Hfalse. right. right. exists k.
  split; [by rewrite ids_append|].
  destruct index as [[|n]|]; [|done|].
  - intros _. by eapply found_has_id.
  - intros Hin. by destruct (absent_has_no_id k0 k s Hb Hi).
Qed.

Lemma ids_step_new (k0 key' : Z) (s : state) (artist venue : json) (dt : datetime) :
  bounded k0 s →
  ids_step (ids s)
    (ids (State (concerts s ++ [concert (concerts_key s) artist venue dt]) key')).
Proof.
  intros Hb. right. right. exists (concerts_key s).
  split; [by rewrite ids_append|].
  intros Hin. by destruct (new_key_has_no_id k0 s Hb).
Qed.

Lemma ids_setitem_field (index : nat) (key : string) (v : value) (s : state) :
  key ≠ "id" → ids (setitem_field index key v s).2 = ids s.
Proof.
  intros Hne. unfold setitem_field.
  destruct (concerts s !! index) as [r|] eqn:Hr; simpl; [|done].
  unfold ids. simpl. rewrite list_fmap_insert.
  rewrite lookup_insert_ne by done.
  apply list_insert_id. by rewrite list_lookup_fmap, Hr.
Qed.

Lemma ids_step_post_concerts (k0 : Z) (rq : request) (s : state) :
  bounded k0 s → ids_step (ids s) (ids (post_concerts rq s).2).
Proof.
  intros Hb. unfold post_concerts.
  destruct (is_json rq); [|by left].
  destruct (read_artist_venue_date rq) as [[[artist venue] dt]|e];
    [|destruct e; by left].
  unfold try_except, post_read_id, post_new_id. run.
  destruct (request_json rq "id") as [j|e]; simpl.
  - destruct (py_int j) as [n|e]; simpl.
    + destruct (content_index (concerts s) "id" n) as [index|e] eqn:Hi; simpl.
      * destruct (truthy index) eqn:Ht; simpl; [by left|].
        by eapply (ids_step_append k0 n _ s index).
      * case_decide; simpl; [|by left]. by eapply (ids_step_new k0).
    + case_decide; simpl; [|by left]. by eapply (ids_step_new k0).
  - case_decide; simpl; [|by left]. by eapply (ids_step_new k0).
Qed.

Lemma ids_step_put_concerts_id (k0 i : Z) (rq : request) (s : state) :
  bounded k0 s → ids_step (ids s) (ids (put_concerts_id i rq s).2).
Proof.
  intros Hb. unfold put_concerts_id.
  destruct (is_json rq); [|by left].
  destruct (read_artist_venue_date rq) as [[[artist venue] dt]|e];
    [|destruct e; by left].
  run.
  destruct (content_index (concerts s) "id" i) as [[[|n]|]|e] eqn:Hi; simpl;
    [| | |by left].
  - by eapply (ids_step_append k0 i _ s (Some 0%nat)).
  - left. unfold setitem.
    destruct (concerts s !! S n) as [r|] eqn:Hr; simpl; [|done].
    unfold ids at 1. simpl. rewrite list_fmap_insert.
    apply list_insert_id. fold (ids s). unfold concert.
    rewrite lookup_insert_eq. by eapply found_has_id.
  - by eapply (ids_step_append k0 i _ s None).
Qed.

Lemma ids_step_patch_concerts_id (i : Z) (rq : request) (s : state) :
  ids_step (ids s) (ids (patch_concerts_id i rq s).2).
Proof.
  left.
  apply (keeps_patch_concerts_id (λ s', ids s' = ids s)); [|done].
  intros index key v Hne s' Hs'. by rewrite ids_setitem_field.
Qed.

Lemma ids_step_del_concerts_id (i : Z) (s : state) :
  ids_step (ids s) (ids (del_concerts_id i s).2).
Proof.
  unfold del_concerts_id. run.
  destruct (content_index (concerts s) "id" i) as [[[|n]|]|e]; simpl; try by left.
  destruct (list_getitem _ _); simpl; [|by left].
  destruct (encode_date _ _); simpl; [|by left].
  unfold delitem. destruct (concerts s !! S n); simpl; [|by left].
  right. left. exists n.
  destruct (list_getitem _ _); simpl; unfold ids; simpl; by rewrite list_fmap_delete.
Qed.

Lemma ids_step_step (k0 : Z) (s : state) (c : call) :
  bounded k0 s → ids_step (ids s) (ids (step s c).2).
Proof.
  intros Hb. destruct c as [[v rt] rq]. unfold step, handle.
  destruct v, rt as [|i]; try by left.
  - by eapply ids_step_post_concerts.
  - left. by rewrite post_concerts_id_state.
  - left. by rewrite get_concerts_state.
  - left. by rewrite get_concerts_id_state.
  - by eapply ids_step_put_concerts_id.
  - apply ids_step_patch_concerts_id.
  - apply ids_step_del_concerts_id.
Qed.

Lemma only_first_repeats_step (l l' : list (option value)) :
  only_first_repeats l → ids_step l l' → only_first_repeats l'.
Proof.
  intros [Hfirst Hpairs] [->|[(n & ->)|(k & -> & Hk)]]; [done| |].
  - split.
    + by rewrite list_lookup_delete_lt by lia.
    + intros i j v Hij Hi Hj.
      rewrite list_lookup_delete in Hi, Hj.
      eapply Hpairs; [|exact Hi|exact Hj].
      repeat case_decide; lia.
  - assert (0 < length l)%nat as Hlen by (by eapply lookup_lt_Some).
    split; [by rewrite lookup_app_l|].
    assert (Hnew : ∀ i v, l !! i = Some v → v = Some (VInt k) → v = Some (VInt 1)).
    { intros i v Hi ->.
      rewrite Hk in Hfirst by (by eapply list_elem_of_lookup_2). congruence. }
    intros i j v Hij Hi Hj.
    apply lookup_snoc_Some in Hi as [[_ Hi]|[-> <-]];
      apply lookup_snoc_Some in Hj as [[Hjlen Hj]|[-> Hv]].
    + by eapply Hpairs.
    + by eapply Hnew.
    + by eapply (Hnew j).
    + done.
Qed.

Lemma only_first_repeats_serve (k0 : Z) (s : state) (calls : list call) :
  bounded k0 s → only_first_repeats (ids s) →
  only_first_repeats (ids (serve s calls).2).
Proof.
  revert s. induction calls as [|c calls IH]; intros s Hb Hs; simpl; [done|].
  pose proof (bounded_step k0 s c Hb) as Hb1.
  pose proof (only_first_repeats_step _ _ Hs (ids_step_step k0 s c Hb)) as Hs1.
  destruct (step s c) as [r s1]. specialize (IH s1 Hb1 Hs1).
  by destruct (serve s1 calls).
Qed.

(** In every state the server reaches, an id that two records have is
    the id 1 of the first record. *)
Lemma reachable_only_first_repeats (s : state) :
  reachable s → only_first_repeats (ids s).
Proof.
  intros (s0 & calls & Hi & ->).
  apply (only_first_repeats_serve 3); [by apply bounded_initial|].
  rewrite (initial_ids s0 Hi). split; [done|].
  intros [|[|i]] [|[|j]] v Hij; simpl; try done; congruence.
Qed.

(** *** The counter and the generated ids *)

Lemma printable_small (n : Z) : -4300 ≤ n ≤ 4300 → printable n.
Proof.
  intros Hn. unfold printable.
  pose proof (Z.pow_gt_lin_r 10 4300) as Hpow.
  set (M := 10 ^ 4300) in *. lia.
Qed.

(** A POST without id and with a body that reads: the record gets the
    counter as id, and the counter moves on by one. *)
Lemma post_concerts_new (s : state) (rq : request) (artist venue : json)
    (dt : datetime) :
  is_json rq = true →
  read_artist_venue_date rq = Ok (artist, venue, dt) →
  request_json rq "id" = Raise KeyError →
  post_concerts rq s
  = (Ok (Response 201 Empty (Some (location_of (concerts_key s)))),
     State (concerts s ++ [concert (concerts_key s) artist venue dt])
           (concerts_key s + 1)).
Proof.
  intros Hj Hb Hid. unfold post_concerts. rewrite Hj, Hb.
  unfold try_except, post_read_id, post_new_id. run. by rewrite Hid.
Qed.

Lemma without_id_reads (rq : request) :
  without_id (POST, Concerts, rq) = true →
  is_json rq = true ∧ request_json rq "id" = Raise KeyError.
Proof.
  unfold without_id, request_json. destruct (is_json rq); [|done].
  destruct (json_body rq) as [[]|]; try done. simpl.
  intros Hm. apply bool_decide_eq_true_1 in Hm. by rewrite Hm.
Qed.

Lemma serve_snoc (s0 : state) (calls : list call) (c : call) :
  serve s0 (calls ++ [c])
  = (((serve s0 calls).1 ++ [(step (serve s0 calls).2 c).1])%list,
     (step (serve s0 calls).2 c).2).
Proof.
  revert s0. induction calls as [|c' calls IH]; intros s0; simpl.
  - by destruct (step s0 c).
  - destruct (step s0 c') as [r s1]. rewrite (IH s1).
    by destruct (serve s1 calls).
Qed.

Lemma serve_length (s0 : state) (calls : list call) :
  length (serve s0 calls).1 = length calls.
Proof.
  revert s0. induction calls as [|c calls IH]; intros s0; simpl; [done|].
  destruct (step s0 c) as [r s1]. specialize (IH s1).
  destruct (serve s1 calls). simpl in *. by rewrite IH.
Qed.

Lemma generated_snoc (s0 : state) (calls : list call) (c : call) :
  generated (calls ++ [c]) (serve s0 (calls ++ [c])).1
  = (generated calls (serve s0 calls).1
     ++ generated [c] [(step (serve s0 calls).2 c).1])%list.
Proof.
  rewrite serve_snoc. simpl. unfold generated.
  rewrite zip_with_app by (by rewrite serve_length).
  by rewrite omap_app.
Qed.

(** C7: the counter and the ids. After any calls from the initial
    store: every id in the store is an [int] below the counter; the ids
    generated for the POSTs without id, read off the [location] headers of
    their 201 answers, are strictly increasing and below the counter; when
    the next call is accepted (201) with an id [n] supplied by the client,
    the counter is above [n] afterwards, and is [n + 1] when [n] was not
    below it; and when the next call is a POST without id whose body reads,
    it is answered 201 with the counter as generated id, which no record
    has, the record is added with this id, the counter moves on by one, and
    the id comes last in the generated ids. *)
Theorem counter_above_ids (s0 : state) (calls : list call) :
  initial = Some s0 →
  let rs := (serve s0 calls).1 in
  let s := (serve s0 calls).2 in
  Forall (below (concerts_key s)) (concerts s)
  ∧ (∃ ids, generated calls rs = location_of <$> ids
            ∧ StronglySorted Z.lt ids
            ∧ Forall (λ i, i < concerts_key s) ids)
  ∧ (∀ c n resp s',
       client_id c = Some n →
       step s c = (Ok resp, s') →
       status resp = 201 →
       n < concerts_key s' ∧ (concerts_key s ≤ n → concerts_key s' = n + 1))
  ∧ (∀ rq artist venue dt,
       without_id (POST, Concerts, rq) = true →
       read_artist_venue_date rq = Ok (artist, venue, dt) →
       printable (concerts_key s) →
       let k := concerts_key s in
       (Some (VInt k) ∉ ids s)
       ∧ step s (POST, Concerts, rq)
         = (Ok (Response 201 Empty (Some (location_of k))),
            State (concerts s ++ [concert k artist venue dt]) (k + 1))
       ∧ generated (calls ++ [(POST, Concerts, rq)])
           (serve s0 (calls ++ [(POST, Concerts, rq)])).1
         = (generated calls rs ++ [location_of k])%list).
Proof.
  intros Hi rs s. apply bounded_initial in Hi.
  pose proof (bounded_serve 3 s0 calls Hi) as Hb. fold s in Hb.
  split_and!.
  - apply Hb.
  - destruct (generated_sorted 3 calls s0 Hi) as (ids & ? & ? & Hrange).
    exists ids. split_and!; [done..|].
    eapply Forall_impl; [exact Hrange|]. simpl. fold s. lia.
  - intros c n resp s'. by apply client_id_advances with (k0 := 3).
  - intros rq artist venue dt Hw Hread _ k.
    destruct (without_id_reads rq Hw) as [Hj Hid].
    assert (Hstep : step s (POST, Concerts, rq)
                    = (Ok (Response 201 Empty (Some (location_of k))),
                       State (concerts s ++ [concert k artist venue dt]) (k + 1))).
    { by apply post_concerts_new. }
    split_and!; [by eapply new_key_has_no_id | done |].
    rewrite generated_snoc. fold rs s. rewrite Hstep. f_equal.
    rewrite generated_cons, Hw. done.
Qed.

End Properties.

(** ** The read path on the heap *)

Section Read_path.
Context {py : PyLib}.
Local Abbreviation record := (gmap string value).
Import Heap.

Lemma hoare_bind_post {S A B} (P : S → Prop) (m : ST S A) (k : A → ST S B)
    (R : A → S → Prop) (R' : B → S → Prop) (E : S → Prop) :
  hoare P m (post R E) →
  (∀ a, hoare (R a) (k a) (post R' E)) →
  hoare P (m ≫= k) (post R' E).
Proof.
  intros Hm Hk. eapply hoare_bind; [|exact Hk].
  intros s Hs. specialize (Hm s Hs). by destruct (m s) as [[a|e] s'].
Qed.

Lemma extends_refl (w : world) : extends w w.
Proof. by split. Qed.

Lemma extends_trans (w1 w2 w3 : world) :
  extends w1 w2 → extends w2 w3 → extends w1 w3.
Proof.
  intros (? & ? & ?) (? & ? & ?). split_and!; [|congruence..].
  by etrans.
Qed.

Lemma extends_alloc (w0 w : world) (o : object) :
  extends w0 w →
  extends w0 (alloc o w).2 ∧ fresh (dom (heap w)) ∉ dom (heap w0).
Proof.
  intros (Hsub & ? & ?).
  pose proof (is_fresh (dom (heap w))) as Hfresh.
  split; [split_and!; [|done..]|]; simpl.
  - etrans; [exact Hsub|]. apply insert_subseteq. by apply not_elem_of_dom.
  - intros Hin. apply Hfresh. by eapply subseteq_dom.
Qed.

Lemma keeps_alloc (w0 : world) (o : object) : keeps (extends w0) (alloc o).
Proof. intros w Hw. by apply extends_alloc. Qed.

Lemma keeps_read_dict (I : world → Prop) (c : loc) : keeps I (read_dict c).
Proof. intros w Hw. unfold read_dict. by destruct (heap w !! c) as [[]|]. Qed.

Lemma keeps_read_list (I : world → Prop) (c : loc) : keeps I (read_list c).
Proof. intros w Hw. unfold read_list. by destruct (heap w !! c) as [[]|]. Qed.

Lemma keeps_map_each {S A B} (I : S → Prop) (f : A → ST S B) (l : list A) :
  (∀ x, keeps I (f x)) → keeps I (map_each f l).
Proof.
  intros Hf. induction l as [|x l IH]; simpl.
  - apply keeps_ret.
  - apply keeps_bind; [apply Hf|]. intros y.
    apply keeps_bind; [apply IH|]. intros ys. apply keeps_ret.
Qed.

Lemma keeps_read_records (I : world → Prop) (cl : loc) : keeps I (read_records cl).
Proof.
  unfold read_records. apply keeps_bind; [apply keeps_read_list|]. intros l.
  apply keeps_map_each. intros c. apply keeps_read_dict.
Qed.

(** *** [deepcopy] returns new objects *)

Lemma deepcopy_items_new (w0 : world) (items : list loc) (memo : gmap loc loc) :
  (∀ c c', memo !! c = Some c' → c' ∉ dom (heap w0)) →
  hoare (extends w0) (deepcopy_items items memo)
    (post (λ cs w, extends w0 w ∧ Forall (λ c, c ∉ dom (heap w0)) cs)
          (extends w0)).
Proof.
  revert memo. induction items as [|c items IH]; intros memo Hmemo; simpl.
  { apply hoare_ret. intros w Hw. split; [done | constructor]. }
  destruct (memo !! c) as [c'|] eqn:Hc.
  - eapply hoare_bind_post; [by apply IH|]. intros cs.
    apply hoare_ret. intros w [Hw Hcs]. split; [done|].
    constructor; [by eapply Hmemo | done].
  - eapply hoare_bind_post with (R := λ _, extends w0).
    { intros w Hw. unfold read_dict. by destruct (heap w !! c) as [[]|]. }
    intros d.
    eapply hoare_bind_post
      with (R := λ c' w, extends w0 w ∧ c' ∉ dom (heap w0)).
    { intros w Hw. by apply extends_alloc. }
    intros c'. intros w [Hw Hc'].
    assert (Hmemo' : ∀ a a', <[c := c']> memo !! a = Some a' → a' ∉ dom (heap w0)).
    { intros a a'. destruct (decide (c = a)) as [->|Hne].
      - rewrite lookup_insert_eq. by intros [= <-].
      - rewrite lookup_insert_ne by done. apply Hmemo. }
    specialize (IH _ Hmemo' w Hw).
    unfold mbind, ST_bind.
    destruct (deepcopy_items items (<[c := c']> memo) w) as [[cs|e] w'];
      simpl in *; [|done].
    destruct IH as [? ?]. split; [done|]. by constructor.
Qed.

Lemma deepcopy_new (w0 : world) (cl : loc) :
  hoare (extends w0) (deepcopy cl) (post (copied w0) (extends w0)).
Proof.
  unfold deepcopy.
  eapply hoare_bind_post with (R := λ _, extends w0).
  { intros w Hw. unfold read_list. by destruct (heap w !! cl) as [[]|]. }
  intros l.
  eapply hoare_bind_post; [by apply deepcopy_items_new|]. intros cs.
  intros w [Hw Hcs]. simpl.
  destruct (extends_alloc w0 w (List cs) Hw) as [Hw' _].
  split; [done|]. exists cs. split; [|done]. simpl. apply lookup_insert_eq.
Qed.

(** *** [encode_date] assigns into the copies only *)

Lemma keeps_dict_setitem (w0 : world) (cl c : loc) (key : string) (v : value) :
  c ∉ dom (heap w0) → keeps (copied w0 cl) (dict_setitem c key v).
Proof.
  intros Hc w ((Hsub & ? & ?) & l & Hl & Hnew). unfold dict_setitem.
  destruct (heap w !! c) as [[d|l']|] eqn:Hd; simpl;
    [|by split; [split_and!|eauto]..].
  split; [split_and!; [|done..]|]; simpl.
  - apply insert_subseteq_r; [|done]. by apply not_elem_of_dom.
  - exists l. split; [|done]. rewrite lookup_insert_ne; [done|]. congruence.
Qed.

Lemma keeps_encode_item (w0 : world) (cl : loc) (index : nat) (field : string) :
  keeps (copied w0 cl) (encode_item cl index field).
Proof.
  intros w Hw. unfold encode_item, read_list. unfold mbind, ST_bind.
  destruct Hw as (Hext & l & Hl & Hnew). rewrite Hl. simpl.
  unfold lift, list_getitem.
  destruct (l !! index) as [c|] eqn:Hc; simpl; [|by split; eauto].
  unfold read_dict.
  destruct (heap w !! c) as [[d|?]|] eqn:Hd; simpl; [|by split; eauto..].
  destruct (record_getitem d field) as [v|]; simpl; [|by split; eauto].
  destruct (call_isoformat v) as [v'|]; simpl; [|by split; eauto].
  rewrite Hl. simpl. rewrite Hc. simpl.
  apply (keeps_dict_setitem w0 cl c field v').
  - rewrite Forall_lookup in Hnew. by eapply Hnew.
  - split; eauto.
Qed.

Lemma keeps_first_has_all (I : world → Prop) (cl : loc) (fields : list string) :
  keeps I (first_has_all cl fields).
Proof.
  unfold first_has_all. apply keeps_bind; [apply keeps_read_list|].
  intros [|c0 l]; [apply keeps_ret|].
  apply keeps_bind; [apply keeps_read_dict|]. intros d0. apply keeps_ret.
Qed.

Lemma keeps_encode_date (w0 : world) (cl : loc) (fields : string) :
  keeps (extends w0) (encode_date cl fields).
Proof.
  unfold encode_date. case_bool_decide; [apply keeps_lift|].
  apply keeps_bind; [apply keeps_first_has_all|]. intros [|]; [|apply keeps_ret].
  eapply hoare_bind; [apply deepcopy_new|]. intros cl'. simpl.
  eapply hoare_weaken with (Q' := λ _, copied w0 cl');
    [|done|by intros r w [? _]].
  apply keeps_bind; [apply keeps_read_list|]. intros l.
  apply keeps_bind; [|intros _; apply keeps_ret].
  apply keeps_for_each, Forall_forall. intros index _.
  apply keeps_for_each, Forall_forall. intros field _.
  apply keeps_encode_item.
Qed.

Lemma keeps_limit_offset (w0 : world) (cl : loc) (limit offset : Z) :
  keeps (extends w0) (limit_offset cl limit offset).
Proof.
  unfold limit_offset. destruct (_ || _); [|apply keeps_ret].
  apply keeps_bind; [apply keeps_read_list|]. intros l. apply keeps_alloc.
Qed.

Lemma keeps_reduce_fields (w0 : world) (cl : loc) (fields : option string) :
  keeps (extends w0) (reduce_fields cl fields).
Proof.
  unfold reduce_fields. destruct fields as [s|]; [|apply keeps_ret].
  case_bool_decide; [apply keeps_ret|].
  apply keeps_bind; [apply keeps_read_list|]. intros l.
  apply keeps_bind; [|intros cs; apply keeps_alloc].
  apply keeps_map_each. intros c.
  apply keeps_bind; [apply keeps_read_dict|]. intros d. apply keeps_alloc.
Qed.

Lemma keeps_content_index (I : world → Prop) (cl : loc) (field : string) (k : Z) :
  keeps I (Heap.content_index cl field k).
Proof.
  unfold Heap.content_index.
  apply keeps_bind; [apply keeps_read_records|]. intros rs. apply keeps_lift.
Qed.

Lemma keeps_get_concerts (w0 : world) (rq : request) :
  keeps (extends w0) (get_concerts rq).
Proof.
  unfold get_concerts.
  apply keeps_bind; [apply keeps_lift|]. intros limit.
  apply keeps_bind; [apply keeps_lift|]. intros offset.
  apply keeps_bind; [intros w Hw; by apply keeps_limit_offset|]. intros c1.
  apply keeps_bind; [apply keeps_reduce_fields|]. intros c2.
  apply keeps_bind; [apply keeps_encode_date|]. intros c3.
  apply keeps_bind; [apply keeps_read_records|]. intros rs. apply keeps_ret.
Qed.

Lemma keeps_get_concerts_id (w0 : world) (i : Z) (rq : request) :
  keeps (extends w0) (get_concerts_id i rq).
Proof.
  unfold get_concerts_id.
  apply keeps_bind; [intros w Hw; by apply keeps_content_index|].
  intros [[|n]|]; try apply keeps_ret.
  apply keeps_bind; [intros w Hw; by apply keeps_read_list|]. intros l.
  apply keeps_bind; [apply keeps_lift|]. intros c.
  apply keeps_bind; [apply keeps_alloc|]. intros c1.
  apply keeps_bind; [apply keeps_reduce_fields|]. intros c2.
  apply keeps_bind; [apply keeps_encode_date|]. intros c3.
  apply keeps_bind; [apply keeps_read_records|]. intros rs.
  apply keeps_bind; [apply keeps_lift|]. intros c0. apply keeps_ret.
Qed.

Lemma keeps_get (w0 : world) (c : route * request) : keeps (extends w0) (get c).
Proof.
  unfold get. destruct c.1; [apply keeps_get_concerts | apply keeps_get_concerts_id].
Qed.

Lemma extends_serve_gets (w : world) (calls : list (route * request)) :
  extends w (serve_gets w calls).
Proof.
  revert w. induction calls as [|c calls IH]; intros w; simpl.
  - apply extends_refl.
  - eapply extends_trans; [|apply IH]. apply keeps_get, extends_refl.
Qed.

(** What is read through unchanged objects is unchanged. *)
Lemma map_each_read_dict_extends (w w' : world) (l : list loc) (rs : list record) :
  heap w ⊆ heap w' →
  (map_each read_dict l w).1 = Ok rs →
  (map_each read_dict l w').1 = Ok rs.
Proof.
  intros Hsub. revert rs. induction l as [|c l IH]; intros rs; simpl; [done|].
  unfold mbind, ST_bind, read_dict at 1 3.
  destruct (heap w !! c) as [[d|?]|] eqn:Hc; simpl; [|done..].
  rewrite (lookup_weaken _ _ _ _ Hc Hsub). simpl.
  destruct (map_each read_dict l w) as [[ds|e] w1] eqn:Hl; simpl in *; [|done].
  intros [= <-]. specialize (IH ds eq_refl).
  by destruct (map_each read_dict l w') as [[ds'|e'] w1']; simpl in *; simplify_eq.
Qed.

Lemma stored_extends (w w' : world) (rs : list record) :
  extends w w' → stored w = Ok rs → stored w' = Ok rs.
Proof.
  intros (Hsub & Hc & _). unfold stored, read_records. rewrite Hc.
  unfold mbind, ST_bind, read_list.
  destruct (heap w !! concerts w) as [[?|l]|] eqn:Hl; simpl; [done| |done].
  rewrite (lookup_weaken _ _ _ _ Hl Hsub). simpl.
  intros Hrs. pose proof (map_each_read_dict_extends w w' l rs Hsub) as Hrs'.
  destruct (map_each read_dict l w) as [[ds|e] w1]; simpl in *; [|done].
  specialize (Hrs' Hrs).
  by destruct (map_each read_dict l w') as [[ds'|e'] w1']; simpl in *.
Qed.

End Read_path.

(** ** The read path on the heap returns what the functions return *)

Section Refinement.
Context {py : PyLib}.
Local Abbreviation record := (gmap string value).

Lemma dicts_at_extends (w w' : Heap.world) (l : list Heap.loc) (rs : list record) :
  Heap.heap w ⊆ Heap.heap w' → dicts_at w l rs → dicts_at w' l rs.
Proof.
  intros Hsub Hrs. eapply Forall2_impl; [exact Hrs|].
  intros c r Hc. simpl in *. exact (lookup_weaken _ _ _ _ Hc Hsub).
Qed.

Lemma map_each_read_dict (w : Heap.world) (l : list Heap.loc) (rs : list record) :
  dicts_at w l rs → map_each Heap.read_dict l w = (Ok rs, w).
Proof.
  induction 1 as [|c r l rs Hc _ IH]; simpl; [done|].
  unfold mbind, ST_bind, Heap.read_dict at 1. rewrite Hc. simpl. by rewrite IH.
Qed.

Lemma read_records_holds (w : Heap.world) (cl : Heap.loc) (rs : list record) :
  holds w cl rs → Heap.read_records cl w = (Ok rs, w).
Proof.
  intros (l & Hl & _ & Hrs). unfold Heap.read_records, Heap.read_list.
  unfold mbind, ST_bind. rewrite Hl. by apply map_each_read_dict.
Qed.

(** A new list object over records that are on the Heap.heap. *)
Lemma alloc_list_holds (w : Heap.world) (l : list Heap.loc) (rs : list record) :
  NoDup l → dicts_at w l rs →
  ∃ cl w', Heap.alloc (Heap.List l) w = (Ok cl, w') ∧ Heap.extends w w' ∧ holds w' cl rs.
Proof.
  intros Hnd Hrs. eexists _, _. split; [done|].
  destruct (extends_alloc w w (Heap.List l) (extends_refl w)) as [Hext _].
  split; [done|]. exists l. simpl. split_and!; [apply lookup_insert_eq | done |].
  eapply dicts_at_extends; [|done]. apply Hext.
Qed.

Lemma holds_extends (w w' : Heap.world) (cl : Heap.loc) (rs : list record) :
  Heap.extends w w' → holds w cl rs → holds w' cl rs.
Proof.
  intros (Hsub & _) (l & Hl & Hnd & Hrs). exists l. split_and!; [|done|].
  - exact (lookup_weaken _ _ _ _ Hl Hsub).
  - by eapply dicts_at_extends.
Qed.

(** *** [limit_offset] *)

Lemma py_slice_NoDup {A} (l : list A) (start stop : Z) :
  NoDup l → NoDup (py_slice l start stop).
Proof.
  intros Hnd. unfold py_slice.
  eapply sublist_NoDup; [exact Hnd|].
  etrans; [apply sublist_take | apply sublist_drop].
Qed.

Lemma py_slice_Forall2 {A B} (P : A → B → Prop) (l : list A) (k : list B)
    (start stop : Z) :
  Forall2 P l k → Forall2 P (py_slice l start stop) (py_slice k start stop).
Proof.
  intros Hlk. unfold py_slice. rewrite (Forall2_length _ _ _ Hlk).
  by apply Forall2_take, Forall2_drop.
Qed.

Lemma limit_offset_refines (w : Heap.world) (cl : Heap.loc) (rs : list record)
    (limit offset : Z) :
  holds w cl rs →
  ∃ cl' w', Heap.limit_offset cl limit offset w = (Ok cl', w')
            ∧ Heap.extends w w'
            ∧ holds w' cl' (limit_offset rs limit offset).
Proof.
  intros Hh. unfold Heap.limit_offset, limit_offset.
  destruct (_ || _).
  - destruct Hh as (l & Hl & Hnd & Hrs).
    unfold mbind, ST_bind, Heap.read_list. rewrite Hl.
    apply alloc_list_holds; [by apply py_slice_NoDup | by apply py_slice_Forall2].
  - exists cl, w. split_and!; [done | apply extends_refl | done].
Qed.

(** *** Copies *)

(** New dicts [g r], one for each record [r] of [l]. *)
Lemma map_each_alloc (g : record → record) (w : Heap.world) (l : list Heap.loc)
    (rs : list record) :
  dicts_at w l rs →
  ∃ cs w', map_each (λ c, d ← Heap.read_dict c; Heap.alloc (Heap.Dict (g d))) l w = (Ok cs, w')
           ∧ Heap.extends w w'
           ∧ NoDup cs
           ∧ Forall (λ c, c ∉ dom (Heap.heap w)) cs
           ∧ dicts_at w' cs (g <$> rs).
Proof.
  intros Hrs. revert w Hrs. revert rs.
  induction l as [|c l IH]; intros rs w Hrs.
  { inversion Hrs; subst. exists [], w.
    split_and!; [done | apply extends_refl | constructor | constructor | constructor]. }
  inversion Hrs as [|? r ? rs' Hc Hrs']; subst. simpl.
  unfold mbind at 1, ST_bind at 1. unfold mbind at 1, ST_bind at 1.
  unfold Heap.read_dict at 1. rewrite Hc.
  destruct (extends_alloc w w (Heap.Dict (g r)) (extends_refl w)) as [Hext Hfresh].
  set (c' := fresh (dom (Heap.heap w))) in *.
  set (w1 := (Heap.alloc (Heap.Dict (g r)) w).2) in *.
  assert (Halloc : Heap.alloc (Heap.Dict (g r)) w = (Ok c', w1)) by done.
  rewrite Halloc.
  destruct (IH rs' w1) as (cs & w' & Hmap & Hext' & Hnd & Hnew & Hcs).
  { eapply dicts_at_extends; [|done]. apply Hext. }
  exists (c' :: cs), w'.
  unfold mbind, ST_bind in Hmap |- *. rewrite Hmap.
  assert (Hc' : Heap.heap w1 !! c' = Some (Heap.Dict (g r))) by apply lookup_insert_eq.
  split_and!.
  - done.
  - by eapply extends_trans.
  - constructor; [|done]. intros Hin.
    rewrite Forall_forall in Hnew. apply (Hnew c' Hin).
    apply elem_of_dom. eauto.
  - constructor; [done|].
    eapply Forall_impl; [exact Hnew|]. intros a Ha Hin. apply Ha.
    eapply subseteq_dom; [apply Hext | done].
  - constructor; [|done]. exact (lookup_weaken _ _ _ _ Hc' (proj1 Hext')).
Qed.

Lemma reduce_fields_refines (w : Heap.world) (cl : Heap.loc) (rs : list record)
    (fields : option string) :
  holds w cl rs →
  ∃ cl' w', Heap.reduce_fields cl fields w = (Ok cl', w')
            ∧ Heap.extends w w'
            ∧ holds w' cl' (reduce_fields rs fields).
Proof.
  intros Hh. unfold Heap.reduce_fields, reduce_fields.
  destruct fields as [s|];
    [|exists cl, w; split_and!; [done | apply extends_refl | done]].
  case_bool_decide;
    [exists cl, w; split_and!; [done | apply extends_refl | done]|].
  destruct Hh as (l & Hl & Hnd & Hrs).
  unfold mbind at 1, ST_bind at 1, Heap.read_list. rewrite Hl.
  destruct (map_each_alloc (keep_fields (split_comma s)) w l rs Hrs)
    as (cs & w1 & Hmap & Hext & Hnd' & _ & Hcs).
  unfold mbind at 1, ST_bind at 1. rewrite Hmap.
  destruct (alloc_list_holds w1 cs _ Hnd' Hcs) as (cl' & w' & Halloc & Hext' & Hh').
  exists cl', w'. split_and!; [done | by eapply extends_trans | done].
Qed.

(** [deepcopy] of a list without shared records: the memo is never hit. *)
Lemma deepcopy_items_copy (w : Heap.world) (l : list Heap.loc) (rs : list record)
    (memo : gmap Heap.loc Heap.loc) :
  dicts_at w l rs → NoDup l → (∀ c, c ∈ l → memo !! c = None) →
  ∃ cs w', Heap.deepcopy_items l memo w = (Ok cs, w')
           ∧ Heap.extends w w'
           ∧ NoDup cs
           ∧ Forall (λ c, c ∉ dom (Heap.heap w)) cs
           ∧ dicts_at w' cs rs.
Proof.
  revert rs w memo. induction l as [|c l IH]; intros rs w memo Hrs Hnd Hmemo.
  { inversion Hrs; subst. exists [], w.
    split_and!; [done | apply extends_refl | constructor | constructor | constructor]. }
  inversion Hrs as [|? r ? rs' Hc Hrs']; subst. simpl.
  apply NoDup_cons in Hnd as [Hnin Hnd].
  rewrite (Hmemo c) by left.
  unfold mbind at 1, ST_bind at 1, Heap.read_dict at 1. rewrite Hc.
  destruct (extends_alloc w w (Heap.Dict r) (extends_refl w)) as [Hext Hfresh].
  set (c' := fresh (dom (Heap.heap w))) in *.
  set (w1 := (Heap.alloc (Heap.Dict r) w).2) in *.
  assert (Halloc : Heap.alloc (Heap.Dict r) w = (Ok c', w1)) by done.
  unfold mbind at 1, ST_bind at 1. rewrite Halloc.
  destruct (IH rs' w1 (<[c := c']> memo)) as (cs & w' & Hcopy & Hext' & Hnd' & Hnew & Hcs).
  { eapply dicts_at_extends; [|done]. apply Hext. }
  { done. }
  { intros a Ha. rewrite lookup_insert_ne by (by intros ->). apply Hmemo. by right. }
  exists (c' :: cs), w'.
  unfold mbind, ST_bind. rewrite Hcopy.
  assert (Hc' : Heap.heap w1 !! c' = Some (Heap.Dict r)) by apply lookup_insert_eq.
  split_and!.
  - done.
  - by eapply extends_trans.
  - constructor; [|done]. intros Hin.
    rewrite Forall_forall in Hnew. apply (Hnew c' Hin).
    apply elem_of_dom. eauto.
  - constructor; [done|].
    eapply Forall_impl; [exact Hnew|]. intros a Ha Hin. apply Ha.
    eapply subseteq_dom; [apply Hext | done].
  - constructor; [|done]. exact (lookup_weaken _ _ _ _ Hc' (proj1 Hext')).
Qed.

Lemma deepcopy_holds (w : Heap.world) (cl : Heap.loc) (rs : list record) :
  holds w cl rs →
  ∃ cl' w', Heap.deepcopy cl w = (Ok cl', w') ∧ holds w' cl' rs.
Proof.
  intros (l & Hl & Hnd & Hrs). unfold Heap.deepcopy.
  unfold mbind at 1, ST_bind at 1, Heap.read_list. rewrite Hl.
  destruct (deepcopy_items_copy w l rs ∅ Hrs Hnd) as (cs & w1 & Hcopy & _ & Hnd' & _ & Hcs).
  { intros c _. apply lookup_empty. }
  unfold mbind at 1, ST_bind at 1. rewrite Hcopy.
  destruct (alloc_list_holds w1 cs rs Hnd' Hcs) as (cl' & w' & Halloc & _ & Hh).
  by exists cl', w'.
Qed.

(** *** The loops of [encode_date] *)

Lemma with_dict_same (w : Heap.world) (c : Heap.loc) (d : record) :
  Heap.heap w !! c = Some (Heap.Dict d) → with_dict w c d = w.
Proof.
  intros Hc. unfold with_dict. rewrite insert_id by done. by destruct w.
Qed.

Lemma dicts_at_with_dict (w : Heap.world) (c : Heap.loc) (d : record)
    (l : list Heap.loc) (rs : list record) :
  c ∉ l → dicts_at w l rs → dicts_at (with_dict w c d) l rs.
Proof.
  intros Hnin Hrs. induction Hrs as [|a r l rs Ha _ IH]; constructor.
  - simpl. rewrite lookup_insert_ne; [done|]. intros ->. apply Hnin. by left.
  - apply IH. intros Hin. apply Hnin. by right.
Qed.

(** One assignment of the inner loop. *)
Lemma encode_item_step (w : Heap.world) (cl c : Heap.loc) (l : list Heap.loc)
    (index : nat) (r : record) (field : string) :
  Heap.heap w !! cl = Some (Heap.List l) →
  l !! index = Some c →
  Heap.heap w !! c = Some (Heap.Dict r) →
  Heap.encode_item cl index field w
  = match encode_field r field with
    | Ok r1 => (Ok (), with_dict w c r1)
    | Raise e => (Raise e, w)
    end.
Proof.
  intros Hl Hc Hr.
  unfold Heap.encode_item, Heap.read_list, Heap.read_dict, Heap.dict_setitem.
  unfold mbind, ST_bind, lift. rewrite Hl. unfold list_getitem. rewrite Hc, Hr.
  unfold encode_field, mbind, res_bind.
  destruct (record_getitem r field) as [v|e]; simpl; [|done].
  destruct (call_isoformat v) as [v'|e]; simpl; [|done].
  by rewrite Hl, Hc, Hr.
Qed.

(** The inner loop converts the fields of one record in place. *)
Lemma encode_record_in_place (w : Heap.world) (cl c : Heap.loc)
    (l : list Heap.loc) (index : nat) (r : record) (fields : list string) :
  Heap.heap w !! cl = Some (Heap.List l) →
  l !! index = Some c →
  Heap.heap w !! c = Some (Heap.Dict r) →
  ∃ r'', for_each fields (Heap.encode_item cl index) w
         = (void (res_fold encode_field fields r), with_dict w c r'')
         ∧ ∀ r', res_fold encode_field fields r = Ok r' → r'' = r'.
Proof.
  intros Hl Hc. revert w r Hl.
  induction fields as [|f fields IH]; intros w r Hl Hr; simpl.
  { exists r. split; [by rewrite with_dict_same | by intros ? [= <-]]. }
  assert (Hne : c ≠ cl) by congruence.
  unfold mbind at 1, ST_bind at 1.
  rewrite (encode_item_step w cl c l index r f Hl Hc Hr).
  unfold mbind, res_bind.
  destruct (encode_field r f) as [r1|e];
    [|exists r; split; [by rewrite with_dict_same | done]].
  destruct (IH (with_dict w c r1) r1) as (r'' & Hrun & Hr'').
  { simpl. by rewrite lookup_insert_ne. }
  { simpl. apply lookup_insert_eq. }
  exists r''. split; [|done]. rewrite Hrun.
  unfold with_dict. simpl. by rewrite insert_insert_eq.
Qed.

(** The outer loop, from position [length before] on. *)
Lemma encode_records_in_place (w : Heap.world) (cl : Heap.loc)
    (before l : list Heap.loc) (rs : list record) (fields : list string) :
  Heap.heap w !! cl = Some (Heap.List (before ++ l)) →
  NoDup l →
  dicts_at w l rs →
  ∃ w', for_each (seq (length before) (length l))
          (λ index, for_each fields (Heap.encode_item cl index)) w
        = (void (res_map (λ r, res_fold encode_field fields r) rs), w')
        ∧ (∀ a, a ∉ l → Heap.heap w' !! a = Heap.heap w !! a)
        ∧ (∀ rs', res_map (λ r, res_fold encode_field fields r) rs = Ok rs' →
                  dicts_at w' l rs').
Proof.
  revert before w rs. induction l as [|c l IH]; intros before w rs Hl Hnd Hrs.
  { inversion Hrs; subst. exists w. simpl.
    split_and!; [done | done | intros ? [= <-]; constructor]. }
  inversion Hrs as [|? r ? rs0 Hc Hrs0]; subst.
  apply NoDup_cons in Hnd as [Hnin Hnd].
  assert (Hne : c ≠ cl) by congruence.
  destruct (encode_record_in_place w cl c (before ++ c :: l) (length before) r fields)
    as (r'' & Hrun & Hr''); [done | apply list_lookup_middle; done | done |].
  simpl. unfold mbind at 1, ST_bind at 1. rewrite Hrun.
  unfold mbind, res_bind.
  destruct (res_fold encode_field fields r) as [r'|e] eqn:Hr'; simpl.
  - rewrite (Hr'' r' eq_refl) in *. clear Hr''.
    destruct (IH (before ++ [c])%list (with_dict w c r') rs0) as (w' & Hloop & Hframe & Hdone).
    { simpl. rewrite lookup_insert_ne by done. by rewrite <- app_assoc. }
    { done. }
    { by apply dicts_at_with_dict. }
    rewrite length_app in Hloop. simpl in Hloop.
    rewrite Nat.add_1_r in Hloop. rewrite Hloop.
    exists w'. split_and!.
    + by destruct (res_map _ rs0).
    + intros a Ha. apply not_elem_of_cons in Ha as [Hac Ha].
      rewrite Hframe by done. simpl. by rewrite lookup_insert_ne.
    + intros rs'. destruct (res_map _ rs0) as [rs1|] eqn:Hrs1; [|done].
      intros [= <-]. constructor; [|by apply Hdone].
      rewrite Hframe by done. simpl. apply lookup_insert_eq.
  - exists (with_dict w c r''). split_and!; [done | | done].
    intros a Ha. apply not_elem_of_cons in Ha as [Hac Ha].
    simpl. by rewrite lookup_insert_ne.
Qed.

(** *** [encode_date] *)

Lemma first_has_all_holds (w : Heap.world) (cl : Heap.loc) (rs : list record)
    (fields : list string) :
  holds w cl rs →
  Heap.first_has_all cl fields w
  = (Ok match rs with
        | r0 :: _ => forallb (λ field, bool_decide (is_Some (r0 !! field))) fields
        | [] => false
        end, w).
Proof.
  intros (l & Hl & _ & Hrs). unfold Heap.first_has_all, Heap.read_list.
  unfold mbind, ST_bind. rewrite Hl.
  destruct Hrs as [|c0 r0 l rs Hc0 _]; [done|].
  unfold Heap.read_dict. by rewrite Hc0.
Qed.

Lemma encode_date_result (w : Heap.world) (cl : Heap.loc) (rs : list record)
    (fields : string) :
  holds w cl rs →
  match encode_date rs fields with
  | Ok rs' => ∃ cl' w', Heap.encode_date cl fields w = (Ok cl', w')
                        ∧ holds w' cl' rs'
  | Raise e => ∃ w', Heap.encode_date cl fields w = (Raise e, w')
  end.
Proof.
  intros Hh.
  remember (Heap.encode_date cl fields w) as run eqn:Hrun.
  unfold Heap.encode_date in Hrun. unfold encode_date.
  case_bool_decide; [by exists w|].
  unfold mbind at 1, ST_bind at 1 in Hrun.
  rewrite (first_has_all_holds w cl rs _ Hh) in Hrun.
  destruct rs as [|r0 rs0]; [by exists cl, w|].
  destruct (forallb _ _); [|by exists cl, w].
  destruct (deepcopy_holds w cl (r0 :: rs0) Hh) as (cl' & w1 & Hcopy & Hh1).
  unfold mbind at 1, ST_bind at 1 in Hrun. rewrite Hcopy in Hrun.
  destruct Hh1 as (l & Hl & Hnd & Hrs).
  unfold mbind at 1, ST_bind at 1, Heap.read_list in Hrun. rewrite Hl in Hrun.
  destruct (encode_records_in_place w1 cl' [] l (r0 :: rs0) (split_comma fields))
    as (w' & Hloop & Hframe & Hdone); [done..|].
  cbn [length] in Hloop. unfold mbind at 1, ST_bind at 1 in Hrun.
  rewrite Hloop in Hrun.
  assert (Hcl' : cl' ∉ l).
  { intros Hin. apply list_elem_of_lookup in Hin as [i Hi].
    destruct (Forall2_lookup_l _ _ _ _ _ Hrs Hi) as (r & _ & Hr). congruence. }
  destruct (res_map _ (r0 :: rs0)) as [rs'|e]; simpl in Hrun.
  - exists cl', w'. split; [done|].
    exists l. split_and!; [|done|by apply Hdone].
    rewrite (Hframe cl' Hcl'). exact Hl.
  - by exists w'.
Qed.

Lemma encode_date_refines (w : Heap.world) (cl : Heap.loc) (rs : list record)
    (fields : string) :
  holds w cl rs →
  match encode_date rs fields with
  | Ok rs' => ∃ cl' w', Heap.encode_date cl fields w = (Ok cl', w')
                        ∧ Heap.extends w w'
                        ∧ holds w' cl' rs'
  | Raise e => ∃ w', Heap.encode_date cl fields w = (Raise e, w')
                     ∧ Heap.extends w w'
  end.
Proof.
  intros Hh.
  pose proof (keeps_encode_date w cl fields w (extends_refl w)) as Hext.
  pose proof (encode_date_result w cl rs fields Hh) as Hres.
  destruct (encode_date rs fields) as [rs'|e].
  - destruct Hres as (cl' & w' & Heq & Hh'). rewrite Heq in Hext. by exists cl', w'.
  - destruct Hres as (w' & Heq). rewrite Heq in Hext. by exists w'.
Qed.

(** *** [encode_date] on a list object *)






(** *** The GET handlers *)

Lemma content_index_holds (w : Heap.world) (cl : Heap.loc) (rs : list record)
    (field : string) (k : Z) :
  holds w cl rs →
  Heap.content_index cl field k w = (content_index rs field k, w).
Proof.
  intros Hh. unfold Heap.content_index.
  unfold mbind, ST_bind. by rewrite (read_records_holds w cl rs Hh).
Qed.

Lemma get_concerts_refines (w : Heap.world) (s : state) (rq : request) :
  holds w (Heap.concerts w) (concerts s) →
  (Heap.get_concerts rq w).1 = (get_concerts rq s).1.
Proof.
  intros Hh. unfold Heap.get_concerts, get_concerts.
  unfold mbind, ST_bind, lift, read_concerts.
  destruct (int_arg rq "limit") as [limit|]; [|done].
  destruct (int_arg rq "offset") as [offset|]; [|done].
  destruct (limit_offset_refines w _ _ limit offset Hh) as (c1 & w1 & -> & _ & Hh1).
  destruct (reduce_fields_refines w1 c1 _ (args rq !! "fields") Hh1)
    as (c2 & w2 & -> & _ & Hh2).
  pose proof (encode_date_refines w2 c2 _ "date" Hh2) as Henc.
  destruct (encode_date _ "date") as [rs'|e].
  - destruct Henc as (c3 & w3 & -> & _ & Hh3).
    by rewrite (read_records_holds w3 c3 rs' Hh3).
  - by destruct Henc as (w3 & -> & _).
Qed.

Lemma get_concerts_id_refines (w : Heap.world) (s : state) (i : Z) (rq : request) :
  holds w (Heap.concerts w) (concerts s) →
  (Heap.get_concerts_id i rq w).1 = (get_concerts_id i rq s).1.
Proof.
  intros Hh. unfold Heap.get_concerts_id, get_concerts_id.
  unfold mbind, ST_bind, lift, read_concerts.
  rewrite (content_index_holds w _ _ "id" i Hh).
  destruct (content_index (concerts s) "id" i) as [[[|n]|]|e]; try done.
  destruct Hh as (l & Hl & Hnd & Hrs).
  unfold Heap.read_list. rewrite Hl. unfold list_getitem.
  destruct (l !! S n) as [c|] eqn:Hc.
  - destruct (Forall2_lookup_l _ _ _ _ _ Hrs Hc) as (r & -> & Hr).
    destruct (alloc_list_holds w [c] [r]) as (c1 & w1 & -> & _ & Hh1).
    { apply NoDup_singleton. }
    { by constructor. }
    destruct (reduce_fields_refines w1 c1 _ (args rq !! "fields") Hh1)
      as (c2 & w2 & -> & _ & Hh2).
    pose proof (encode_date_refines w2 c2 _ "date" Hh2) as Henc.
    destruct (encode_date _ "date") as [rs'|e].
    + destruct Henc as (c3 & w3 & -> & _ & Hh3).
      rewrite (read_records_holds w3 c3 rs' Hh3).
      by destruct (rs' !! 0%nat).
    + by destruct Henc as (w3 & -> & _).
  - assert (concerts s !! S n = None) as ->; [|done].
    apply lookup_ge_None. rewrite <- (Forall2_length _ _ _ Hrs).
    by apply lookup_ge_None.
Qed.

(** C10: GET /concerts and GET /concerts/{id} change neither the list
    of concerts nor the counter. On a heap of list and dict objects, after
    any sequence of GET calls the globals [concerts] and [concerts_key] are
    as before, every object that existed is unchanged (so the records of the
    store still hold their [datetime] values: [encode_date] assigns only
    into the copies [deepcopy] made), and the next GET answers what the
    handler as a function of the records answers, which leaves its state as
    it was. *)
Theorem get_leaves_store_unchanged (w : Heap.world)
    (calls : list (route * request)) :
  let w' := Heap.serve_gets w calls in
  Heap.concerts w' = Heap.concerts w
  ∧ Heap.concerts_key w' = Heap.concerts_key w
  ∧ Heap.heap w ⊆ Heap.heap w'
  ∧ (∀ rs, Heap.stored w = Ok rs → Heap.stored w' = Ok rs)
  ∧ (∀ s c, holds w (Heap.concerts w) (concerts s) →
       holds w' (Heap.concerts w') (concerts s)
       ∧ (Heap.get c w').1 = (step s (GET, c.1, c.2)).1
       ∧ (step s (GET, c.1, c.2)).2 = s).
Proof.
  intros w'. pose proof (extends_serve_gets w calls) as Hext. fold w' in Hext.
  pose proof Hext as (Hsub & Hc & Hk). split_and!; [done..| |].
  - intros rs. by apply stored_extends.
  - intros s [rt rq] Hh.
    assert (Hh' : holds w' (Heap.concerts w') (concerts s)).
    { rewrite Hc. by eapply holds_extends. }
    split; [done|]. unfold Heap.get. simpl. destruct rt as [|i].
    + split; [by apply get_concerts_refines | apply get_concerts_state].
    + split; [by apply get_concerts_id_refines | apply get_concerts_id_state].
Qed.

End Refinement.

(** ** The store between calls, and what each call answers *)

Section Store.
Context {py : PyLib}.
Local Abbreviation record := (gmap string value).
Local Abbreviation M := (ST state).

Ltac run :=
  unfold mbind, ST_bind, mret, ST_ret, lift, read_concerts, read_key, write_key,
    append, advance_key; simpl.

(** *** Records built by [concert] *)

Lemma concert_id (n : Z) (artist venue : json) (dt : datetime) :
  concert n artist venue dt !! "id" = Some (VInt n).
Proof. unfold concert. by rewrite lookup_insert_eq. Qed.

Lemma concert_artist (n : Z) (artist venue : json) (dt : datetime) :
  concert n artist venue dt !! "artist" = Some (VJson artist).
Proof.
  unfold concert. rewrite lookup_insert_ne by done. by rewrite lookup_insert_eq.
Qed.

Lemma concert_venue (n : Z) (artist venue : json) (dt : datetime) :
  concert n artist venue dt !! "venue" = Some (VJson venue).
Proof.
  unfold concert. rewrite !lookup_insert_ne by done. by rewrite lookup_insert_eq.
Qed.

Lemma concert_date (n : Z) (artist venue : json) (dt : datetime) :
  concert n artist venue dt !! "date" = Some (VDate dt).
Proof.
  unfold concert. rewrite !lookup_insert_ne by done. by rewrite lookup_insert_eq.
Qed.

Lemma concert_other (n : Z) (artist venue : json) (dt : datetime) (key : string) :
  key ∉ ["id"; "artist"; "venue"; "date"] →
  concert n artist venue dt !! key = None.
Proof.
  intros Hk. unfold concert.
  rewrite !lookup_insert_ne; [done|..]; intros <-; apply Hk;
    repeat first [by left | right].
Qed.

Lemma concert_set_artist (n : Z) (artist venue x : json) (dt : datetime) :
  <["artist" := VJson x]> (concert n artist venue dt) = concert n x venue dt.
Proof.
  apply map_eq. intros key.
  destruct (decide (key = "artist")) as [->|Hk].
  - by rewrite lookup_insert_eq, concert_artist.
  - rewrite lookup_insert_ne by done. unfold concert.
    destruct (decide (key = "id")) as [->|Hi].
    + by rewrite !lookup_insert_eq.
    + rewrite !(lookup_insert_ne _ "id") by done.
      by rewrite !(lookup_insert_ne _ "artist") by done.
Qed.

Lemma concert_set_venue (n : Z) (artist venue x : json) (dt : datetime) :
  <["venue" := VJson x]> (concert n artist venue dt) = concert n artist x dt.
Proof.
  apply map_eq. intros key.
  destruct (decide (key = "venue")) as [->|Hk].
  - by rewrite lookup_insert_eq, concert_venue.
  - rewrite lookup_insert_ne by done. unfold concert.
    destruct (decide (key = "id")) as [->|Hi]; [by rewrite !lookup_insert_eq|].
    rewrite !(lookup_insert_ne _ "id") by done.
    destruct (decide (key = "artist")) as [->|Ha]; [by rewrite !lookup_insert_eq|].
    rewrite !(lookup_insert_ne _ "artist") by done.
    by rewrite !(lookup_insert_ne _ "venue") by done.
Qed.

Lemma concert_set_date (n : Z) (artist venue : json) (dt x : datetime) :
  <["date" := VDate x]> (concert n artist venue dt) = concert n artist venue x.
Proof.
  apply map_eq. intros key.
  destruct (decide (key = "date")) as [->|Hk].
  - by rewrite lookup_insert_eq, concert_date.
  - rewrite lookup_insert_ne by done. unfold concert.
    destruct (decide (key = "id")) as [->|Hi]; [by rewrite !lookup_insert_eq|].
    rewrite !(lookup_insert_ne _ "id") by done.
    destruct (decide (key = "artist")) as [->|Ha]; [by rewrite !lookup_insert_eq|].
    rewrite !(lookup_insert_ne _ "artist") by done.
    destruct (decide (key = "venue")) as [->|Hv]; [by rewrite !lookup_insert_eq|].
    rewrite !(lookup_insert_ne _ "venue") by done.
    by rewrite !(lookup_insert_ne _ "date") by done.
Qed.

(** *** What every call keeps

    A call changes the list of records only by adding a record at the
    end, or at a position after the first: by replacing the record, by
    deleting it, by setting its artist or venue to a JSON value or its
    date to a [datetime]. A property of the list that these keep holds
    after every call. *)

Section Invariant.
Variable I : list record → Prop.
Hypothesis Happend : ∀ l n artist venue dt,
  I l → I (l ++ [concert n artist venue dt]).
Hypothesis Hset : ∀ l n r i artist venue dt,
  l !! S n = Some r → I l → I (<[S n := concert i artist venue dt]> l).
Hypothesis Hdel : ∀ l n r, l !! S n = Some r → I l → I (delete (S n) l).
Hypothesis Hjson : ∀ l n r key j,
  l !! S n = Some r → key ∈ ["artist"; "venue"] →
  I l → I (<[S n := <[key := VJson j]> r]> l).
Hypothesis Hdate : ∀ l n r d,
  l !! S n = Some r → I l → I (<[S n := <["date" := VDate d]> r]> l).

Lemma invariant_patch_key (n : nat) (rq : request) (key : string) (s : state) :
  key ∈ ["artist"; "venue"] →
  I (concerts s) → I (concerts (patch_key (S n) rq key s).2).
Proof.
  intros Hk HI. unfold patch_key. run.
  destruct (in_request_json rq key) as [[|]|e]; simpl; try done.
  destruct (request_json rq key) as [v|e]; simpl; try done.
  unfold setitem_field. destruct (concerts s !! S n) as [r|] eqn:Hr; simpl; try done.
  by apply Hjson.
Qed.

Lemma invariant_patch_date (n : nat) (rq : request) (s : state) :
  I (concerts s) → I (concerts (patch_date (S n) rq s).2).
Proof.
  intros HI. unfold patch_date. run.
  destruct (in_request_json rq "date") as [[|]|e]; simpl; try done.
  destruct (request_json rq "date") as [v|e]; simpl; try done.
  destruct (datetime_fromisoformat v) as [d|e]; simpl; try done.
  unfold setitem_field. destruct (concerts s !! S n) as [r|] eqn:Hr; simpl; try done.
  by apply Hdate.
Qed.

Lemma invariant_step (s : state) (c : call) :
  I (concerts s) → I (concerts (step s c).2).
Proof.
  intros HI. destruct c as [[v rt] rq]. unfold step, handle.
  destruct v, rt as [|i]; try done.
  - (* POST /concerts *)
    unfold post_concerts. destruct (is_json rq); [|done].
    destruct (read_artist_venue_date rq) as [[[artist venue] dt]|e];
      [|by destruct e].
    unfold try_except, post_read_id, post_new_id. run.
    destruct (request_json rq "id") as [j|e]; simpl.
    + destruct (py_int j) as [k|e]; simpl.
      * destruct (content_index (concerts s) "id" k) as [index|e]; simpl.
        -- destruct (truthy index); simpl; [done|]. by apply Happend.
        -- case_decide; simpl; [|done]. by apply Happend.
      * case_decide; simpl; [|done]. by apply Happend.
    + case_decide; simpl; [|done]. by apply Happend.
  - by rewrite post_concerts_id_state.
  - by rewrite get_concerts_state.
  - by rewrite get_concerts_id_state.
  - (* PUT /concerts/i *)
    unfold put_concerts_id. destruct (is_json rq); [|done].
    destruct (read_artist_venue_date rq) as [[[artist venue] dt]|e];
      [|by destruct e].
    run. destruct (content_index (concerts s) "id" i) as [[[|n]|]|e]; simpl;
      try done; try by apply Happend.
    unfold setitem. destruct (concerts s !! S n) eqn:Hr; simpl; [|done].
    by eapply Hset.
  - (* PATCH /concerts/i *)
    unfold patch_concerts_id. destruct (is_json rq); [|done].
    run. destruct (content_index (concerts s) "id" i) as [[[|n]|]|e]; simpl;
      try done.
    run.
    pose proof (invariant_patch_key n rq "artist" s) as H1.
    destruct (patch_key (S n) rq "artist" s) as [[[]|] s1]; simpl in *;
      [|apply H1; [left|done]].
    pose proof (invariant_patch_key n rq "venue" s1) as H2.
    destruct (patch_key (S n) rq "venue" s1) as [[[]|] s2]; simpl in *;
      [|apply H2; [right; left|apply H1; [left|done]]].
    pose proof (invariant_patch_date n rq s2) as H3.
    destruct (patch_date (S n) rq s2) as [[[]|] s3]; simpl in *;
      apply H3, H2; [right; left|apply H1; [left|done]|right; left|apply H1; [left|done]].
  - (* DELETE /concerts/i *)
    unfold del_concerts_id.
    run. destruct (content_index (concerts s) "id" i) as [[[|n]|]|e]; simpl;
      try done.
    unfold list_getitem at 1. destruct (concerts s !! S n) as [r|] eqn:Hr; simpl; [|done].
    destruct (encode_date [r] "date") as [l|e]; simpl; [|done].
    unfold delitem. rewrite Hr. simpl.
    destruct (list_getitem l 0); simpl; by eapply Hdel.
Qed.

Lemma invariant_serve (s : state) (calls : list call) :
  I (concerts s) → I (concerts (serve s calls).2).
Proof.
  revert s. induction calls as [|c calls IH]; intros s HI; simpl; [done|].
  pose proof (invariant_step s c HI) as H1.
  destruct (step s c) as [r s1]. specialize (IH s1 H1).
  by destruct (serve s1 calls).
Qed.

End Invariant.

(** *** The store the server reaches *)

Lemma initial_concerts (s0 : state) :
  initial = Some s0 →
  ∃ d1 d2,
    s0 = State [concert 1 (JStr "Pink Floyd") (JStr "Werchter") d1;
                concert 2 (JStr "Kraftwerk")
                  (JStr "Domaine National de St Cloud") d2] 3.
Proof.
  unfold initial. intros Hi.
  destruct (fromisoformat "2017-07-20T20:00:00-02:00") as [d1|]; [|done].
  destruct (fromisoformat "2022-09-26T15:00:00-02:00") as [d2|]; [|done].
  injection Hi as <-. by exists d1, d2.
Qed.

Lemma is_concert_concert (n : Z) (artist venue : json) (dt : datetime) :
  is_concert (concert n artist venue dt).
Proof. by exists n, artist, venue, dt. Qed.

Lemma is_concert_serve (s : state) (calls : list call) :
  Forall is_concert (concerts s) → Forall is_concert (concerts (serve s calls).2).
Proof.
  apply invariant_serve.
  - intros l n artist venue dt Hl. apply Forall_app. split; [done|].
    constructor; [apply is_concert_concert | done].
  - intros l n r i artist venue dt _ Hl.
    apply Forall_insert; [done | apply is_concert_concert].
  - intros l n r _ Hl. by apply Forall_delete.
  - intros l n r key j Hr Hk Hl. apply Forall_insert; [done|].
    destruct (Forall_lookup_1 _ _ _ _ Hl Hr) as (i & artist & venue & dt & ->).
    apply elem_of_cons in Hk as [->|Hk].
    + rewrite concert_set_artist. apply is_concert_concert.
    + apply list_elem_of_singleton in Hk as ->.
      rewrite concert_set_venue. apply is_concert_concert.
  - intros l n r d Hr Hl. apply Forall_insert; [done|].
    destruct (Forall_lookup_1 _ _ _ _ Hl Hr) as (i & artist & venue & dt & ->).
    rewrite concert_set_date. apply is_concert_concert.
Qed.

Lemma first_serve (s : state) (calls : list call) (r0 : record) :
  concerts s !! 0%nat = Some r0 → concerts (serve s calls).2 !! 0%nat = Some r0.
Proof.
  apply (invariant_serve (λ l, l !! 0%nat = Some r0)).
  - intros l n artist venue dt Hl. by apply lookup_app_l_Some.
  - intros l n r i artist venue dt _ Hl. by rewrite list_lookup_insert_ne.
  - intros l n r _ Hl. rewrite list_lookup_delete_lt by lia. done.
  - intros l n r key j _ _ Hl. by rewrite list_lookup_insert_ne.
  - intros l n r d _ Hl. by rewrite list_lookup_insert_ne.
Qed.

Lemma reachable_consistent (s : state) : reachable s → consistent s.
Proof.
  intros Hr. split_and!.
  - destruct Hr as (s0 & calls & Hi & ->). by apply bounded_serve, bounded_initial.
  - by apply reachable_only_first_repeats.
  - destruct Hr as (s0 & calls & Hi & ->). apply is_concert_serve.
    destruct (initial_concerts s0 Hi) as (d1 & d2 & ->). simpl.
    repeat constructor; apply is_concert_concert.
Qed.

Lemma reachable_step (s : state) (c : call) : reachable s → reachable (step s c).2.
Proof.
  intros (s0 & calls & Hi & ->). exists s0, (calls ++ [c])%list. split; [done|].
  clear Hi. revert s0. induction calls as [|c' calls IH]; intros s0; simpl.
  - by destruct (step s0 c).
  - destruct (step s0 c') as [r s1]. specialize (IH s1).
    destruct (serve s1 calls) as [rs s2]. simpl in IH.
    destruct (serve s1 (calls ++ [c])%list) as [rs' s3]. done.
Qed.

(** *** Looking an id up in a consistent store *)

Lemma consistent_int_id (s : state) (i : nat) (r : record) :
  consistent s → concerts s !! i = Some r → ∃ n, r !! "id" = Some (VInt n).
Proof.
  intros (_ & _ & Hc) Hr.
  destruct (Forall_lookup_1 _ _ _ _ Hc Hr) as (n & artist & venue & dt & ->).
  exists n. apply concert_id.
Qed.

Lemma consistent_first (s : state) :
  consistent s → content_index (concerts s) "id" 1 = Ok (Some 0%nat).
Proof.
  intros (_ & [H0 _] & _). unfold ids in H0. rewrite list_lookup_fmap in H0.
  destruct (concerts s) as [|r0 l]; [done|]. simpl in H0. injection H0 as H0.
  by apply content_index_head with (v := VInt 1).
Qed.

Lemma consistent_find (s : state) (k : Z) (i : nat) (r : record) :
  consistent s → k ≠ 1 →
  concerts s !! i = Some r → r !! "id" = Some (VInt k) →
  ∃ n, i = S n ∧ content_index (concerts s) "id" k = Ok (Some (S n)).
Proof.
  intros Hs Hk Hr Hid. pose proof Hs as (_ & [H0 Hrep] & _).
  assert (Hi : ids s !! i = Some (Some (VInt k))).
  { unfold ids. by rewrite list_lookup_fmap, Hr; simpl; rewrite Hid. }
  destruct i as [|n].
  { rewrite H0 in Hi. injection Hi as Hi. done. }
  exists n. split; [done|]. apply content_index_first. split.
  - exists r, (VInt k). split_and!; [done..|]. simpl. by apply bool_decide_eq_true_2.
  - intros j Hj.
    destruct (lookup_lt_is_Some_2 (concerts s) j) as [r' Hr'].
    { apply lookup_lt_Some in Hr. lia. }
    destruct (consistent_int_id s j r' Hs Hr') as (m & Hm).
    exists r', (VInt m). split_and!; [done..|]. simpl.
    apply bool_decide_eq_false_2. intros ->.
    assert (Hjd : ids s !! j = Some (Some (VInt k))).
    { unfold ids. by rewrite list_lookup_fmap, Hr'; simpl; rewrite Hm. }
    assert (Hne : j ≠ S n) by lia.
    specialize (Hrep j (S n) _ Hne Hjd Hi). injection Hrep as Hrep. done.
Qed.

Lemma consistent_absent (s : state) (k : Z) :
  consistent s → Some (VInt k) ∉ ids s →
  content_index (concerts s) "id" k = Ok None.
Proof.
  intros Hs Hk. apply content_index_absent. apply Forall_lookup. intros i r Hr.
  destruct (consistent_int_id s i r Hs Hr) as (m & Hm).
  exists (VInt m). split; [done|]. simpl. apply bool_decide_eq_false_2. intros ->.
  apply Hk. unfold ids. apply list_elem_of_fmap. exists r. split; [done|].
  by eapply list_elem_of_lookup_2.
Qed.

(** *** What a GET shows *)

Lemma reduce_fields_project (l : list record) (fields : option string) :
  reduce_fields l fields = project fields <$> l.
Proof.
  unfold reduce_fields, project. destruct fields as [f|]; [|by rewrite list_fmap_id].
  case_bool_decide; [by rewrite list_fmap_id | done].
Qed.

Lemma project_lookup (fields : option string) (r : record) (key : string) :
  project fields r !! key = if selected fields key then r !! key else None.
Proof.
  unfold project, selected. destruct fields as [f|]; [|done].
  case_bool_decide; [done|]. simpl. unfold keep_fields.
  rewrite map_lookup_filter. destruct (r !! key) as [v|]; simpl.
  - case_bool_decide.
    + by rewrite option_guard_True.
    + by rewrite option_guard_False.
  - by destruct (bool_decide _).
Qed.

Lemma render_same (fields : list string) (r : record) :
  (∀ key d, key ∈ fields → r !! key ≠ Some (VDate d)) → render fields r = r.
Proof.
  intros Hr. apply map_eq. intros key. rewrite lookup_render.
  destruct (r !! key) as [v|] eqn:Hv; simpl; [|done].
  case_bool_decide; [|done]. destruct v as [j|d]; [done|].
  by destruct (Hr key d).
Qed.

Lemma encode_date_view (l : list record) (fields : option string) :
  Forall is_concert l →
  encode_date (project fields <$> l) "date" = Ok (view fields <$> l).
Proof.
  intros Hl. destruct l as [|r0 l]; [done|].
  rewrite fmap_cons, encode_date_cons by done.
  change (split_comma "date") with ["date"]. simpl forallb.
  rewrite project_lookup. destruct (selected fields "date") eqn:Hsel.
  - assert (H0 : is_Some (r0 !! "date")).
    { apply Forall_cons in Hl as [(n & artist & venue & dt & ->) _].
      rewrite concert_date. by eexists. }
    rewrite bool_decide_eq_true_2 by done. simpl andb. cbv iota.
    rewrite <- (fmap_cons (project fields)). apply res_map_Ok.
    apply Forall2_fmap, Forall_Forall2_diag.
    eapply Forall_impl; [exact Hl|]. intros r (n & artist & venue & dt & ->).
    apply encode_fields_Ok. split_and!.
    + apply NoDup_singleton.
    + constructor; [|done]. exists dt. by rewrite project_lookup, Hsel, concert_date.
    + done.
  - rewrite bool_decide_eq_false_2 by (by intros [? ?]). simpl andb. cbv iota.
    f_equal. rewrite <- !fmap_cons. apply list_fmap_ext. intros i r _.
    unfold view. symmetry. apply render_same. intros key d Hk.
    apply list_elem_of_singleton in Hk as ->. by rewrite project_lookup, Hsel.
Qed.

Lemma limit_offset_Forall {A} (P : A → Prop) (l : list A) (limit offset : Z) :
  Forall P l → Forall P (limit_offset l limit offset).
Proof.
  intros Hl. unfold limit_offset. destruct (_ || _); [|done].
  unfold py_slice. by apply Forall_take, Forall_drop.
Qed.

Lemma get_concerts_consistent (s : state) (rq : request) (limit offset : Z) :
  consistent s →
  int_arg rq "limit" = Ok limit →
  int_arg rq "offset" = Ok offset →
  get_concerts rq s
  = (Ok (Response 200
           (Json_list (view (args rq !! "fields")
                         <$> limit_offset (concerts s) limit offset)) None), s).
Proof.
  intros (_ & _ & Hc) Hl Ho. unfold get_concerts. run. rewrite Hl, Ho. simpl.
  rewrite reduce_fields_project, encode_date_view; [done|].
  by apply limit_offset_Forall.
Qed.

Lemma get_concerts_id_found (s : state) (k : Z) (rq : request) (n : nat)
    (r : record) :
  is_concert r →
  content_index (concerts s) "id" k = Ok (Some (S n)) →
  concerts s !! S n = Some r →
  get_concerts_id k rq s
  = (Ok (Response 200 (Json_record (view (args rq !! "fields") r)) None), s).
Proof.
  intros Hc Hi Hr. unfold get_concerts_id. run. rewrite Hi. simpl.
  unfold list_getitem at 1. rewrite Hr. simpl.
  rewrite reduce_fields_project.
  change (project (args rq !! "fields") <$> [r])
    with (project (args rq !! "fields") <$> [r]).
  rewrite (encode_date_view [r]) by (by constructor). done.
Qed.

Lemma get_concerts_id_absent (s : state) (k : Z) (rq : request) :
  content_index (concerts s) "id" k = Ok None →
  get_concerts_id k rq s = (Ok not_found, s).
Proof. intros Hi. unfold get_concerts_id. run. by rewrite Hi. Qed.

Lemma get_concerts_id_consistent (s : state) (k : Z) (rq : request) :
  consistent s →
  (k ≠ 1 →
   ∀ i r, concerts s !! i = Some r → r !! "id" = Some (VInt k) →
     get_concerts_id k rq s
     = (Ok (Response 200 (Json_record (view (args rq !! "fields") r)) None), s))
  ∧ (k = 1 ∨ Some (VInt k) ∉ ids s → get_concerts_id k rq s = (Ok not_found, s)).
Proof.
  intros Hs. split.
  - intros Hk i r Hr Hid.
    destruct (consistent_find s k i r Hs Hk Hr Hid) as (n & -> & Hi).
    apply get_concerts_id_found with (n := n); [|done..].
    destruct Hs as (_ & _ & Hc). by apply (Forall_lookup_1 _ _ _ _ Hc Hr).
  - intros [->|Hk].
    + by apply get_concerts_id_zero, consistent_first.
    + by apply get_concerts_id_absent, consistent_absent.
Qed.


(** *** The handlers on a consistent store *)

Lemma consistent_has (s : state) (k : Z) :
  Some (VInt k) ∈ ids s →
  ∃ i r, concerts s !! i = Some r ∧ r !! "id" = Some (VInt k).
Proof.
  intros Hin. apply list_elem_of_lookup in Hin as [i Hi].
  unfold ids in Hi. rewrite list_lookup_fmap in Hi.
  destruct (concerts s !! i) as [r|] eqn:Hr; [|done].
  injection Hi as Hi. by exists i, r.
Qed.

Lemma consistent_lookup (s : state) (k : Z) :
  consistent s → k ≠ 1 →
  (∃ n r, content_index (concerts s) "id" k = Ok (Some (S n))
          ∧ concerts s !! S n = Some r ∧ r !! "id" = Some (VInt k))
  ∨ (content_index (concerts s) "id" k = Ok None ∧ Some (VInt k) ∉ ids s).
Proof.
  intros Hs Hk. pose proof Hs as (Hb & [H0 _] & _).
  destruct (content_index_total (concerts s) "id" k) as [[[|n]|] Hi].
  { by eapply bounded_has_id. }
  - pose proof (found_has_id 3 k s 0%nat Hb Hi) as Hid.
    rewrite H0 in Hid. injection Hid as Hid. done.
  - left. pose proof (found_has_id 3 k s (S n) Hb Hi) as Hid.
    unfold ids in Hid. rewrite list_lookup_fmap in Hid.
    destruct (concerts s !! S n) as [r|] eqn:Hr; [|done].
    injection Hid as Hid. by exists n, r.
  - right. split; [done|]. by eapply absent_has_no_id.
Qed.

Lemma encode_date_concert (r : record) :
  is_concert r → encode_date [r] "date" = Ok [render ["date"] r].
Proof. intros Hr. apply (encode_date_view [r] None). by constructor. Qed.

Lemma del_concerts_id_found (s : state) (k : Z) (n : nat) (r : record) :
  is_concert r →
  content_index (concerts s) "id" k = Ok (Some (S n)) →
  concerts s !! S n = Some r →
  del_concerts_id k s
  = (Ok (Response 200 (Json_record (render ["date"] r)) None),
     State (delete (S n) (concerts s)) (concerts_key s)).
Proof.
  intros Hc Hi Hr. unfold del_concerts_id. run. rewrite Hi. simpl.
  unfold list_getitem at 1. rewrite Hr. simpl.
  rewrite (encode_date_concert r Hc). simpl.
  unfold delitem. by rewrite Hr.
Qed.

Lemma del_concerts_id_absent (s : state) (k : Z) :
  content_index (concerts s) "id" k = Ok None →
  del_concerts_id k s = (Ok not_found, s).
Proof. intros Hi. unfold del_concerts_id. run. by rewrite Hi. Qed.

Lemma post_concerts_id_absent (s : state) (k : Z) :
  content_index (concerts s) "id" k = Ok None →
  post_concerts_id k s = (Ok not_found, s).
Proof. intros Hi. unfold post_concerts_id. run. by rewrite Hi. Qed.

Lemma post_concerts_id_found (s : state) (k : Z) (n : nat) :
  content_index (concerts s) "id" k = Ok (Some (S n)) →
  post_concerts_id k s = (Ok (error "Resource already exists" 409), s).
Proof. intros Hi. unfold post_concerts_id. run. by rewrite Hi. Qed.

Lemma delete_removes_id (l : list (option value)) (k : Z) (n : nat) :
  only_first_repeats l → k ≠ 1 →
  l !! S n = Some (Some (VInt k)) →
  Some (VInt k) ∉ delete (S n) l.
Proof.
  intros [_ Hrep] Hk Hn Hin. apply list_elem_of_lookup in Hin as [j Hj].
  destruct (decide (j < S n)%nat) as [Hlt|Hge].
  - rewrite list_lookup_delete_lt in Hj by done.
    assert (Hne : j ≠ S n) by lia.
    specialize (Hrep j (S n) _ Hne Hj Hn). injection Hrep as Hrep. done.
  - rewrite list_lookup_delete_ge in Hj by lia.
    assert (Hne : S j ≠ S n) by lia.
    specialize (Hrep (S j) (S n) _ Hne Hj Hn). injection Hrep as Hrep. done.
Qed.

Lemma advance_is_max (k key : Z) :
  (if bool_decide (k < key) then key else k + 1) = Z.max key (k + 1).
Proof. case_bool_decide; lia. Qed.

Lemma post_concerts_absent (s : state) (k : Z) (rq : request)
    (artist venue j : json) (dt : datetime) :
  content_index (concerts s) "id" k = Ok None →
  is_json rq = true →
  read_artist_venue_date rq = Ok (artist, venue, dt) →
  request_json rq "id" = Ok j →
  py_int j = Ok k →
  post_concerts rq s
  = (Ok (Response 201 Empty (Some (location_of k))),
     State (concerts s ++ [concert k artist venue dt])
           (if bool_decide (k < concerts_key s) then concerts_key s else k + 1)).
Proof.
  intros Hi Hj Hb Hid Hk. unfold post_concerts. rewrite Hj, Hb.
  unfold try_except, post_read_id. run. by rewrite Hid; simpl; rewrite Hk; simpl; rewrite Hi.
Qed.

(** The record a PUT on a later id leaves in the store. *)
Lemma put_concerts_id_stores (s : state) (k : Z) (rq : request)
    (artist venue : json) (dt : datetime) :
  consistent s → k ≠ 1 →
  is_json rq = true →
  read_artist_venue_date rq = Ok (artist, venue, dt) →
  ∃ i, concerts (put_concerts_id k rq s).2 !! i = Some (concert k artist venue dt).
Proof.
  intros Hs Hk Hj Hb.
  destruct (consistent_lookup s k Hs Hk) as [(n & r & Hi & Hr & Hid)|[Hi Hno]].
  - rewrite (put_concerts_id_later s k n r Hi Hr rq artist venue dt Hj Hb). simpl.
    exists (S n). apply list_lookup_insert_eq. by eapply lookup_lt_Some.
  - rewrite (put_concerts_id_absent s k rq artist venue dt Hi Hj Hb). simpl.
    exists (length (concerts s)). by rewrite list_lookup_middle.
Qed.

Lemma path_id_small (k : Z) : 0 ≤ k ≤ 4300 → path_id k.
Proof. intros Hk. split; [lia|]. apply printable_small. lia. Qed.

(** *** What the server reaches *)

(** X1: every record of a store the server reaches has the four keys
    [id], [artist], [venue] and [date] and no other: an [int] under [id],
    what a client sent under [artist] and [venue], and a [datetime] under
    [date]. No call adds or removes a key or stores a date as text. *)
Theorem stored_records_have_four_fields (s : state) (r : record) :
  reachable s → r ∈ concerts s →
  (∃ n, r !! "id" = Some (VInt n))
  ∧ (∃ artist, r !! "artist" = Some (VJson artist))
  ∧ (∃ venue, r !! "venue" = Some (VJson venue))
  ∧ (∃ dt, r !! "date" = Some (VDate dt))
  ∧ ∀ key, is_Some (r !! key) → key ∈ ["id"; "artist"; "venue"; "date"].
Proof.
  intros Hreach Hr. destruct (reachable_consistent s Hreach) as (_ & _ & Hc).
  rewrite Forall_forall in Hc.
  destruct (Hc r Hr) as (n & artist & venue & dt & ->).
  split_and!.
  - exists n. apply concert_id.
  - exists artist. apply concert_artist.
  - exists venue. apply concert_venue.
  - exists dt. apply concert_date.
  - intros key Hkey.
    destruct (decide (key ∈ ["id"; "artist"; "venue"; "date"])) as [|Hno]; [done|].
    rewrite concert_other in Hkey by done. by destruct Hkey.
Qed.

(** X2: the first record of the store is the one the module was loaded
    with, whatever calls the server has handled: no call replaces,
    updates or deletes it. *)
Theorem first_record_never_changes (s0 : state) (calls : list call) :
  initial = Some s0 →
  concerts (serve s0 calls).2 !! 0%nat = concerts s0 !! 0%nat.
Proof.
  intros Hi. destruct (initial_concerts s0 Hi) as (d1 & d2 & ->). simpl.
  by apply first_serve.
Qed.

(** X3: in a store the server reaches, two records at different
    positions have the same id only when that id is 1, the id of the first
    record. *)
Theorem repeated_id_is_first (s : state) (i j : nat) (r r' : record) :
  reachable s → i ≠ j →
  concerts s !! i = Some r → concerts s !! j = Some r' →
  r !! "id" = r' !! "id" →
  r !! "id" = Some (VInt 1).
Proof.
  intros Hs Hij Hr Hr' Hid.
  destruct (reachable_consistent s Hs) as (_ & [_ Hrep] & _).
  apply (Hrep i j (r !! "id") Hij); unfold ids; rewrite list_lookup_fmap.
  - by rewrite Hr.
  - by rewrite Hr', Hid.
Qed.

(** *** GET *)

(** X4: on a store the server reaches and whose records are plain, GET
    /concerts whose [limit] and [offset] read as integers answers 200 with
    the page [concerts[offset:offset+limit]] (the whole list when both are
    0), each record cut down to the selected fields and its date, when
    selected, as ISO text; it raises nothing and leaves the store as it
    was. *)
Theorem get_concerts_shows_page (s : state) (rq : request) (limit offset : Z) :
  reachable s →
  Forall plain (concerts s) →
  int_arg rq "limit" = Ok limit →
  int_arg rq "offset" = Ok offset →
  step s (GET, Concerts, rq)
  = (Ok (Response 200
           (Json_list (view (args rq !! "fields")
                         <$> limit_offset (concerts s) limit offset)) None), s).
Proof.
  intros Hs _ Hl Ho. apply get_concerts_consistent; [|done..].
  by apply reachable_consistent.
Qed.

(** X5: on a store the server reaches, for an id k that the rule passes
    on, GET /concerts/k with k other than 1 answers 200 with the record
    that has the id k, when it is plain, cut down to the selected fields
    and with its date as ISO text; it answers 404 when k is 1 or when no
    record has the id k. The store is left as it was. *)
Theorem get_concerts_id_shows_record (s : state) (k : Z) (rq : request) :
  reachable s →
  path_id k →
  (k ≠ 1 →
   ∀ i r, concerts s !! i = Some r → r !! "id" = Some (VInt k) → plain r →
     step s (GET, Concerts_id k, rq)
     = (Ok (Response 200 (Json_record (view (args rq !! "fields") r)) None), s))
  ∧ (k = 1 ∨ Some (VInt k) ∉ ids s →
     step s (GET, Concerts_id k, rq) = (Ok not_found, s)).
Proof.
  intros Hs _.
  destruct (get_concerts_id_consistent s k rq (reachable_consistent s Hs))
    as [Hfound Hmissing].
  split; [|done]. intros Hk i r Hr Hid _. by apply (Hfound Hk i r).
Qed.

(** *** DELETE *)

(** X6: on a store the server reaches, for an id k other than 1 that the
    rule passes on, DELETE /concerts/k on the record that has the id k,
    when it is plain, answers 200 with that record, its date as ISO text,
    and removes it from the list; the counter stays. After it no record
    has the id k: a GET or a second DELETE on k answers 404. *)
Theorem delete_then_gone (s : state) (k : Z) (i : nat) (r : record)
    (rq : request) :
  reachable s → path_id k → k ≠ 1 →
  concerts s !! i = Some r → r !! "id" = Some (VInt k) → plain r →
  let s' := State (delete i (concerts s)) (concerts_key s) in
  step s (DELETE, Concerts_id k, rq)
  = (Ok (Response 200 (Json_record (render ["date"] r)) None), s')
  ∧ (Some (VInt k) ∉ ids s')
  ∧ (∀ rq', step s' (GET, Concerts_id k, rq') = (Ok not_found, s'))
  ∧ (∀ rq', step s' (DELETE, Concerts_id k, rq') = (Ok not_found, s')).
Proof.
  intros Hreach _ Hk Hr Hid _ s'.
  pose proof (reachable_consistent s Hreach) as Hs.
  destruct (consistent_find s k i r Hs Hk Hr Hid) as (n & -> & Hi).
  assert (Hc : is_concert r).
  { destruct Hs as (_ & _ & Hc). by apply (Forall_lookup_1 _ _ _ _ Hc Hr). }
  assert (Hstep : step s (DELETE, Concerts_id k, rq)
                  = (Ok (Response 200 (Json_record (render ["date"] r)) None), s')).
  { by apply del_concerts_id_found. }
  assert (Hs' : consistent s').
  { apply reachable_consistent.
    replace s' with (step s (DELETE, Concerts_id k, rq)).2 by (by rewrite Hstep).
    by apply reachable_step. }
  assert (Hgone : Some (VInt k) ∉ ids s').
  { unfold ids, s'. simpl. rewrite list_fmap_delete.
    destruct Hs as (_ & Hrep & _). apply delete_removes_id; [done..|].
    unfold ids. by rewrite list_lookup_fmap, Hr; simpl; rewrite Hid. }
  split_and!; [done..| |].
  - intros rq'. by apply get_concerts_id_absent, consistent_absent.
  - intros rq'. by apply del_concerts_id_absent, consistent_absent.
Qed.

(** X7: on a store the server reaches, DELETE /concerts/k answers 404 and
    changes nothing when k is 1 or when no record has the id k. *)
Theorem delete_missing_is_not_found (s : state) (k : Z) (rq : request) :
  reachable s →
  k = 1 ∨ Some (VInt k) ∉ ids s →
  step s (DELETE, Concerts_id k, rq) = (Ok not_found, s).
Proof.
  intros Hreach Hk. pose proof (reachable_consistent s Hreach) as Hs.
  destruct Hk as [->|Hk].
  - by apply del_concerts_id_zero, consistent_first.
  - by apply del_concerts_id_absent, consistent_absent.
Qed.

(** *** PUT *)

(** X8: on a store the server reaches, for an id k that the rule passes
    on, PUT /concerts/k with k other than 1 and a body that has artist,
    venue and a date that parses puts the
    record [{id: k, artist, venue, date}] at the position of the record
    that has the id k and answers 204, the other records and the counter
    unchanged; when no record has the id k it adds the record at the end,
    answers 201 and sets the counter to the larger of the counter and
    k+1. *)
Theorem put_replaces_or_appends (s : state) (k : Z) (rq : request)
    (artist venue : json) (dt : datetime) :
  reachable s → path_id k → k ≠ 1 →
  is_json rq = true →
  read_artist_venue_date rq = Ok (artist, venue, dt) →
  (∀ i r, concerts s !! i = Some r → r !! "id" = Some (VInt k) →
     step s (PUT, Concerts_id k, rq)
     = (Ok (Response 204 Empty None),
        State (<[i := concert k artist venue dt]> (concerts s)) (concerts_key s)))
  ∧ (Some (VInt k) ∉ ids s →
     step s (PUT, Concerts_id k, rq)
     = (Ok (Response 201 Empty None),
        State (concerts s ++ [concert k artist venue dt])
              (Z.max (concerts_key s) (k + 1)))).
Proof.
  intros Hreach _ Hk Hj Hb. pose proof (reachable_consistent s Hreach) as Hs.
  split.
  - intros i r Hr Hid.
    destruct (consistent_find s k i r Hs Hk Hr Hid) as (n & -> & Hi).
    by apply (put_concerts_id_later s k n r).
  - intros Hno. rewrite <- advance_is_max.
    by apply put_concerts_id_absent; [apply consistent_absent|..].
Qed.

(** X9: on a store the server reaches, for an id k other than 1 that the
    rule passes on, after PUT /concerts/k with a body that has a scalar
    artist, a scalar venue and a date that parses, GET /concerts/k answers
    200 with the record that was put, and the same PUT again answers 204
    and leaves the store as it is. *)
Theorem put_then_get (s : state) (k : Z) (rq : request)
    (artist venue : json) (dt : datetime) :
  reachable s → path_id k → k ≠ 1 →
  is_json rq = true →
  read_artist_venue_date rq = Ok (artist, venue, dt) →
  scalar artist → scalar venue →
  let s' := (step s (PUT, Concerts_id k, rq)).2 in
  (∀ rq', step s' (GET, Concerts_id k, rq')
          = (Ok (Response 200
                   (Json_record (view (args rq' !! "fields")
                                   (concert k artist venue dt))) None), s'))
  ∧ step s' (PUT, Concerts_id k, rq) = (Ok (Response 204 Empty None), s').
Proof.
  intros Hreach _ Hk Hj Hb _ _ s'.
  pose proof (reachable_consistent s Hreach) as Hs.
  assert (Hs' : consistent s') by (by apply reachable_consistent, reachable_step).
  destruct (put_concerts_id_stores s k rq artist venue dt Hs Hk Hj Hb) as [i Hi].
  fold (step s (PUT, Concerts_id k, rq)) in Hi. fold s' in Hi.
  pose proof (concert_id k artist venue dt) as Hid.
  split.
  - intros rq'.
    by apply (proj1 (get_concerts_id_consistent s' k rq' Hs') Hk i).
  - destruct (consistent_find s' k i _ Hs' Hk Hi Hid) as (n & -> & Hn).
    simpl. rewrite (put_concerts_id_later s' k n _ Hn Hi rq artist venue dt Hj Hb).
    rewrite list_insert_id by done. by destruct s'.
Qed.

(** *** POST *)

(** X10: on a store the server reaches and whose counter is printable,
    POST /concerts with a scalar artist, a scalar venue, a date that
    parses and no id answers 201 with the location [/concerts/<counter>],
    adds the record with the counter as id at the end and advances the
    counter by one; GET on that id then answers 200 with the record. *)
Theorem post_then_get (s : state) (rq : request) (artist venue : json)
    (dt : datetime) :
  reachable s →
  printable (concerts_key s) →
  is_json rq = true →
  read_artist_venue_date rq = Ok (artist, venue, dt) →
  scalar artist → scalar venue →
  request_json rq "id" = Raise KeyError →
  let k := concerts_key s in
  let c := concert k artist venue dt in
  let s' := State (concerts s ++ [c]) (k + 1) in
  step s (POST, Concerts, rq)
  = (Ok (Response 201 Empty (Some (location_of k))), s')
  ∧ ∀ rq', step s' (GET, Concerts_id k, rq')
           = (Ok (Response 200 (Json_record (view (args rq' !! "fields") c)) None),
              s').
Proof.
  intros Hreach _ Hj Hb _ _ Hid k c s'.
  assert (Hstep : step s (POST, Concerts, rq)
                  = (Ok (Response 201 Empty (Some (location_of k))), s')).
  { by apply post_concerts_new. }
  split; [done|]. intros rq'.
  assert (Hs' : consistent s').
  { apply reachable_consistent.
    replace s' with (step s (POST, Concerts, rq)).2 by (by rewrite Hstep).
    by apply reachable_step. }
  assert (Hk : k ≠ 1).
  { destruct (reachable_consistent s Hreach) as ([_ Hk] & _). unfold k. lia. }
  apply (proj1 (get_concerts_id_consistent s' k rq' Hs') Hk (length (concerts s))).
  - unfold s'. simpl. by rewrite list_lookup_middle.
  - apply concert_id.
Qed.

(** X11: on a store the server reaches, POST /concerts with artist, venue,
    a date that parses and an id k other than 1 answers 400 "Resource
    already exists" and changes nothing when a record has the id k; when
    none has, it answers 201 with the location [/concerts/k], adds the
    record at the end and sets the counter to the larger of the counter
    and k+1. *)
Theorem post_with_id (s : state) (k : Z) (rq : request)
    (artist venue j : json) (dt : datetime) :
  reachable s → k ≠ 1 →
  is_json rq = true →
  read_artist_venue_date rq = Ok (artist, venue, dt) →
  request_json rq "id" = Ok j →
  py_int j = Ok k →
  (Some (VInt k) ∈ ids s →
     step s (POST, Concerts, rq) = (Ok (error "Resource already exists" 400), s))
  ∧ (Some (VInt k) ∉ ids s →
     step s (POST, Concerts, rq)
     = (Ok (Response 201 Empty (Some (location_of k))),
        State (concerts s ++ [concert k artist venue dt])
              (Z.max (concerts_key s) (k + 1)))).
Proof.
  intros Hreach Hk Hj Hb Hid Hint.
  pose proof (reachable_consistent s Hreach) as Hs. split.
  - intros Hin. destruct (consistent_has s k Hin) as (i & r & Hr & Hrid).
    destruct (consistent_find s k i r Hs Hk Hr Hrid) as (n & -> & Hi).
    by apply (post_concerts_later s k n Hi rq artist venue j dt).
  - intros Hno. rewrite <- advance_is_max.
    by apply (post_concerts_absent s k rq artist venue j dt);
      [apply consistent_absent|..].
Qed.

(** X12: on a store the server reaches, for an id k that the rule passes
    on, POST /concerts/k answers 409 when k is not 1 and a record has the
    id k, and 404 when k is 1 or no record has the id k; it never changes
    the store. *)
Theorem post_on_id_never_creates (s : state) (k : Z) (rq : request) :
  reachable s →
  path_id k →
  (k ≠ 1 → Some (VInt k) ∈ ids s →
     step s (POST, Concerts_id k, rq)
     = (Ok (error "Resource already exists" 409), s))
  ∧ (k = 1 ∨ Some (VInt k) ∉ ids s →
     step s (POST, Concerts_id k, rq) = (Ok not_found, s)).
Proof.
  intros Hreach _. pose proof (reachable_consistent s Hreach) as Hs. split.
  - intros Hk Hin. destruct (consistent_has s k Hin) as (i & r & Hr & Hrid).
    destruct (consistent_find s k i r Hs Hk Hr Hrid) as (n & -> & Hi).
    by apply (post_concerts_id_found s k n).
  - intros [->|Hno].
    + by apply post_concerts_id_zero, consistent_first.
    + by apply post_concerts_id_absent, consistent_absent.
Qed.


(** *** PATCH *)

Lemma patch_key_object (index : nat) (rq : request) (m : gmap string json)
    (key : string) (s : state) (r : record) :
  json_body rq = Some (JObj m) →
  concerts s !! index = Some r →
  patch_key index rq key s
  = (Ok (),
     State (<[index := match m !! key with
                       | Some x => <[key := VJson x]> r
                       | None => r
                       end]> (concerts s)) (concerts_key s)).
Proof.
  intros Hb Hr. unfold patch_key, in_request_json, request_json. rewrite Hb.
  run. destruct (m !! key) as [x|] eqn:Hm.
  - rewrite bool_decide_eq_true_2 by eauto. simpl.
    unfold setitem_field. by rewrite Hr.
  - rewrite bool_decide_eq_false_2 by (by intros [? ?]).
    rewrite list_insert_id by done. by destruct s.
Qed.

Lemma patch_date_object (index : nat) (rq : request) (m : gmap string json)
    (s : state) (r : record) (d : datetime) :
  json_body rq = Some (JObj m) →
  concerts s !! index = Some r →
  (∀ j, m !! "date" = Some j → datetime_fromisoformat j = Ok d) →
  patch_date index rq s
  = (Ok (),
     State (<[index := match m !! "date" with
                       | Some _ => <["date" := VDate d]> r
                       | None => r
                       end]> (concerts s)) (concerts_key s)).
Proof.
  intros Hb Hr Hd. unfold patch_date, in_request_json, request_json. rewrite Hb.
  run. destruct (m !! "date") as [x|] eqn:Hm.
  - rewrite bool_decide_eq_true_2 by eauto. simpl.
    rewrite (Hd x eq_refl). simpl. unfold setitem_field. by rewrite Hr.
  - rewrite bool_decide_eq_false_2 by (by intros [? ?]).
    rewrite list_insert_id by done. by destruct s.
Qed.

Lemma patch_concerts_id_object (s : state) (k : Z) (n : nat) (rq : request)
    (m : gmap string json) (r : record) (d : datetime) :
  content_index (concerts s) "id" k = Ok (Some (S n)) →
  concerts s !! S n = Some r →
  is_json rq = true →
  json_body rq = Some (JObj m) →
  (∀ j, m !! "date" = Some j → datetime_fromisoformat j = Ok d) →
  patch_concerts_id k rq s
  = (Ok (Response 204 Empty None),
     State (<[S n :=
              let r1 := match m !! "artist" with
                        | Some x => <["artist" := VJson x]> r
                        | None => r
                        end in
              let r2 := match m !! "venue" with
                        | Some x => <["venue" := VJson x]> r1
                        | None => r1
                        end in
              match m !! "date" with
              | Some _ => <["date" := VDate d]> r2
              | None => r2
              end]> (concerts s)) (concerts_key s)).
Proof.
  intros Hi Hr Hj Hb Hd. unfold patch_concerts_id. rewrite Hj. run.
  rewrite Hi. simpl. run.
  assert (Hlt : (S n < length (concerts s))%nat) by (by eapply lookup_lt_Some).
  rewrite (patch_key_object (S n) rq m "artist" s r Hb Hr). simpl.
  erewrite (patch_key_object (S n) rq m "venue" _ _ Hb);
    [|simpl; by apply list_lookup_insert_eq].
  simpl.
  erewrite (patch_date_object (S n) rq m _ _ d Hb);
    [|simpl; apply list_lookup_insert_eq; by rewrite length_insert|done].
  simpl. by rewrite !list_insert_insert_eq.
Qed.

(** X13: on a store the server reaches, for an id k other than 1 that
    the rule passes on, PATCH /concerts/k on the record [{id: k, artist,
    venue, date}] and with a JSON object as body answers 204 and replaces in that record the artist and
    the venue by those of the body that has them, and the date by the
    parsed date of a body that has one; the id, the other records and the
    counter stay, and the other keys of the body are not read. *)
Theorem patch_merges (s : state) (k : Z) (i : nat) (rq : request)
    (m : gmap string json) (artist venue : json) (dt dt' : datetime) :
  reachable s → path_id k → k ≠ 1 →
  concerts s !! i = Some (concert k artist venue dt) →
  is_json rq = true →
  json_body rq = Some (JObj m) →
  match m !! "date" with
  | Some j => datetime_fromisoformat j = Ok dt'
  | None => dt' = dt
  end →
  step s (PATCH, Concerts_id k, rq)
  = (Ok (Response 204 Empty None),
     State (<[i := concert k (default artist (m !! "artist"))
                     (default venue (m !! "venue")) dt']> (concerts s))
           (concerts_key s)).
Proof.
  intros Hreach _ Hk Hr Hj Hb Hd.
  pose proof (reachable_consistent s Hreach) as Hs.
  destruct (consistent_find s k i _ Hs Hk Hr (concert_id _ _ _ _)) as (n & -> & Hi).
  simpl.
  rewrite (patch_concerts_id_object s k n rq m _ dt' Hi Hr Hj Hb).
  - do 2 f_equal. f_equal.
    destruct (m !! "artist") as [x|]; simpl; [rewrite concert_set_artist|];
      (destruct (m !! "venue") as [y|]; simpl; [rewrite concert_set_venue|]);
      (destruct (m !! "date") as [z|]; simpl;
       [by rewrite concert_set_date | by rewrite Hd]).
  - intros j Hm. by rewrite Hm in Hd.
Qed.

(** X14: for an id k that the rule passes on, PATCH /concerts/k looks at
    the content type first, then at the id, and only then at the body:
    without a JSON content type it answers 400, and on a store the server
    reaches, with a JSON content type, it answers 404 when k is 1 or no
    record has the id k, whatever the body is. Nothing is changed. *)
Theorem patch_checks_before_body (s : state) (k : Z) (rq : request) :
  reachable s →
  path_id k →
  (is_json rq = false →
     step s (PATCH, Concerts_id k, rq)
     = (Ok (error "Incorrect Content-Type" 400), s))
  ∧ (is_json rq = true → k = 1 ∨ Some (VInt k) ∉ ids s →
     step s (PATCH, Concerts_id k, rq) = (Ok not_found, s)).
Proof.
  intros Hreach _. pose proof (reachable_consistent s Hreach) as Hs. split.
  - intros Hj. simpl. unfold patch_concerts_id. by rewrite Hj.
  - intros Hj [->|Hno].
    + by apply patch_concerts_id_zero; [apply consistent_first|].
    + simpl. unfold patch_concerts_id. rewrite Hj. run.
      by rewrite (consistent_absent s k Hs Hno).
Qed.

(** *** Bodies that POST and PUT do not accept *)

(** X15: POST /concerts and PUT /concerts/k read artist, venue and date
    in this order and stop at the first that fails. Without a JSON content
    type each answers 400. With one: a JSON body that is not an object
    raises TypeError; an object without one of the three keys is answered
    400 "Missing field(s)", whatever it has under the others; a date that
    is not a string raises TypeError. In all these cases the store is left
    as it was. *)
Theorem malformed_body (s : state) (k : Z) (rq : request) :
  (is_json rq = false →
     post_concerts rq s = (Ok (error "Incorrect Content-Type" 400), s)
     ∧ put_concerts_id k rq s
       = (Ok (error "Incorrect Content-Type or no JSON payload" 400), s))
  ∧ (is_json rq = true →
     (∀ j, json_body rq = Some j → (∀ m, j ≠ JObj m) →
        post_concerts rq s = (Raise TypeError, s)
        ∧ put_concerts_id k rq s = (Raise TypeError, s))
     ∧ (∀ m, json_body rq = Some (JObj m) →
        m !! "artist" = None ∨ m !! "venue" = None ∨ m !! "date" = None →
        post_concerts rq s = (Ok (error "Missing field(s)" 400), s)
        ∧ put_concerts_id k rq s = (Ok (error "Missing field(s)" 400), s))
     ∧ (∀ m artist venue x, json_body rq = Some (JObj m) →
        m !! "artist" = Some artist → m !! "venue" = Some venue →
        m !! "date" = Some x → (∀ t, x ≠ JStr t) →
        post_concerts rq s = (Raise TypeError, s)
        ∧ put_concerts_id k rq s = (Raise TypeError, s))).
Proof.
  split.
  - intros Hj. unfold post_concerts, put_concerts_id. by rewrite Hj.
  - intros Hj. split_and!.
    + intros j Hb Hobj.
      assert (Hread : read_artist_venue_date rq = Raise TypeError).
      { unfold read_artist_venue_date, request_json. rewrite Hb.
        destruct j; try done. by destruct (Hobj m). }
      unfold post_concerts, put_concerts_id. by rewrite Hj, Hread.
    + intros m Hb Hmiss.
      assert (Hread : read_artist_venue_date rq = Raise KeyError).
      { unfold read_artist_venue_date, request_json. rewrite Hb. simpl.
        destruct (m !! "artist") as [artist|]; [|done]. simpl.
        destruct (m !! "venue") as [venue|]; [|done]. simpl.
        destruct (m !! "date") as [date|]; [|done].
        by destruct Hmiss as [?|[?|?]]. }
      unfold post_concerts, put_concerts_id. by rewrite Hj, Hread.
    + intros m artist venue x Hb Ha Hv Hd Hx.
      assert (Hread : read_artist_venue_date rq = Raise TypeError).
      { unfold read_artist_venue_date, request_json. rewrite Hb. simpl.
        rewrite Ha, Hv, Hd. simpl. destruct x; try done. by destruct (Hx s0). }
      unfold post_concerts, put_concerts_id. by rewrite Hj, Hread.
Qed.


(** *** What an answer tells about the store *)

Lemma accounts_error (s : state) (msg : string) (code : Z) :
  code ∈ [400; 404; 405; 409] → accounts s (error msg code) s.
Proof.
  intros Hc. unfold accounts. simpl.
  assert (Hge : 400 ≤ code).
  { repeat (apply elem_of_cons in Hc as [->|Hc]; [lia|]). by inversion Hc. }
  split_and!; try (intros; lia); try done.
  by do 3 right.
Qed.

Lemma accounts_shown (s : state) (b : body) : accounts s (Response 200 b None) s.
Proof.
  unfold accounts. simpl. split_and!; try (intros; lia); [by left | by left].
Qed.

Lemma accounts_created (s : state) (n key' : Z) (artist venue : json)
    (dt : datetime) (loc : option string) :
  key' = Z.max (concerts_key s) (n + 1) →
  accounts s (Response 201 Empty loc)
    (State (concerts s ++ [concert n artist venue dt]) key').
Proof.
  intros ->. unfold accounts. simpl. split_and!; try (intros; lia).
  - right. by left.
  - intros _. by exists n, artist, venue, dt.
Qed.

Lemma accounts_updated (s s' : state) :
  length (concerts s') = length (concerts s) →
  concerts s' !! 0%nat = concerts s !! 0%nat →
  concerts_key s' = concerts_key s →
  accounts s (Response 204 Empty None) s'.
Proof.
  intros Hl H0 Hk. unfold accounts. simpl. split_and!; try (intros; lia).
  - do 2 right. by left.
  - done.
Qed.

Lemma accounts_deleted (s : state) (n : nat) (r : record) (b : body) :
  concerts s !! S n = Some r →
  accounts s (Response 200 b None)
    (State (delete (S n) (concerts s)) (concerts_key s)).
Proof.
  intros Hr. unfold accounts. simpl. split_and!; try (intros; lia).
  - by left.
  - intros _. right. by exists n, r.
Qed.

Lemma setitem_field_frame (n : nat) (key : string) (v : value) (s : state) :
  key ≠ "id" → same_frame s (setitem_field (S n) key v s).2.
Proof.
  intros Hk. unfold same_frame. split_and!.
  - unfold setitem_field. by destruct (concerts s !! S n).
  - unfold setitem_field. destruct (concerts s !! S n); simpl; [|done].
    by rewrite length_insert.
  - unfold setitem_field. destruct (concerts s !! S n); simpl; [|done].
    by rewrite list_lookup_insert_ne.
  - by apply ids_setitem_field.
Qed.

Lemma same_frame_refl (s : state) : same_frame s s.
Proof. by unfold same_frame. Qed.

Lemma same_frame_trans (s1 s2 s3 : state) :
  same_frame s1 s2 → same_frame s2 s3 → same_frame s1 s3.
Proof.
  unfold same_frame. intros (? & ? & ? & ?) (? & ? & ? & ?).
  split_and!; congruence.
Qed.

Lemma patch_key_frame (n : nat) (rq : request) (key : string) (s : state) :
  key ≠ "id" → same_frame s (patch_key (S n) rq key s).2.
Proof.
  intros Hk. unfold patch_key. run.
  destruct (in_request_json rq key) as [[|]|e]; simpl; try apply same_frame_refl.
  destruct (request_json rq key) as [v|e]; simpl; try apply same_frame_refl.
  by apply setitem_field_frame.
Qed.

Lemma patch_date_frame (n : nat) (rq : request) (s : state) :
  same_frame s (patch_date (S n) rq s).2.
Proof.
  unfold patch_date. run.
  destruct (in_request_json rq "date") as [[|]|e]; simpl; try apply same_frame_refl.
  destruct (request_json rq "date") as [v|e]; simpl; try apply same_frame_refl.
  destruct (datetime_fromisoformat v) as [d|e]; simpl; try apply same_frame_refl.
  by apply setitem_field_frame.
Qed.

(** PATCH leaves the frame of the store whatever it returns, and answers
    204, 400 or 404. *)
Lemma patch_concerts_id_frame (i : Z) (rq : request) (s : state) :
  same_frame s (patch_concerts_id i rq s).2
  ∧ ∀ resp, (patch_concerts_id i rq s).1 = Ok resp →
      resp = Response 204 Empty None
      ∨ (400 ≤ status resp ∧ status resp ∈ [400; 404]
         ∧ (patch_concerts_id i rq s).2 = s).
Proof.
  unfold patch_concerts_id. destruct (is_json rq).
  2:{ split; [apply same_frame_refl|]. intros resp [= <-]. right. simpl.
      split_and!; [lia | by left | done]. }
  run. destruct (content_index (concerts s) "id" i) as [[[|n]|]|e]; simpl;
    try (split; [apply same_frame_refl|]; intros resp [= <-]; right; simpl;
         split_and!; [lia | by right; left | done]).
  2:{ split; [apply same_frame_refl | done]. }
  run.
  pose proof (patch_key_frame n rq "artist" s) as H1.
  destruct (patch_key (S n) rq "artist" s) as [[[]|] s1]; simpl in *;
    [|split; [by apply H1 | done]].
  pose proof (patch_key_frame n rq "venue" s1) as H2.
  destruct (patch_key (S n) rq "venue" s1) as [[[]|] s2]; simpl in *;
    [|split; [eapply same_frame_trans; [by apply H1 | by apply H2] | done]].
  pose proof (patch_date_frame n rq s2) as H3.
  assert (H13 : same_frame s (patch_date (S n) rq s2).2).
  { eapply same_frame_trans; [by apply H1|].
    eapply same_frame_trans; [by apply H2 | done]. }
  destruct (patch_date (S n) rq s2) as [[[]|] s3]; simpl in *;
    (split; [done|]); [|done].
  intros resp [= <-]. by left.
Qed.

Lemma accounts_post_concerts (rq : request) (s s' : state) (resp : response) :
  post_concerts rq s = (Ok resp, s') → accounts s resp s'.
Proof.
  unfold post_concerts. destruct (is_json rq);
    [|intros [= <- <-]; apply accounts_error; by left].
  destruct (read_artist_venue_date rq) as [[[artist venue] dt]|e].
  2:{ destruct e; try done; intros [= <- <-]; apply accounts_error; by left. }
  unfold try_except, post_read_id, post_new_id. run.
  assert (Hnew : concerts_key s + 1 = Z.max (concerts_key s) (concerts_key s + 1))
    by lia.
  destruct (request_json rq "id") as [j|e]; simpl.
  - destruct (py_int j) as [k|e]; simpl.
    + destruct (content_index (concerts s) "id" k) as [index|e]; simpl.
      * destruct (truthy index); simpl; intros [= <- <-].
        -- apply accounts_error; by left.
        -- apply accounts_created, advance_is_max.
      * case_decide; simpl; [|done]. intros [= <- <-]. by apply accounts_created.
    + case_decide; simpl; [|done]. intros [= <- <-]. by apply accounts_created.
  - case_decide; simpl; [|done]. intros [= <- <-]. by apply accounts_created.
Qed.

Lemma accounts_put_concerts_id (i : Z) (rq : request) (s s' : state)
    (resp : response) :
  put_concerts_id i rq s = (Ok resp, s') → accounts s resp s'.
Proof.
  unfold put_concerts_id. destruct (is_json rq);
    [|intros [= <- <-]; apply accounts_error; by left].
  destruct (read_artist_venue_date rq) as [[[artist venue] dt]|e].
  2:{ destruct e; try done; intros [= <- <-]; apply accounts_error; by left. }
  run. destruct (content_index (concerts s) "id" i) as [[[|n]|]|e]; simpl;
    try done; try (intros [= <- <-]; apply accounts_created, advance_is_max).
  unfold setitem. destruct (concerts s !! S n) eqn:Hr; simpl; [|done].
  intros [= <- <-]. apply accounts_updated; simpl.
  - by rewrite length_insert.
  - by rewrite list_lookup_insert_ne.
  - done.
Qed.

Lemma accounts_get_concerts (rq : request) (s s' : state) (resp : response) :
  get_concerts rq s = (Ok resp, s') → accounts s resp s'.
Proof.
  unfold get_concerts. run.
  destruct (int_arg rq "limit") as [limit|e]; simpl; [|done].
  destruct (int_arg rq "offset") as [offset|e]; simpl; [|done].
  destruct (encode_date _ "date") as [l|e]; simpl; [|done].
  intros [= <- <-]. apply accounts_shown.
Qed.

Lemma accounts_get_concerts_id (i : Z) (rq : request) (s s' : state)
    (resp : response) :
  get_concerts_id i rq s = (Ok resp, s') → accounts s resp s'.
Proof.
  unfold get_concerts_id. run.
  destruct (content_index (concerts s) "id" i) as [[[|n]|]|e]; simpl;
    try done; try (intros [= <- <-]; apply accounts_error; by right; left).
  destruct (list_getitem (concerts s) (S n)) as [r|e]; simpl; [|done].
  destruct (encode_date _ "date") as [l|e]; simpl; [|done].
  destruct (list_getitem l 0) as [c0|e]; simpl; [|done].
  intros [= <- <-]. apply accounts_shown.
Qed.

Lemma accounts_del_concerts_id (i : Z) (s s' : state) (resp : response) :
  del_concerts_id i s = (Ok resp, s') → accounts s resp s'.
Proof.
  unfold del_concerts_id. run.
  destruct (content_index (concerts s) "id" i) as [[[|n]|]|e]; simpl;
    try done; try (intros [= <- <-]; apply accounts_error; by right; left).
  unfold list_getitem at 1.
  destruct (concerts s !! S n) as [r|] eqn:Hr; simpl; [|done].
  destruct (encode_date [r] "date") as [l|e]; simpl; [|done].
  unfold delitem. rewrite Hr. simpl.
  destruct (list_getitem l 0) as [c0|e]; simpl; [|done].
  intros [= <- <-]. by eapply accounts_deleted.
Qed.

Lemma accounts_patch_concerts_id (i : Z) (rq : request) (s s' : state)
    (resp : response) :
  patch_concerts_id i rq s = (Ok resp, s') → accounts s resp s'.
Proof.
  intros Hp. destruct (patch_concerts_id_frame i rq s) as [Hf Hresp].
  rewrite Hp in Hf, Hresp. simpl in Hf, Hresp.
  destruct (Hresp resp eq_refl) as [->|(Hge & Hin & ->)].
  - destruct Hf as (? & ? & ? & _). by apply accounts_updated.
  - unfold accounts. split_and!; try (intros; lia); [|done].
    apply elem_of_cons in Hin as [->|Hin]; [by do 3 right; left|].
    apply list_elem_of_singleton in Hin as ->. by do 4 right; left.
Qed.

(** X16: the status of an answer tells what the call did to the store,
    in any state. The status is one of 200, 201, 204, 400, 404, 405 and
    409. With 201 one record was added at the end and the counter is the
    larger of the old counter and the new id plus one. With 204 the list
    has the same length and the same first record, and the counter is the
    same. With 200 nothing changed, or one record after the first was
    removed. With 400 or more nothing changed. *)
Theorem status_tells_effect (s s' : state) (c : call) (resp : response) :
  step s c = (Ok resp, s') →
  status resp ∈ [200; 201; 204; 400; 404; 405; 409]
  ∧ (status resp = 201 →
       ∃ n artist venue dt,
         concerts s' = (concerts s ++ [concert n artist venue dt])%list
         ∧ concerts_key s' = Z.max (concerts_key s) (n + 1))
  ∧ (status resp = 204 →
       length (concerts s') = length (concerts s)
       ∧ concerts s' !! 0%nat = concerts s !! 0%nat
       ∧ concerts_key s' = concerts_key s)
  ∧ (status resp = 200 →
       s' = s
       ∨ ∃ n r, concerts s !! S n = Some r
                ∧ s' = State (delete (S n) (concerts s)) (concerts_key s))
  ∧ (400 ≤ status resp → s' = s).
Proof.
  destruct c as [[v rt] rq]. unfold step, handle. intros Hstep.
  change (accounts s resp s').
  destruct v, rt as [|i];
    try (injection Hstep as <- <-; apply accounts_error; by do 2 right; left).
  - by apply (accounts_post_concerts rq).
  - revert Hstep. unfold post_concerts_id. run.
    destruct (content_index (concerts s) "id" i) as [index|e]; simpl; [|done].
    destruct (truthy index); intros [= <- <-]; apply accounts_error.
    + by do 3 right; left.
    + by right; left.
  - by apply (accounts_get_concerts rq).
  - by apply (accounts_get_concerts_id i rq).
  - by apply (accounts_put_concerts_id i rq).
  - by apply (accounts_patch_concerts_id i rq).
  - by apply (accounts_del_concerts_id i).
Qed.

(** X17: on a store whose records are plain and whose counter is
    printable, a call with a printable id, if the client gives one, that
    ends with an exception leaves the counter, the number of records, their
    ids and the first record as they were; for every verb but PATCH it
    leaves the whole store as it was. *)
Theorem exception_effect (s s' : state) (v : verb) (rt : route) (rq : request)
    (e : exn) :
  Forall plain (concerts s) →
  printable (concerts_key s) →
  (∀ n, client_id (v, rt, rq) = Some n → printable n) →
  step s (v, rt, rq) = (Raise e, s') →
  (v ≠ PATCH → s' = s)
  ∧ concerts_key s' = concerts_key s
  ∧ length (concerts s') = length (concerts s)
  ∧ concerts s' !! 0%nat = concerts s !! 0%nat
  ∧ ids s' = ids s.
Proof.
  intros _ _ _ Hstep.
  assert (Hv : v = PATCH ∨ v ≠ PATCH) by (destruct v; auto).
  destruct Hv as [->|Hv].
  - split; [done|]. destruct rt as [|i]; [done|]. simpl in Hstep.
    destruct (patch_concerts_id_frame i rq s) as [Hf _].
    rewrite Hstep in Hf. exact Hf.
  - pose proof (exception_state s s' v rt rq e Hstep Hv) as ->. done.
Qed.


(** *** The view helpers on any list *)

Lemma content_index_from_Raise (l : list record) (field : string) (k : Z)
    (n : nat) (e : exn) :
  content_index_from l field k n = Raise e
  ↔ e = KeyError
    ∧ ∃ j r, l !! j = Some r ∧ r !! field = None
             ∧ ∀ i r', (i < j)%nat → l !! i = Some r' →
                 ∃ v, r' !! field = Some v ∧ eq_int v k = false.
Proof.
  revert n. induction l as [|r0 l IH]; intros n; simpl.
  { split; [done|]. by intros (_ & j & r & Hr & _). }
  unfold record_getitem. destruct (r0 !! field) as [v|] eqn:Hv; simpl.
  - destruct (eq_int v k) eqn:He.
    + split; [done|]. intros (_ & [|j] & r & Hr & Hnone & Hbefore).
      * simpl in Hr. injection Hr as <-. congruence.
      * destruct (Hbefore 0%nat r0) as (v' & Hv' & He'); [lia | done |].
        congruence.
    + rewrite IH. split.
      * intros (-> & j & r & Hr & Hnone & Hbefore). split; [done|].
        exists (S j), r. split_and!; [done..|].
        intros [|i] r' Hi Hr'.
        -- simpl in Hr'. injection Hr' as <-. by exists v.
        -- apply (Hbefore i r'); [lia | done].
      * intros (-> & [|j] & r & Hr & Hnone & Hbefore).
        -- simpl in Hr. injection Hr as <-. congruence.
        -- split; [done|]. exists j, r. split_and!; [done..|].
           intros i r' Hi Hr'. apply (Hbefore (S i) r'); [lia | done].
  - split.
    + intros [= <-]. split; [done|]. exists 0%nat, r0. split_and!; [done..|].
      intros i r' Hi. lia.
    + by intros (-> & _).
Qed.

(** X18: [content_index] returns [None] when the first record lacks the
    field (also when a later record has the value) or when every record
    has the field with another value, the empty list among them. It raises
    exactly when the first record has the field and a later record lacks
    it with no record that has the value before it, and then KeyError. An
    index it returns is a position of the list. *)
Theorem content_index_outcomes (l : list record) (field : string) (k : Z) :
  (content_index l field k = Ok None
   ↔ (∃ r0, l !! 0%nat = Some r0 ∧ r0 !! field = None)
     ∨ Forall (λ r, ∃ v, r !! field = Some v ∧ eq_int v k = false) l)
  ∧ (∀ e, content_index l field k = Raise e
     ↔ e = KeyError
       ∧ ∃ j r, l !! S j = Some r ∧ r !! field = None
                ∧ ∀ i r', (i ≤ j)%nat → l !! i = Some r' →
                    ∃ v, r' !! field = Some v ∧ eq_int v k = false)
  ∧ (∀ i, content_index l field k = Ok (Some i) → (i < length l)%nat).
Proof.
  split_and!.
  - split.
    + intros Hnone. destruct l as [|r0 l]; [by right|].
      unfold content_index in Hnone.
      destruct (r0 !! field) as [v|] eqn:Hv.
      * right. rewrite bool_decide_eq_true_2 in Hnone by eauto.
        by apply content_index_from_None in Hnone.
      * left. by exists r0.
    + intros [(r0 & Hr0 & Hnone)|Hall].
      * destruct l as [|r l]; [done|]. simpl in Hr0. injection Hr0 as ->.
        unfold content_index. rewrite Hnone.
        by rewrite bool_decide_eq_false_2 by (by intros [? ?]).
      * by apply content_index_absent.
  - intros e. destruct l as [|r0 l].
    { split; [done|]. by intros (_ & j & r & Hr & _). }
    unfold content_index. destruct (r0 !! field) as [v|] eqn:Hv.
    + rewrite bool_decide_eq_true_2 by eauto.
      rewrite content_index_from_Raise. split.
      * intros (-> & [|j] & r & Hr & Hnone & Hbefore).
        -- simpl in Hr. injection Hr as <-. congruence.
        -- split; [done|]. exists j, r. split_and!; [done..|].
           intros i r' Hi. apply Hbefore. lia.
      * intros (-> & j & r & Hr & Hnone & Hbefore). split; [done|].
        exists (S j), r. split_and!; [done..|].
        intros i r' Hi. apply Hbefore. lia.
    + rewrite bool_decide_eq_false_2 by (by intros [? ?]).
      split; [done|]. intros (_ & j & r & _ & _ & Hbefore).
      destruct (Hbefore 0%nat r0) as (v & Hv' & _); [lia | done |]. congruence.
  - intros i Hi. apply content_index_Some in Hi as [(r & _ & Hr & _) _].
    by eapply lookup_lt_Some.
Qed.

Lemma limit_offset_page {A} (l : list A) (limit offset : Z) :
  0 ≤ offset → 0 < limit →
  limit_offset l limit offset = take (Z.to_nat limit) (drop (Z.to_nat offset) l).
Proof.
  intros Ho Hl. unfold limit_offset.
  rewrite (bool_decide_eq_true_2 (limit ≠ 0)) by lia. simpl.
  apply py_slice_take_drop; lia.
Qed.

(** X19: pages follow each other: for an offset that is not negative and
    two positive limits, the page of [a] records at [offset] followed by
    the page of [b] records at [offset + a] is the page of [a + b] records
    at [offset]. *)
Theorem limit_offset_pages {A} (l : list A) (offset a b : Z) :
  0 ≤ offset → 0 < a → 0 < b →
  (limit_offset l a offset ++ limit_offset l b (offset + a))%list
  = limit_offset l (a + b) offset.
Proof.
  intros Ho Ha Hb. rewrite !limit_offset_page by lia.
  replace (Z.to_nat (offset + a)) with (Z.to_nat offset + Z.to_nat a)%nat by lia.
  replace (Z.to_nat (a + b)) with (Z.to_nat a + Z.to_nat b)%nat by lia.
  rewrite <- drop_drop. apply take_take_drop.
Qed.

(** X20: for all integers [limit] and [offset], what [limit_offset]
    returns is a run of consecutive elements of the list, and with a
    positive [limit] it has at most [limit] elements, also for a negative
    [offset]. *)
Theorem limit_offset_is_segment {A} (l : list A) (limit offset : Z) :
  (∃ before after, l = (before ++ limit_offset l limit offset ++ after)%list)
  ∧ (0 < limit → Z.of_nat (length (limit_offset l limit offset)) ≤ limit).
Proof.
  unfold limit_offset.
  destruct (bool_decide (limit ≠ 0) || bool_decide (offset ≠ 0)) eqn:Hnz.
  - unfold py_slice.
    set (len := Z.of_nat (length l)).
    set (lo := slice_bound len offset). set (hi := slice_bound len (offset + limit)).
    split.
    + exists (take (Z.to_nat lo) l), (drop (Z.to_nat (hi - lo)) (drop (Z.to_nat lo) l)).
      by rewrite take_drop, take_drop.
    + intros Hl. rewrite length_take.
      assert (hi - lo ≤ limit); [|lia].
      unfold hi, lo, slice_bound. repeat case_bool_decide; lia.
  - split; [exists [], []; by rewrite app_nil_r|].
    intros Hl. rewrite (bool_decide_eq_true_2 (limit ≠ 0)) in Hnz by lia. done.
Qed.

Lemma project_twice (fields : option string) (r : record) :
  project fields (project fields r) = project fields r.
Proof.
  apply map_eq. intros key. rewrite !project_lookup.
  by destruct (selected fields key).
Qed.

(** X21: [reduce_fields] keeps the number and the order of the records;
    in each it keeps the keys the comma-separated text names, with their
    values, and drops the others; a name that is no key of a record is
    passed over. Without [fields], or with the empty text, every key is
    kept. Applying it twice with the same [fields] is applying it once. *)
Theorem reduce_fields_selects (l : list record) (fields : option string) :
  length (reduce_fields l fields) = length l
  ∧ (∀ i r, l !! i = Some r →
       ∃ r', reduce_fields l fields !! i = Some r'
             ∧ ∀ key, r' !! key = if selected fields key then r !! key else None)
  ∧ reduce_fields (reduce_fields l fields) fields = reduce_fields l fields.
Proof.
  rewrite !reduce_fields_project. split_and!.
  - by rewrite length_fmap.
  - intros i r Hr. exists (project fields r). split.
    + by rewrite list_lookup_fmap, Hr.
    + intros key. apply project_lookup.
  - rewrite <- list_fmap_compose. apply list_fmap_ext. intros i r _.
    apply project_twice.
Qed.

Lemma int_arg_cases (rq : request) (name : string) :
  (∃ n, int_arg rq name = Ok n
        ∧ ¬ ∃ t, args rq !! name = Some t ∧ t ≠ "" ∧ int_of_str t = None)
  ∨ (int_arg rq name = Raise ValueError
     ∧ ∃ t, args rq !! name = Some t ∧ t ≠ "" ∧ int_of_str t = None).
Proof.
  unfold int_arg. destruct (args rq !! name) as [t|] eqn:Ht.
  - case_bool_decide as Hempty.
    + left. exists 0. split; [done|]. intros (t' & [= <-] & Hne & _). done.
    + destruct (int_of_str t) as [n|] eqn:Hint.
      * left. exists n. split; [done|]. intros (t' & [= <-] & _ & Hnone). congruence.
      * right. split; [done|]. by exists t.
  - left. exists 0. split; [done|]. by intros (t' & [=] & _).
Qed.

(** X22: on a store the server reaches and whose records are plain, GET
    /concerts raises exactly when [limit] or [offset] is a text that is
    not empty and that [int()] rejects, and then ValueError; an absent or
    empty parameter counts as 0. Nothing in the store makes it raise. *)
Theorem get_concerts_raises_on_arguments_only (s : state) (rq : request)
    (e : exn) :
  reachable s →
  Forall plain (concerts s) →
  (step s (GET, Concerts, rq)).1 = Raise e
  ↔ e = ValueError
    ∧ ∃ name t, name ∈ ["limit"; "offset"] ∧ args rq !! name = Some t
                ∧ t ≠ "" ∧ int_of_str t = None.
Proof.
  intros Hreach _. pose proof (reachable_consistent s Hreach) as Hs. simpl.
  destruct (int_arg_cases rq "limit") as [(limit & Hl & Hlno)|[Hl Hlbad]].
  - destruct (int_arg_cases rq "offset") as [(offset & Ho & Hono)|[Ho Hobad]].
    + rewrite (get_concerts_consistent s rq limit offset Hs Hl Ho). simpl.
      split; [done|]. intros (_ & name & t & Hname & Hbad).
      apply elem_of_cons in Hname as [->|Hname]; [destruct Hlno; by exists t|].
      apply list_elem_of_singleton in Hname as ->. destruct Hono. by exists t.
    + assert (Hget : (get_concerts rq s).1 = Raise ValueError).
      { unfold get_concerts. run. rewrite Hl. simpl. by rewrite Ho. }
      rewrite Hget. split.
      * intros [= <-]. split; [done|]. destruct Hobad as (t & Hbad).
        exists "offset", t. split; [by right; left | done].
      * by intros (-> & _).
  - assert (Hget : (get_concerts rq s).1 = Raise ValueError).
    { unfold get_concerts. run. by rewrite Hl. }
    rewrite Hget. split.
    + intros [= <-]. split; [done|]. destruct Hlbad as (t & Hbad).
      exists "limit", t. split; [by left | done].
    + by intros (-> & _).
Qed.

(** *** Where exceptions come from *)














End Store.

(** ** What [encode_date] returns on the heap *)

Section Copies.
Context {py : PyLib}.
Import Heap.

Lemma deepcopy_fresh (w0 : world) (cl : loc) :
  hoare (extends w0) (deepcopy cl) (post (fresh_copy w0) (extends w0)).
Proof.
  unfold deepcopy.
  eapply hoare_bind_post with (R := λ _, extends w0).
  { intros w Hw. unfold read_list. by destruct (heap w !! cl) as [[]|]. }
  intros l.
  eapply hoare_bind_post; [by apply deepcopy_items_new|]. intros cs.
  intros w [Hw Hcs]. simpl.
  destruct (extends_alloc w0 w (List cs) Hw) as [Hw' Hfresh].
  split; [|exact Hfresh].
  split; [done|]. exists cs. split; [|done]. simpl. apply lookup_insert_eq.
Qed.

Lemma keeps_fresh_encode_item (w0 : world) (cl : loc) (index : nat)
    (field : string) :
  keeps (fresh_copy w0 cl) (encode_item cl index field).
Proof. intros w [Hc Hf]. split; [by apply keeps_encode_item | done]. Qed.

Lemma first_has_all_reads (cl : loc) (fields : list string) (w : world) :
  (first_has_all cl fields w).2 = w.
Proof.
  unfold first_has_all, read_list. unfold mbind, ST_bind.
  destruct (heap w !! cl) as [[d|[|c0 l]]|]; simpl; try done.
  unfold read_dict. by destruct (heap w !! c0) as [[d0|l0]|].
Qed.

Lemma encode_copy (w0 : world) (cl : loc) (fields : list string) :
  hoare (extends w0)
    (content_list ← deepcopy cl;
     l ← read_list content_list;
     for_each (seq 0 (length l)) (λ index,
       for_each fields (encode_item content_list index));;
     mret content_list)
    (post (fresh_copy w0) (extends w0)).
Proof.
  eapply hoare_bind_post; [apply deepcopy_fresh|]. intros cl'.
  eapply hoare_weaken
    with (P' := fresh_copy w0 cl')
         (Q' := post (λ c w, c = cl' ∧ fresh_copy w0 cl' w) (fresh_copy w0 cl')).
  - eapply hoare_bind_post with (R := λ _, fresh_copy w0 cl').
    { intros w Hw. unfold read_list. by destruct (heap w !! cl') as [[]|]. }
    intros l.
    eapply hoare_bind_post with (R := λ _, fresh_copy w0 cl').
    + assert (Hk : keeps (fresh_copy w0 cl')
                     (for_each (seq 0 (length l)) (λ index,
                        for_each fields (encode_item cl' index)))).
      { apply keeps_for_each, Forall_forall. intros index _.
        apply keeps_for_each, Forall_forall. intros field _.
        apply keeps_fresh_encode_item. }
      intros w Hw. specialize (Hk w Hw). simpl in Hk.
      by destruct (for_each _ _ w) as [[[]|e] w1].
    + intros _ w Hw. by split.
  - done.
  - intros [c|e] w; simpl; [by intros [-> ?] | by intros [[? _] _]].
Qed.

(** X24: [encode_date] on the heap never changes an object that was
    there before the call, whatever it returns. What it returns is its
    argument itself, with the heap as it was, or a list object that was
    not there before and that holds only dict objects that were not there
    before: the assignments of the ISO texts go into these copies. *)
Theorem encode_date_returns_argument_or_copy (w w' : world) (cl : loc)
    (fields : string) (r : res loc) :
  encode_date cl fields w = (r, w') →
  extends w w'
  ∧ match r with
    | Ok cl' =>
        (cl' = cl ∧ w' = w)
        ∨ (cl' ∉ dom (heap w)
           ∧ ∃ l, heap w' !! cl' = Some (List l)
                  ∧ Forall (λ c, c ∉ dom (heap w)) l)
    | Raise _ => True
    end.
Proof.
  unfold encode_date. case_bool_decide as Hf.
  { intros [= <- <-]. split; [apply extends_refl | done]. }
  unfold mbind at 1, ST_bind at 1.
  pose proof (first_has_all_reads cl (split_comma fields) w) as Hread.
  destruct (first_has_all cl (split_comma fields) w) as [[[|]|e] w1];
    simpl in Hread; subst w1.
  - intros Hrun.
    pose proof (encode_copy w cl (split_comma fields) w (extends_refl w)) as Hc.
    rewrite Hrun in Hc. simpl in Hc. destruct r as [cl'|e]; simpl in Hc.
    + destruct Hc as [(Hext & l & Hl & Hnew) Hfresh].
      split; [done|]. right. split; [done|]. by exists l.
    + done.
  - intros [= <- <-]. split; [apply extends_refl | by left].
  - intros [= <- <-]. split; [apply extends_refl | done].
Qed.

End Copies.

(** * The properties on the sample store *)

Section Samples.
#[local] Existing Instance sample_py.
Import Sample.

Lemma sample_initial : initial = Some store.
Proof. reflexivity. Qed.

Lemma sample_index_one : content_index (concerts store) "id" 1 = Ok (Some 0%nat).
Proof. reflexivity. Qed.

Lemma sample_index_two : content_index (concerts store) "id" 2 = Ok (Some 1%nat).
Proof. reflexivity. Qed.

Lemma sample_read_body :
  read_artist_venue_date complete = Ok (JStr "Genesis", JStr "Forest National", good_date).
Proof. reflexivity. Qed.

Lemma sample_read_body_with_id (i : Z) :
  read_artist_venue_date (complete_with_id i)
  = Ok (JStr "Genesis", JStr "Forest National", good_date).
Proof. reflexivity. Qed.

(** C1 on the sample store: id 1 is at position 0, and GET, DELETE and
    PATCH answer 404 for it. *)
Lemma index_zero_on_sample :
  content_index (concerts store) "id" 1 = Ok (Some 0%nat)
  ∧ get_concerts_id 1 no_body store = (Ok not_found, store)
  ∧ del_concerts_id 1 store = (Ok not_found, store)
  ∧ patch_concerts_id 1 complete store = (Ok not_found, store).
Proof.
  destruct (index_zero_is_not_found store 1) as [_ Hzero].
  destruct (Hzero sample_index_one) as (Hget & Hdel & _ & Hpatch & _).
  split_and!; [exact sample_index_one | apply Hget | exact Hdel | by apply Hpatch].
Defined.

(** C2 on the sample store. *)
Lemma put_first_id_twice_on_sample :
  ¬ NoDup (ids (serve store [(PUT, Concerts_id 1, complete)]).2).
Proof.
  apply (put_first_id_twice store complete (JStr "Genesis") (JStr "Forest National")
           good_date sample_initial eq_refl sample_read_body).
Defined.

(** C3 on the sample store. *)
Lemma post_first_id_accepted_on_sample :
  (post_concerts (complete_with_id 1) store).1
  = Ok (Response 201 Empty (Some ("/concerts/" +:+ pretty 1))).
Proof.
  apply (post_first_id_accepted store 1 (complete_with_id 1) (JStr "Genesis")
           (JStr "Forest National") (JInt 1) good_date sample_index_one eq_refl
           (sample_read_body_with_id 1)); reflexivity.
Defined.

(** C4 on the sample store: PATCH of record 2 with a date that does not
    parse. *)
Lemma bad_date_escapes_on_sample :
  patch_concerts_id 2 bad_date store
  = (Raise ValueError,
     State (<[1%nat := <["venue" := VJson (JStr "Forest National")]>
                        (<["artist" := VJson (JStr "Genesis")]> second)]>
              (concerts store))
           3).
Proof.
  refine (proj2 (proj2 (bad_date_escapes store 2 bad_date (genesis "tomorrow")
    (JStr "Genesis") (JStr "Forest National") "tomorrow"
    eq_refl eq_refl _ _ _ _)) 0%nat second sample_index_two eq_refl);
    reflexivity.
Defined.

(** C5 on the sample store. *)
Lemma put_first_id_creates_on_sample :
  (put_concerts_id 1 complete store).1 = Ok (Response 201 Empty None)
  ∧ concerts (put_concerts_id 1 complete store).2 !! 0%nat = Some first.
Proof.
  destruct (put_first_id_creates store 1 complete (JStr "Genesis")
              (JStr "Forest National") good_date sample_index_one eq_refl
              sample_read_body) as (Hresp & Hfirst & _).
  split; [exact Hresp | exact Hfirst].
Defined.

(** C6 on the sample store. *)
Lemma delete_first_id_not_found_on_sample :
  step store (DELETE, Concerts_id 1, no_body) = (Ok not_found, store).
Proof.
  apply (delete_first_id_not_found store no_body sample_initial).
Defined.

(** C7 on the sample store: after two POSTs without an id and a PUT
    between them, a further POST without id. *)
Lemma counter_above_ids_on_sample :
  step (serve store three_calls).2 (POST, Concerts, complete)
  = (Ok (Response 201 Empty (Some "/concerts/9")),
     State (concerts (serve store three_calls).2
            ++ [concert 9 (JStr "Genesis") (JStr "Forest National") good_date])
           10)
  ∧ generated (three_calls ++ [(POST, Concerts, complete)])
      (serve store (three_calls ++ [(POST, Concerts, complete)])).1
    = ["/concerts/3"; "/concerts/8"; "/concerts/9"].
Proof.
  destruct (counter_above_ids store three_calls sample_initial)
    as (_ & _ & _ & Hpost).
  destruct (Hpost complete (JStr "Genesis") (JStr "Forest National") good_date
              eq_refl sample_read_body (printable_small 9 ltac:(lia)))
    as (_ & Hstep & Hgen).
  split; [exact Hstep | exact Hgen].
Defined.

Example three_calls_generated :
  generated three_calls (serve store three_calls).1
  = ["/concerts/3"; "/concerts/8"]
  ∧ concerts_key (serve store three_calls).2 = 9.
Proof. split; reflexivity. Qed.

(** C8 on a list of five. *)
Lemma limit_offset_on_sample :
  limit_offset [1; 2; 3; 4; 5] 0 2 = []
  ∧ limit_offset [1; 2; 3; 4; 5] 2 1 = [2; 3]
  ∧ limit_offset [1; 2; 3; 4; 5] 0 0 = [1; 2; 3; 4; 5].
Proof.
  destruct (limit_offset_is_slice [1; 2; 3; 4; 5] 0 2) as (_ & _ & Hempty & _).
  destruct (limit_offset_is_slice [1; 2; 3; 4; 5] 2 1) as (_ & _ & _ & Htake).
  destruct (limit_offset_is_slice [1; 2; 3; 4; 5] 0 0) as (_ & Hwhole & _).
  split_and!.
  - apply Hempty; [reflexivity | discriminate].
  - rewrite Htake; [reflexivity | discriminate | discriminate | left; discriminate].
  - apply Hwhole; reflexivity.
Defined.

Example limit_offset_negative :
  limit_offset [1; 2; 3; 4; 5] 1 (-1) = []
  ∧ limit_offset [1; 2; 3; 4; 5] 5 (-2) = []
  ∧ limit_offset [1; 2; 3; 4; 5] 2 (-2) = []
  ∧ limit_offset [1; 2; 3; 4; 5] 9 (-2) = [4; 5]
  ∧ limit_offset [1; 2; 3; 4; 5] (-1) 1 = []
  ∧ limit_offset [1; 2; 3; 4; 5] 10 3 = [4; 5].
Proof. repeat split. Qed.

Lemma sample_world_holds : holds world (Heap.concerts world) (concerts store).
Proof.
  exists [2%positive; 3%positive]. split_and!.
  - reflexivity.
  - apply NoDup_cons. split; [|apply NoDup_singleton].
    intros Hin%list_elem_of_singleton. discriminate.
  - repeat constructor.
Qed.





(** C10 on the sample world: after two GETs the store still holds its two
    records with their [datetime] values, and a further GET of record 2
    answers what the handler answers on the sample store. *)
Lemma get_leaves_sample_unchanged :
  Heap.stored (Heap.serve_gets world [(Concerts_id 2, no_body); (Concerts, no_body)])
  = Ok [first; second]
  ∧ (Heap.get (Concerts_id 2, no_body)
       (Heap.serve_gets world [(Concerts_id 2, no_body); (Concerts, no_body)])).1
    = (step store (GET, Concerts_id 2, no_body)).1.
Proof.
  destruct (get_leaves_store_unchanged world
              [(Concerts_id 2, no_body); (Concerts, no_body)])
    as (_ & _ & _ & Hstored & Hget).
  split.
  - apply Hstored. reflexivity.
  - apply (Hget store (Concerts_id 2, no_body) sample_world_holds).
Defined.

Example get_second_on_heap :
  (Heap.get_concerts_id 2 no_body world).1
  = Ok (Response 200
          (Json_record (<["date" := VStr "2022-09-26T15:00:00-02:00"]> second))
          None).
Proof. reflexivity. Qed.

End Samples.

(** * The calls on the sample store *)

Section Sample_calls.
#[local] Existing Instance sample_py.
Import Sample.

Lemma sample_reachable : reachable store.
Proof. exists store, []. split; reflexivity. Qed.

Lemma sample_absent : Some (VInt 7) ∉ ids store.
Proof.
  intros H. repeat (apply elem_of_cons in H as [H|H]; [discriminate|]).
  by inversion H.
Qed.

Lemma sample_present : Some (VInt 2) ∈ ids store.
Proof. right. left. Qed.

Lemma sample_first_plain : plain first.
Proof.
  exists 1, (JStr "Pink Floyd"), (JStr "Werchter"), "2017-07-20T20:00:00-02:00".
  split_and!; [reflexivity | apply printable_small; lia | exact I | exact I].
Qed.

Lemma sample_second_plain : plain second.
Proof.
  exists 2, (JStr "Kraftwerk"), (JStr "Domaine National de St Cloud"),
    "2022-09-26T15:00:00-02:00".
  split_and!; [reflexivity | apply printable_small; lia | exact I | exact I].
Qed.

Lemma sample_plain : Forall plain (concerts store).
Proof.
  repeat constructor; [exact sample_first_plain | exact sample_second_plain].
Qed.

(** X1 on the sample store after two POSTs and a PUT, for the record of
    the PUT. *)
Lemma stored_records_have_four_fields_on_sample :
  (∃ n, @concert sample_py 7 (JStr "Genesis") (JStr "Forest National") good_date
        !! "id" = Some (VInt n))
  ∧ ∃ dt, @concert sample_py 7 (JStr "Genesis") (JStr "Forest National") good_date
          !! "date" = Some (VDate dt).
Proof.
  destruct (stored_records_have_four_fields (serve store three_calls).2
              (@concert sample_py 7 (JStr "Genesis") (JStr "Forest National")
                 good_date))
    as (Hid & _ & _ & Hdate & _).
  - exists store, three_calls. split; reflexivity.
  - do 3 right. left.
  - split; [exact Hid | exact Hdate].
Defined.

(** X2 on the sample store: a PUT, a PATCH and a DELETE on the id 1. *)
Lemma first_record_never_changes_on_sample :
  concerts (serve store [(PUT, Concerts_id 1, complete);
                         (PATCH, Concerts_id 1, complete);
                         (DELETE, Concerts_id 1, no_body)]).2 !! 0%nat
  = Some first.
Proof.
  exact (first_record_never_changes store
           [(PUT, Concerts_id 1, complete); (PATCH, Concerts_id 1, complete);
            (DELETE, Concerts_id 1, no_body)] sample_initial).
Defined.

(** X3 on the sample store after a PUT on the id 1: the records at 0 and 2
    have the same id. *)
Lemma repeated_id_is_first_on_sample :
  first !! "id" = Some (VInt 1).
Proof.
  apply (repeated_id_is_first (serve store [(PUT, Concerts_id 1, complete)]).2
           0 2 first (@concert sample_py 1 (JStr "Genesis") (JStr "Forest National") good_date)).
  - exists store, [(PUT, Concerts_id 1, complete)]. split; reflexivity.
  - lia.
  - reflexivity.
  - reflexivity.
  - reflexivity.
Defined.

(** X4 on the sample store: the second page of one record, two fields. *)
Lemma get_concerts_shows_page_on_sample :
  step store
    (GET, Concerts,
     Request false None
       (<["limit" := "1"]> (<["offset" := "1"]> (<["fields" := "artist,date"]> ∅))))
  = (Ok (Response 200
           (Json_list [<["artist" := VStr "Kraftwerk"]>
                         (<["date" := VStr "2022-09-26T15:00:00-02:00"]> ∅)])
           None), store).
Proof.
  exact (get_concerts_shows_page store
           (Request false None
              (<["limit" := "1"]> (<["offset" := "1"]>
                 (<["fields" := "artist,date"]> ∅))))
           1 1 sample_reachable sample_plain eq_refl eq_refl).
Defined.

(** X5 on the sample store: the record 2 with one field, and the id 1. *)
Lemma get_concerts_id_shows_record_on_sample :
  step store (GET, Concerts_id 2, Request false None (<["fields" := "venue"]> ∅))
  = (Ok (Response 200
           (Json_record (<["venue" := VStr "Domaine National de St Cloud"]> ∅))
           None), store)
  ∧ step store (GET, Concerts_id 1, no_body) = (Ok not_found, store).
Proof.
  destruct (get_concerts_id_shows_record store 2
              (Request false None (<["fields" := "venue"]> ∅)) sample_reachable
              (path_id_small 2 ltac:(lia)))
    as [Hfound _].
  destruct (get_concerts_id_shows_record store 1 no_body sample_reachable
              (path_id_small 1 ltac:(lia)))
    as [_ Hmissing].
  split.
  - apply (Hfound ltac:(lia) 1%nat second);
      [reflexivity | reflexivity | exact sample_second_plain].
  - apply Hmissing. by left.
Defined.

(** X6 on the sample store: DELETE of the record 2. *)
Lemma delete_then_gone_on_sample :
  step store (DELETE, Concerts_id 2, no_body)
  = (Ok (Response 200
           (Json_record (<["date" := VStr "2022-09-26T15:00:00-02:00"]> second))
           None), State [first] 3)
  ∧ step (State [first] 3) (GET, Concerts_id 2, no_body)
    = (Ok not_found, State [first] 3).
Proof.
  destruct (delete_then_gone store 2 1 second no_body sample_reachable
              (path_id_small 2 ltac:(lia)))
    as (Hdel & _ & Hget & _);
    [lia | reflexivity | reflexivity | exact sample_second_plain |].
  split; [exact Hdel | exact (Hget no_body)].
Defined.

(** X7 on the sample store: no record has the id 7. *)
Lemma delete_missing_is_not_found_on_sample :
  step store (DELETE, Concerts_id 7, no_body) = (Ok not_found, store).
Proof.
  apply delete_missing_is_not_found; [exact sample_reachable|].
  right. exact sample_absent.
Defined.

(** X8 on the sample store: PUT on the id 2 and on the id 7. *)
Lemma put_replaces_or_appends_on_sample :
  step store (PUT, Concerts_id 2, complete)
  = (Ok (Response 204 Empty None),
     State [first; @concert sample_py 2 (JStr "Genesis") (JStr "Forest National") good_date] 3)
  ∧ step store (PUT, Concerts_id 7, complete)
    = (Ok (Response 201 Empty None),
       State [first; second;
              @concert sample_py 7 (JStr "Genesis") (JStr "Forest National") good_date] 8).
Proof.
  destruct (put_replaces_or_appends store 2 complete _ _ _ sample_reachable
              (path_id_small 2 ltac:(lia)) ltac:(lia) eq_refl sample_read_body)
    as [Hreplace _].
  destruct (put_replaces_or_appends store 7 complete _ _ _ sample_reachable
              (path_id_small 7 ltac:(lia)) ltac:(lia) eq_refl sample_read_body)
    as [_ Happend].
  split.
  - apply (Hreplace 1%nat second); reflexivity.
  - apply Happend. exact sample_absent.
Defined.

(** X9 on the sample store: PUT on the id 7, then GET and the PUT again. *)
Lemma put_then_get_on_sample :
  step (step store (PUT, Concerts_id 7, complete)).2 (GET, Concerts_id 7, no_body)
  = (Ok (Response 200
           (Json_record
              (view None (@concert sample_py 7 (JStr "Genesis") (JStr "Forest National")
                            good_date))) None),
     (step store (PUT, Concerts_id 7, complete)).2)
  ∧ step (step store (PUT, Concerts_id 7, complete)).2 (PUT, Concerts_id 7, complete)
    = (Ok (Response 204 Empty None), (step store (PUT, Concerts_id 7, complete)).2).
Proof.
  destruct (put_then_get store 7 complete _ _ _ sample_reachable
              (path_id_small 7 ltac:(lia)) ltac:(lia) eq_refl sample_read_body I I)
    as [Hget Hput].
  split; [exact (Hget no_body) | exact Hput].
Defined.

(** X10 on the sample store: the POST gets the id 3. *)
Lemma post_then_get_on_sample :
  step store (POST, Concerts, complete)
  = (Ok (Response 201 Empty (Some "/concerts/3")),
     State [first; second;
            @concert sample_py 3 (JStr "Genesis") (JStr "Forest National") good_date] 4)
  ∧ step (State [first; second;
                 @concert sample_py 3 (JStr "Genesis") (JStr "Forest National") good_date] 4)
      (GET, Concerts_id 3, Request false None (<["fields" := "id,artist"]> ∅))
    = (Ok (Response 200
             (Json_record (<["id" := VInt 3]> (<["artist" := VStr "Genesis"]> ∅)))
             None),
       State [first; second;
              @concert sample_py 3 (JStr "Genesis") (JStr "Forest National") good_date] 4).
Proof.
  destruct (post_then_get store complete _ _ _ sample_reachable
              (printable_small 3 ltac:(lia)) eq_refl sample_read_body I I eq_refl)
    as [Hpost Hget].
  split; [exact Hpost|].
  exact (Hget (Request false None (<["fields" := "id,artist"]> ∅))).
Defined.

(** X11 on the sample store: POST with the id 2 and with the id 7. *)
Lemma post_with_id_on_sample :
  step store (POST, Concerts, complete_with_id 2)
  = (Ok (error "Resource already exists" 400), store)
  ∧ step store (POST, Concerts, complete_with_id 7)
    = (Ok (Response 201 Empty (Some "/concerts/7")),
       State [first; second;
              @concert sample_py 7 (JStr "Genesis") (JStr "Forest National") good_date] 8).
Proof.
  destruct (post_with_id store 2 (complete_with_id 2) _ _ (JInt 2) _
              sample_reachable ltac:(lia) eq_refl (sample_read_body_with_id 2)
              eq_refl eq_refl) as [Hexists _].
  destruct (post_with_id store 7 (complete_with_id 7) _ _ (JInt 7) _
              sample_reachable ltac:(lia) eq_refl (sample_read_body_with_id 7)
              eq_refl eq_refl) as [_ Hnew].
  split; [exact (Hexists sample_present) | exact (Hnew sample_absent)].
Defined.

(** X12 on the sample store. *)
Lemma post_on_id_never_creates_on_sample :
  step store (POST, Concerts_id 2, complete)
  = (Ok (error "Resource already exists" 409), store)
  ∧ step store (POST, Concerts_id 1, complete) = (Ok not_found, store)
  ∧ step store (POST, Concerts_id 7, complete) = (Ok not_found, store).
Proof.
  destruct (post_on_id_never_creates store 2 complete sample_reachable
              (path_id_small 2 ltac:(lia))) as [H2 _].
  destruct (post_on_id_never_creates store 1 complete sample_reachable
              (path_id_small 1 ltac:(lia))) as [_ H1].
  destruct (post_on_id_never_creates store 7 complete sample_reachable
              (path_id_small 7 ltac:(lia))) as [_ H7].
  split_and!.
  - apply H2; [lia | exact sample_present].
  - apply H1. by left.
  - apply H7. right. exact sample_absent.
Defined.

(** X13 on the sample store: a PATCH of the venue and the date of the
    record 2, with an id in the body. *)
Lemma patch_merges_on_sample :
  step store
    (PATCH, Concerts_id 2,
     Request true
       (Some (JObj (<["id" := JInt 9]>
                      (<["venue" := JStr "Forest National"]>
                         (<["date" := JStr good_date]> ∅))))) ∅)
  = (Ok (Response 204 Empty None),
     State [first; @concert sample_py 2 (JStr "Kraftwerk") (JStr "Forest National") good_date] 3).
Proof.
  exact (patch_merges store 2 1
           (Request true
              (Some (JObj (<["id" := JInt 9]>
                             (<["venue" := JStr "Forest National"]>
                                (<["date" := JStr good_date]> ∅))))) ∅)
           _ (JStr "Kraftwerk") (JStr "Domaine National de St Cloud")
           "2022-09-26T15:00:00-02:00" good_date
           sample_reachable (path_id_small 2 ltac:(lia)) ltac:(lia)
           eq_refl eq_refl eq_refl eq_refl).
Defined.

(** X14 on the sample store: a PATCH on the id 7 without a body. *)
Lemma patch_checks_before_body_on_sample :
  step store (PATCH, Concerts_id 7, no_body)
  = (Ok (error "Incorrect Content-Type" 400), store)
  ∧ step store (PATCH, Concerts_id 7, Request true None ∅) = (Ok not_found, store).
Proof.
  destruct (patch_checks_before_body store 7 no_body sample_reachable
              (path_id_small 7 ltac:(lia))) as [H1 _].
  destruct (patch_checks_before_body store 7 (Request true None ∅) sample_reachable
              (path_id_small 7 ltac:(lia)))
    as [_ H2].
  split; [by apply H1 | apply H2; [done | right; exact sample_absent]].
Defined.

(** X15 on the sample store: a list as body, a body without venue whose
    date does not parse, and a number as date. *)
Example malformed_body_on_sample :
  step store (POST, Concerts, Request true (Some (JArr [])) ∅)
  = (Raise TypeError, store)
  ∧ step store
      (PUT, Concerts_id 2,
       Request true
         (Some (JObj (<["artist" := JStr "Genesis"]> (<["date" := JStr "soon"]> ∅))))
         ∅)
    = (Ok (error "Missing field(s)" 400), store)
  ∧ step store
      (POST, Concerts,
       Request true (Some (JObj (<["date" := JInt 2024]> (genesis good_date)))) ∅)
    = (Raise TypeError, store).
Proof. split_and!; reflexivity. Qed.

(** X16 on the sample store: a POST answered 201. *)
Lemma status_tells_effect_on_sample :
  ∃ n artist venue dt,
    concerts (step store (POST, Concerts, complete)).2
    = (concerts store ++ [concert n artist venue dt])%list
    ∧ concerts_key (step store (POST, Concerts, complete)).2
      = Z.max (concerts_key store) (n + 1).
Proof.
  destruct (status_tells_effect store (step store (POST, Concerts, complete)).2
              (POST, Concerts, complete)
              (Response 201 Empty (Some "/concerts/3")) eq_refl)
    as (_ & Hcreated & _).
  exact (Hcreated eq_refl).
Defined.

(** X17 on the sample store: a PATCH of the record 2 whose date does not
    parse raises after it has set artist and venue. *)
Lemma exception_effect_on_sample :
  concerts_key (step store (PATCH, Concerts_id 2, bad_date)).2 = 3
  ∧ ids (step store (PATCH, Concerts_id 2, bad_date)).2 = ids store
  ∧ (step store (PATCH, Concerts_id 2, bad_date)).2 ≠ store.
Proof.
  destruct (exception_effect store (step store (PATCH, Concerts_id 2, bad_date)).2
              PATCH (Concerts_id 2) bad_date ValueError sample_plain
              (printable_small 3 ltac:(lia)) ltac:(by intros n [=]) eq_refl)
    as (_ & Hkey & _ & _ & Hids).
  split_and!; [exact Hkey | exact Hids | discriminate].
Defined.

(** X18 on lists of two records: no field in the first, and no field in
    the second. *)
Example content_index_outcomes_on_sample :
  content_index [{["artist" := VStr "Genesis"]}; first] "id" 1 = Ok None
  ∧ content_index [first; {["artist" := VStr "Genesis"]}] "id" 1 = Ok (Some 0%nat)
  ∧ content_index [first; {["artist" := VStr "Genesis"]}] "id" 2 = Raise KeyError
  ∧ content_index [first; second] "id" 7 = Ok None.
Proof. split_and!; reflexivity. Qed.

(** X19 on a list of five. *)
Lemma limit_offset_pages_on_sample :
  (limit_offset [1; 2; 3; 4; 5] 2 1 ++ limit_offset [1; 2; 3; 4; 5] 3 3)%list
  = [2; 3; 4; 5].
Proof. exact (limit_offset_pages [1; 2; 3; 4; 5] 1 2 3 ltac:(lia) ltac:(lia) ltac:(lia)). Defined.

(** X20 on a list of five: a negative limit after a positive offset. *)
Example limit_offset_negative_limit :
  limit_offset [1; 2; 3; 4; 5] (-3) 2 = [3; 4]
  ∧ limit_offset [1; 2; 3; 4; 5] 2 (-1) = []
  ∧ limit_offset [1; 2; 3; 4; 5] 2 (-3) = [3; 4].
Proof. split_and!; reflexivity. Qed.

(** X21 on the sample store: a name that is no key, and a name twice. *)
Example reduce_fields_selects_on_sample :
  reduce_fields [first; second] (Some "id,price,id")
  = [{["id" := VInt 1]}; {["id" := VInt 2]}]
  ∧ reduce_fields [first; second] (Some "") = [first; second]
  ∧ reduce_fields [first; second] (Some "price") = [∅; ∅].
Proof. split_and!; reflexivity. Qed.

(** X22 on the sample store: a limit that is no number. *)
Lemma get_concerts_raises_on_arguments_only_on_sample :
  (step store (GET, Concerts, Request false None (<["limit" := "two"]> ∅))).1
  = Raise ValueError.
Proof.
  apply (get_concerts_raises_on_arguments_only store
           (Request false None (<["limit" := "two"]> ∅)) ValueError
           sample_reachable sample_plain).
  split; [reflexivity|]. exists "limit", "two".
  split_and!; [by left | reflexivity | discriminate | reflexivity].
Defined.

Example get_concerts_empty_limit :
  (step store (GET, Concerts, Request false None (<["limit" := ""]> ∅))).1
  = (step store (GET, Concerts, no_body)).1.
Proof. reflexivity. Qed.


Example calls_that_raise_on_sample :
  (step store (POST, Concerts,
               Request true (Some (JObj (<["id" := JStr "seven"]> (genesis good_date)))) ∅)).1
  = Raise ValueError
  ∧ (step store (POST, Concerts,
                 Request true (Some (JObj (<["id" := JNull]> (genesis good_date)))) ∅)).1
    = Raise TypeError
  ∧ (step store (PATCH, Concerts_id 2, Request true None ∅)).1 = Raise BadRequest
  ∧ (step store (PATCH, Concerts_id 2, Request true (Some (JStr "artist")) ∅)).1
    = Raise TypeError.
Proof. split_and!; reflexivity. Qed.

(** X24 on the sample heap: the dates of the store list as ISO texts. *)
Lemma encode_date_returns_argument_or_copy_on_sample :
  Heap.extends world (Heap.encode_date 1%positive "date" world).2.
Proof.
  exact (proj1 (encode_date_returns_argument_or_copy world
                  (Heap.encode_date 1%positive "date" world).2 1%positive "date"
                  (Heap.encode_date 1%positive "date" world).1
                  (surjective_pairing _))).
Defined.

Example encode_date_on_sample_heap :
  (Heap.encode_date 1%positive "date" world).1 ≠ Ok 1%positive
  ∧ Heap.stored (Heap.encode_date 1%positive "date" world).2 = Ok [first; second]
  ∧ Heap.encode_date 1%positive "price" world = (Ok 1%positive, world).
Proof. split_and!; [discriminate | reflexivity | reflexivity]. Qed.

End Sample_calls.
